(** * Spotify-Data-Exporter: retry executor, paginators and JSON merger

    A shallow embedding of
      - [utils/api_utils.py]            ([retry_on_api_error]),
      - [exporters/base_exporter.py]    ([BaseExporter.paginate]),
      - [exporters/following_exporter.py] ([get_followed_artists]),
      - [utils/file_utils.py]           ([merge_json_data], [_find_id_field]),
    followed by the properties the specification states about them.

    Conventions of the embedding.
      - Python objects that travel through the code (JSON documents, header
        values) are terms of [value]; a [dict] is an association list in
        insertion order whose keys are pairwise distinct.
      - The floats of the documents are exact rationals ([Q]).  The
        numbers of the delay arithmetic ([number]) are Python's unbounded
        ints and IEEE 754 doubles: a product of doubles is rounded, an
        int too large for a double raises [OverflowError], and [int(x)]
        on a double is truncation toward zero.
      - A call that may raise returns an [outcome]; a loop takes a fuel
        argument and returns [None] when it is used up.  The loop of the
        executor never does ([retry_on_api_error_total]); those of the
        paginators can, against a source that never stops.
      - The client is a state-passing function of an abstract state; the
        calls it receives are logged next to that state.
      - [merge_json_data] is embedded twice: on values, and on a store of
        mutable objects ([Store]) where copies allocate and assignments
        update in place; [store_merge_json_data] relates the two.
      - [time.sleep] is a parameter of the executor: a call returns or
        raises, as the standard library does on a negative length; the
        event [Sleep d] records a call that returned.  Logging calls have
        no influence on control flow and are left out. *)

From Stdlib Require Import ZArith QArith Qround Qpower List String Ascii Bool Lia.
From Stdlib Require Import SpecFloat.
Import ListNotations.
Local Open Scope string_scope.
Local Open Scope list_scope.
Local Open Scope Z_scope.

Set Implicit Arguments.
Set Warnings "-register-all".

(** ** Python values *)

Inductive value : Type :=
| VNone
| VBool (b : bool)
| VInt (n : Z)
| VFloat (q : Q)
| VStr (s : string)
| VList (l : list value)
| VDict (d : list (string * value)).

Definition dict := list (string * value).

(** Dictionaries as association lists, whatever the values are. *)

(** [k in d] *)
Fixpoint dict_mem {V : Type} (k : string) (d : list (string * V)) : bool :=
  match d with
  | [] => false
  | (k', _) :: d' => if String.eqb k k' then true else dict_mem k d'
  end.

(** [d[k]], [None] standing for [KeyError] *)
Fixpoint dict_lookup {V : Type} (k : string) (d : list (string * V))
  : option V :=
  match d with
  | [] => None
  | (k', v) :: d' => if String.eqb k k' then Some v else dict_lookup k d'
  end.

(** [d.get(k, default)] *)
Definition dict_get {V : Type} (k : string) (default : V)
           (d : list (string * V)) : V :=
  match dict_lookup k d with
  | Some v => v
  | None => default
  end.

(** [d[k] = v]: an existing key keeps its position, a new one goes last. *)
Fixpoint dict_set {V : Type} (k : string) (v : V) (d : list (string * V))
  : list (string * V) :=
  match d with
  | [] => [(k, v)]
  | (k', v') :: d' =>
      if String.eqb k k' then (k, v) :: d' else (k', v') :: dict_set k v d'
  end.

(** Truth value of an object, as tested by [if], [while] and [not]. *)
Definition truthy (v : value) : bool :=
  match v with
  | VNone => false
  | VBool b => b
  | VInt n => negb (n =? 0)
  | VFloat q => negb (Qeq_bool q 0)
  | VStr s => negb (String.eqb s "")
  | VList l => match l with [] => false | _ => true end
  | VDict d => match d with [] => false | _ => true end
  end.

(** [int(q)] on a float: truncation toward zero. *)
Definition Qtrunc (q : Q) : Z :=
  if Qle_bool 0 q then Qfloor q else Qceiling q.

(** ** Exceptions and results *)

(** [spotipy.exceptions.SpotifyException]: the fields the code reads.
    [headers = None] stands for an exception object without the attribute
    (the code guards the access with [hasattr]). *)
Record SpotifyException : Type := mkSpotifyException {
  http_status : Z;
  headers : option dict
}.

Inductive exn : Type :=
| ESpotify (e : SpotifyException)
| EOther (name : string).

Inductive outcome (A : Type) : Type :=
| Ok (a : A)
| Err (e : exn).
Arguments Ok {A} a.
Arguments Err {A} e.

(** How a Python function call ends.  [Returned None] is the value [None]
    a function yields when control falls off its end. *)
Inductive completion (A : Type) : Type :=
| Returned (v : option A)
| Raised (e : exn).
Arguments Returned {A} v.
Arguments Raised {A} e.

(** ** Numbers *)

Definition ValueError : exn := EOther "ValueError".
Definition OverflowError : exn := EOther "OverflowError".

(** The numbers of the delay arithmetic: Python's [int], which is
    unbounded, and Python's [float], an IEEE 754 double ([spec_float] at
    precision 53 and maximal exponent 1024, products rounded to the
    nearest double, ties to even). *)
Inductive number : Type :=
| NInt (n : Z)
| NFloat (x : spec_float).

(** [float(n)]: the nearest double; [OverflowError] when [n] is too
    large for one. *)
Definition float_of_int (n : Z) : outcome spec_float :=
  match binary_normalize 53 1024 n 0 false with
  | S754_infinity _ => Err OverflowError
  | x => Ok x
  end.

(** [a * b]: exact on two ints; otherwise the product of two doubles, an
    int operand being converted first. *)
Definition num_mul (a b : number) : outcome number :=
  match a, b with
  | NInt m, NInt n => Ok (NInt (m * n))
  | NInt m, NFloat y =>
      match float_of_int m with
      | Ok x => Ok (NFloat (SFmul 53 1024 x y))
      | Err ex => Err ex
      end
  | NFloat x, NInt n =>
      match float_of_int n with
      | Ok y => Ok (NFloat (SFmul 53 1024 x y))
      | Err ex => Err ex
      end
  | NFloat x, NFloat y => Ok (NFloat (SFmul 53 1024 x y))
  end.

(** [int(x)] on a float: truncation toward zero, [ValueError] on NaN and
    [OverflowError] on an infinity. *)
Definition int_of_float (x : spec_float) : outcome Z :=
  match x with
  | S754_zero _ => Ok 0
  | S754_finite s m e =>
      let magnitude := Z.shiftl (Zpos m) e in
      Ok (if s then - magnitude else magnitude)
  | S754_infinity _ => Err OverflowError
  | S754_nan => Err ValueError
  end.

(** [int(a)] on a number. *)
Definition int_of_number (a : number) : outcome Z :=
  match a with
  | NInt n => Ok n
  | NFloat x => int_of_float x
  end.

(** ** Events *)

(** What the retry executor does to the outside world: an invocation of
    the thunk, and a call of [time.sleep] that returned after the
    delay. *)
Inductive event : Type :=
| Invoke
| Sleep (d : number).

Definition is_sleep (ev : event) : bool :=
  match ev with Sleep _ => true | Invoke => false end.

Definition is_invoke (ev : event) : bool :=
  match ev with Invoke => true | Sleep _ => false end.

Fixpoint sleeps (tr : list event) : list number :=
  match tr with
  | [] => []
  | Sleep d :: tr' => d :: sleeps tr'
  | Invoke :: tr' => sleeps tr'
  end.

Definition invocations (tr : list event) : nat :=
  List.length (filter is_invoke tr).

(** ** utils/api_utils.py *)

Definition default_retry_on_status : list Z := [429; 500; 502; 503; 504].

(** [backoff_factor: float = 2.0] *)
Definition default_backoff_factor : number :=
  NFloat (S754_finite false 4503599627370496 (-51)).

Section RetryExecutor.

(** Python's built-in [int] on a string ([None] for [ValueError]). *)
Variable int_of_str : string -> option Z.

(** [time.sleep(d)]: [None] when the call returns, after the delay, and
    the exception it raises otherwise; the standard library raises
    [ValueError] on a negative length and on NaN, and [OverflowError] on
    a length beyond what its clock can hold. *)
Variable time_sleep : number -> option exn.

(** [int(v)], [None] standing for [ValueError] or [TypeError]. *)
Definition py_int (v : value) : option Z :=
  match v with
  | VNone => None
  | VBool b => Some (if b then 1 else 0)
  | VInt n => Some n
  | VFloat q => Some (Qtrunc q)
  | VStr s => int_of_str s
  | VList _ => None
  | VDict _ => None
  end.

(** The exceptions the handler at line 70 catches. *)
Definition value_or_type_error (ex : exn) : bool :=
  match ex with
  | EOther name => String.eqb name "ValueError" || String.eqb name "TypeError"
  | ESpotify _ => false
  end.

(** Lines 67-71: the time to wait after the failure [e].  The header,
    when there is one, goes through [int], and so does the current delay
    when there is none; what [int] rejects with [ValueError] or
    [TypeError] is replaced by the current delay, any other exception of
    [int] leaves the handler. *)
Definition retry_after_of (e : SpotifyException) (current_delay : number)
  : outcome number :=
  let hint :=
    match headers e with
    | Some h => dict_lookup "Retry-After" h
    | None => None
    end in
  match hint with
  | Some v =>
      match py_int v with
      | Some n => Ok (NInt n)
      | None => Ok current_delay
      end
  | None =>
      match int_of_number current_delay with
      | Ok n => Ok (NInt n)
      | Err ex =>
          if value_or_type_error ex then Ok current_delay else Err ex
      end
  end.

Section Loop.
Variables St A : Type.
(** The thunk: every invocation may change the state of the world
    behind it. *)
Variable func : St -> outcome A * St.
Variable max_retries : Z.
Variable backoff_factor : number.
Variable retry_on_status : list Z.

Definition status_in (status : Z) (l : list Z) : bool :=
  existsb (Z.eqb status) l.

(** Lines 66-82, the handler once the failure is to be retried: the
    delay is chosen and slept, and the current delay is multiplied.  The
    events are the sleeps that took place; [Err] is an exception raised
    by one of these steps, which leaves the handler and the function. *)
Definition wait_and_back_off (e : SpotifyException) (current_delay : number)
  : list event * outcome number :=
  match retry_after_of e current_delay with
  | Err ex => ([], Err ex)
  | Ok retry_after =>
      match time_sleep retry_after with
      | Some ex => ([], Err ex)
      | None => ([Sleep retry_after], num_mul current_delay backoff_factor)
      end
  end.

(** Lines 53-90, one unfolding of the [while] loop per unit of fuel. *)
Fixpoint retry_loop (fuel : nat) (attempt : Z) (current_delay : number)
         (s : St) (tr : list event)
  : option (completion A * (St * list event)) :=
  match fuel with
  | O => None
  | S fuel' =>
      if attempt <? max_retries then
        let (r, s') := func s in
        let tr := tr ++ [Invoke] in
        match r with
        | Ok v => Some (Returned (Some v), (s', tr))
        | Err (ESpotify e) =>
            if status_in (http_status e) retry_on_status then
              let attempt := attempt + 1 in
              if attempt >=? max_retries then
                Some (Raised (ESpotify e), (s', tr))
              else
                let (slept, next) := wait_and_back_off e current_delay in
                let tr := tr ++ slept in
                match next with
                | Err ex => Some (Raised ex, (s', tr))
                | Ok current_delay =>
                    retry_loop fuel' attempt current_delay s' tr
                end
            else
              Some (Raised (ESpotify e), (s', tr))
        | Err e => Some (Raised e, (s', tr))
        end
      else
        Some (Returned None, (s, tr))
  end.

End Loop.

(** [retry_on_api_error(func, max_retries, delay, backoff_factor,
    retry_on_status)] run in the world [(s, tr)]. *)
Definition retry_on_api_error {St A : Type} (func : St -> outcome A * St)
           (max_retries : Z) (delay : number) (backoff_factor : number)
           (retry_on_status : option (list Z)) (w : St * list event)
  : option (completion A * (St * list event)) :=
  let retry_on_status :=
    match retry_on_status with
    | None => default_retry_on_status
    | Some l => l
    end in
  retry_loop func max_retries backoff_factor retry_on_status
             (S (Z.to_nat max_retries)) 0 delay (fst w) (snd w).

End RetryExecutor.

(** ** Dynamic operations on objects *)

Definition TypeError : exn := EOther "TypeError".
Definition KeyError : exn := EOther "KeyError".
Definition AttributeError : exn := EOther "AttributeError".

Definition bind {A B : Type} (m : outcome A) (k : A -> outcome B) : outcome B :=
  match m with
  | Ok a => k a
  | Err e => Err e
  end.

Notation "x <- m ;; k" := (bind m (fun x => k))
  (at level 61, m at next level, right associativity).

(** [x == y] where one side is a string or both sides can be hashed, the
    two uses the code makes of it: numbers compare by value across [bool],
    [int] and [float], strings by their characters, and a list or a dict
    equals neither a string nor a scalar. *)
Definition number_of (v : value) : option Q :=
  match v with
  | VBool b => Some (if b then 1%Q else 0%Q)
  | VInt n => Some (inject_Z n)
  | VFloat q => Some q
  | _ => None
  end.

Definition py_eqb (x y : value) : bool :=
  match number_of x, number_of y with
  | Some p, Some q => Qeq_bool p q
  | None, None =>
      match x, y with
      | VNone, VNone => true
      | VStr s, VStr t => String.eqb s t
      | _, _ => false
      end
  | _, _ => false
  end.

(** Lists and dicts cannot be put in a set ([TypeError: unhashable]). *)
Definition hashable (v : value) : bool :=
  match v with
  | VList _ | VDict _ => false
  | _ => true
  end.

Definition is_substring (k s : string) : bool :=
  match String.index 0 k s with
  | Some _ => true
  | None => false
  end.

(** [k in v] for a string [k]. *)
Definition py_contains (k : string) (v : value) : outcome bool :=
  match v with
  | VDict d => Ok (dict_mem k d)
  | VList l => Ok (existsb (py_eqb (VStr k)) l)
  | VStr s => Ok (is_substring k s)
  | _ => Err TypeError
  end.

(** [v.get(k, default)] *)
Definition py_get (v : value) (k : string) (default : value) : outcome value :=
  match v with
  | VDict d => Ok (dict_get k default d)
  | _ => Err AttributeError
  end.

(** [v[k]] for a string [k] *)
Definition py_getitem (v : value) (k : string) : outcome value :=
  match v with
  | VDict d =>
      match dict_lookup k d with
      | Some x => Ok x
      | None => Err KeyError
      end
  | _ => Err TypeError
  end.

Definition chars (s : string) : list value :=
  map (fun c => VStr (String c EmptyString)) (list_ascii_of_string s).

(** [v[-1]] *)
Definition py_last (v : value) : outcome value :=
  match v with
  | VList l =>
      match rev l with
      | x :: _ => Ok x
      | [] => Err (EOther "IndexError")
      end
  | VStr s =>
      match rev (chars s) with
      | x :: _ => Ok x
      | [] => Err (EOther "IndexError")
      end
  | VDict _ => Err KeyError
  | _ => Err TypeError
  end.

(** [results.extend(v)]: [v] is iterated, a dict through its keys and a
    string through its characters. *)
Definition list_extend (results : list value) (v : value)
  : outcome (list value) :=
  match v with
  | VList l => Ok (results ++ l)
  | VStr s => Ok (results ++ chars s)
  | VDict d => Ok (results ++ map (fun kv => VStr (fst kv)) d)
  | _ => Err TypeError
  end.

(** ** config/settings.py *)

Definition API_RETRY_ATTEMPTS : Z := 3.
Definition API_RETRY_DELAY : Z := 2.
Definition DEFAULT_LIMIT : Z := 50.

(** ** The authenticated client *)

(** A method call on [self.spotify]: name, positional and keyword
    arguments. *)
Record request : Type := mkRequest {
  req_method : string;
  req_args : list value;
  req_kwargs : dict
}.

Section Exporters.

Variable int_of_str : string -> option Z.
Variable time_sleep : number -> option exn.

(** The state behind the client (the remote service, the network). *)
Variable C : Type.
(** [getattr(self.spotify, method)( *args, **kwargs )]; the list
    operations answer with a JSON object. *)
Variable api : string -> list value -> dict -> C -> outcome dict * C.

(** The client together with the log of the calls it has received. *)
Definition client : Type := (C * list request)%type.

Definition spotify_call (method : string) (args : list value)
           (kwargs : dict) (w : client) : outcome dict * client :=
  let (r, c) := api method args kwargs (fst w) in
  (r, (c, snd w ++ [mkRequest method args kwargs])).

Definition world : Type := (client * list event)%type.

(** *** exporters/base_exporter.py *)

(** Lines 76-77 and 86-87. *)
Definition collect_items (response : dict) (results : list value)
  : outcome (list value) :=
  if dict_mem "items" response
  then list_extend results (dict_get "items" VNone response)
  else Ok results.

(** Lines 81-85: [self.spotify.next(response)] through the executor,
    with the default backoff factor 2.0 and status list. *)
Definition fetch_next (response : dict) (w : world)
  : option (completion dict * world) :=
  retry_on_api_error int_of_str time_sleep (spotify_call "next" [VDict response] [])
                     API_RETRY_ATTEMPTS (NInt API_RETRY_DELAY)
                     default_backoff_factor None w.

(** Lines 80-89. *)
Fixpoint paginate_loop (fuel : nat) (response : dict)
         (results : list value) (w : world)
  : option (outcome (list value) * world) :=
  match fuel with
  | O => None
  | S fuel' =>
      if truthy (dict_get "next" VNone response) then
        match fetch_next response w with
        | None => None
        | Some (Raised e, w') => Some (Err e, w')
        | Some (Returned None, w') => Some (Err TypeError, w')
        | Some (Returned (Some response'), w') =>
            match collect_items response' results with
            | Err e => Some (Err e, w')
            | Ok results' => paginate_loop fuel' response' results' w'
            end
        end
      else Some (Ok results, w)
  end.

(** Lines 65-66. *)
Definition with_default_limit (kwargs : dict) : dict :=
  if dict_mem "limit" kwargs then kwargs
  else dict_set "limit" (VInt DEFAULT_LIMIT) kwargs.

(** [BaseExporter.paginate(method, *args, **kwargs)] *)
Definition paginate (fuel : nat) (method : string) (args : list value)
           (kwargs : dict) (w : world)
  : option (outcome (list value) * world) :=
  let kwargs := with_default_limit kwargs in
  match retry_on_api_error int_of_str time_sleep (spotify_call method args kwargs)
                           API_RETRY_ATTEMPTS (NInt API_RETRY_DELAY)
                     default_backoff_factor None w with
  | None => None
  | Some (Raised e, w') => Some (Err e, w')
  | Some (Returned None, w') => Some (Err TypeError, w')
  | Some (Returned (Some response), w') =>
      match collect_items response [] with
      | Err e => Some (Err e, w')
      | Ok results => paginate_loop fuel response results w'
      end
  end.

(** *** exporters/following_exporter.py *)

(** Lines 46-57 on one response: the extended accumulator and, when the
    walk goes on, the next [after] cursor. *)
Definition followed_page (response : dict) (artists : list value)
  : outcome (list value * option value) :=
  items <- py_get (dict_get "artists" (VDict []) response)
                  "items" (VList []) ;;
  artists <- list_extend artists items ;;
  next <- py_get (dict_get "artists" (VDict []) response) "next" VNone ;;
  if negb (truthy next) then Ok (artists, None)
  else if truthy items then
    last <- py_last items ;;
    after <- py_getitem last "id" ;;
    Ok (artists, Some after)
  else Ok (artists, None).

(** Lines 42-59. *)
Fixpoint followed_loop (fuel : nat) (artists : list value) (after : value)
         (w : client) : option (outcome (list value) * client) :=
  match fuel with
  | O => None
  | S fuel' =>
      let limit := 50 in
      let (r, w') :=
        spotify_call "current_user_followed_artists" []
                     [("limit", VInt limit); ("after", after)] w in
      match r with
      | Err e => Some (Err e, w')
      | Ok response =>
          match followed_page response artists with
          | Err e => Some (Err e, w')
          | Ok (artists', None) => Some (Ok artists', w')
          | Ok (artists', Some after') =>
              followed_loop fuel' artists' after' w'
          end
      end
  end.

(** [FollowingExporter.get_followed_artists()] *)
Definition get_followed_artists (fuel : nat) (w : client)
  : option (outcome (list value) * client) :=
  followed_loop fuel [] VNone w.

End Exporters.

(** ** utils/file_utils.py *)

Definition id_fields : list string := ["id"; "uri"; "href"].

(** Lines 153-159. *)
Fixpoint find_id_in_items (data_list : list value) : option string :=
  match data_list with
  | [] => None
  | item :: rest =>
      match item with
      | VDict d =>
          match find (fun field => dict_mem field d) id_fields with
          | Some field => Some field
          | None => find_id_in_items rest
          end
      | _ => find_id_in_items rest
      end
  end.

(** [_find_id_field(data_list)] *)
Definition _find_id_field (data_list : value) : option string :=
  match data_list with
  | VList l => if negb (truthy (VList l)) then None else find_id_in_items l
  | _ => None
  end.

Definition set_mem (v : value) (s : list value) : bool :=
  existsb (py_eqb v) s.

(** Line 114: the set comprehension over the existing items. *)
Fixpoint collect_ids (id_field : string) (items : list value)
  : outcome (list value) :=
  match items with
  | [] => Ok []
  | item :: rest =>
      present <- py_contains id_field item ;;
      if present then
        v <- py_get item id_field VNone ;;
        if hashable v then
          ids <- collect_ids id_field rest ;;
          Ok (v :: ids)
        else Err TypeError
      else collect_ids id_field rest
  end.

(** Lines 118-120: the loop over the new items. *)
Fixpoint append_new (id_field : string) (existing_ids : list value)
         (new_items : list value) (merged_data : list value)
  : outcome (list value) :=
  match new_items with
  | [] => Ok merged_data
  | item :: rest =>
      present <- py_contains id_field item ;;
      if negb present then
        append_new id_field existing_ids rest (merged_data ++ [item])
      else
        v <- py_getitem item id_field ;;
        if hashable v then
          if negb (set_mem v existing_ids)
          then append_new id_field existing_ids rest (merged_data ++ [item])
          else append_new id_field existing_ids rest merged_data
        else Err TypeError
  end.

(** Lines 98-103.  [now] is the value of [datetime.now().isoformat()]. *)
Definition merge_metadata (now : string) (existing_data new_data : dict)
  : outcome value :=
  if dict_mem "metadata" existing_data && dict_mem "metadata" new_data then
    match dict_get "metadata" VNone existing_data with
    | VDict merged_metadata =>
        update_date <-
          py_get (dict_get "metadata" VNone new_data) "export_date" (VStr now) ;;
        let merged_metadata :=
          dict_set "update_date" update_date merged_metadata in
        previous <-
          py_get (dict_get "metadata" VNone existing_data) "export_date" VNone ;;
        Ok (VDict (dict_set "previous_export_date" previous merged_metadata))
    | _ => Err TypeError
    end
  else Ok (dict_get "metadata" (VDict []) new_data).

(** Lines 106-128.  The test [if id_field:] is the test for [Some]: the
    three field names are non-empty strings. *)
Definition merge_data (existing_data new_data : dict) : outcome value :=
  if dict_mem "data" existing_data && dict_mem "data" new_data then
    match dict_get "data" VNone existing_data,
          dict_get "data" VNone new_data with
    | VList existing_items, VList new_items =>
        match _find_id_field (VList existing_items) with
        | Some id_field =>
            existing_ids <- collect_ids id_field existing_items ;;
            merged_data <-
              append_new id_field existing_ids new_items existing_items ;;
            Ok (VList merged_data)
        | None => Ok (VList (existing_items ++ new_items))
        end
    | _, new_items => Ok new_items
    end
  else Ok (dict_get "data" (VDict []) new_data).

(** [merge_json_data(existing_data, new_data)] *)
Definition merge_json_data (now : string) (existing_data new_data : dict)
  : outcome dict :=
  merged_metadata <- merge_metadata now existing_data new_data ;;
  merged_data <- merge_data existing_data new_data ;;
  Ok [("metadata", merged_metadata); ("data", merged_data)].

(** ** utils/file_utils.py over a store of mutable objects

    The same function once more, with the lists and dicts of Python as
    objects in a store: a variable or a slot of a container holds a scalar
    or a reference, [.copy()], [{**d}], [+] and the literals allocate, and
    item assignment and [append] update an object in place.  Sets are
    local to the function and stay lists of scalars. *)

Module Store.

Inductive sval : Type :=
| SNone
| SBool (b : bool)
| SInt (n : Z)
| SFloat (q : Q)
| SStr (s : string)
| SRef (l : nat).

Inductive object : Type :=
| OList (items : list sval)
| ODict (entries : list (string * sval)).

(** A reference is an index into the store; allocation extends it. *)
Definition store : Type := list object.

Definition load (l : nat) (h : store) : option object := nth_error h l.

Fixpoint update (l : nat) (o : object) (h : store) : store :=
  match h, l with
  | [], _ => []
  | _ :: h', O => o :: h'
  | o' :: h', S l' => o' :: update l' o h'
  end.

(** A computation on the store that ends with a value or an exception. *)
Definition M (A : Type) : Type := store -> outcome A * store.

Definition ret {A : Type} (a : A) : M A := fun h => (Ok a, h).

Definition mbind {A B : Type} (m : M A) (k : A -> M B) : M B :=
  fun h =>
    match m h with
    | (Ok a, h') => k a h'
    | (Err e, h') => (Err e, h')
    end.

Notation "x <~ m ;; k" := (mbind m (fun x => k))
  (at level 61, m at next level, right associativity).

(** A computation that only reads the store. *)
Definition reading {A : Type} (f : store -> outcome A) : M A :=
  fun h => (f h, h).

Definition new_object (o : object) : M nat :=
  fun h => (Ok (List.length h), h ++ [o]).

(** [d[k] = v] on the dict at [l] *)
Definition dict_assign (l : nat) (k : string) (v : sval) : M unit :=
  fun h =>
    match load l h with
    | Some (ODict d) => (Ok tt, update l (ODict (dict_set k v d)) h)
    | _ => (Err TypeError, h)
    end.

(** [lst.append(item)] on the list at [l] *)
Definition list_append (l : nat) (item : sval) : M unit :=
  fun h =>
    match load l h with
    | Some (OList items) => (Ok tt, update l (OList (items ++ [item])) h)
    | _ => (Err AttributeError, h)
    end.

Definition as_dict (h : store) (v : sval) : option (list (string * sval)) :=
  match v with
  | SRef l => match load l h with Some (ODict d) => Some d | _ => None end
  | _ => None
  end.

Definition as_list (h : store) (v : sval) : option (list sval) :=
  match v with
  | SRef l => match load l h with Some (OList items) => Some items | _ => None end
  | _ => None
  end.

(** A scalar as a value ([VNone] for a reference, which is no scalar). *)
Definition scalar (v : sval) : value :=
  match v with
  | SNone => VNone
  | SBool b => VBool b
  | SInt n => VInt n
  | SFloat q => VFloat q
  | SStr s => VStr s
  | SRef _ => VNone
  end.

(** [x == y] where one side is a scalar; a list or dict equals none. *)
Definition s_eqb (x y : sval) : bool :=
  match x, y with
  | SRef _, _ => false
  | _, SRef _ => false
  | _, _ => py_eqb (scalar x) (scalar y)
  end.

Definition s_hashable (v : sval) : bool :=
  match v with
  | SRef _ => false
  | _ => true
  end.

(** [k in item] *)
Definition contains (k : string) (item : sval) (h : store) : outcome bool :=
  match item with
  | SRef l =>
      match load l h with
      | Some (ODict d) => Ok (dict_mem k d)
      | Some (OList items) => Ok (existsb (s_eqb (SStr k)) items)
      | None => Err TypeError
      end
  | SStr s => Ok (is_substring k s)
  | _ => Err TypeError
  end.

(** [item.get(k, default)] *)
Definition get (item : sval) (k : string) (default : sval) (h : store)
  : outcome sval :=
  match as_dict h item with
  | Some d => Ok (dict_get k default d)
  | None => Err AttributeError
  end.

(** [item[k]] *)
Definition getitem (item : sval) (k : string) (h : store) : outcome sval :=
  match as_dict h item with
  | Some d =>
      match dict_lookup k d with
      | Some x => Ok x
      | None => Err KeyError
      end
  | None => Err TypeError
  end.

(** Lines 153-159. *)
Fixpoint find_id_in_items (h : store) (data_list : list sval)
  : option string :=
  match data_list with
  | [] => None
  | item :: rest =>
      match as_dict h item with
      | Some d =>
          match find (fun field => dict_mem field d) id_fields with
          | Some field => Some field
          | None => find_id_in_items h rest
          end
      | None => find_id_in_items h rest
      end
  end.

(** [_find_id_field(data_list)] *)
Definition _find_id_field (h : store) (data_list : sval) : option string :=
  match as_list h data_list with
  | Some [] => None
  | Some l => find_id_in_items h l
  | None => None
  end.

(** Line 114. *)
Fixpoint collect_ids (id_field : string) (items : list sval) (h : store)
  : outcome (list sval) :=
  match items with
  | [] => Ok []
  | item :: rest =>
      present <- contains id_field item h ;;
      if present then
        v <- get item id_field SNone h ;;
        if s_hashable v then
          ids <- collect_ids id_field rest h ;;
          Ok (v :: ids)
        else Err TypeError
      else collect_ids id_field rest h
  end.

(** Lines 118-120; [merged_data] is the list the loop appends to.  The
    list the loop runs over is another object and does not change. *)
Fixpoint append_new (id_field : string) (existing_ids : list sval)
         (new_items : list sval) (merged_data : nat) : M unit :=
  match new_items with
  | [] => ret tt
  | item :: rest =>
      present <~ reading (contains id_field item) ;;
      if negb present then
        _ <~ list_append merged_data item ;;
        append_new id_field existing_ids rest merged_data
      else
        v <~ reading (getitem item id_field) ;;
        if s_hashable v then
          if negb (existsb (s_eqb v) existing_ids) then
            _ <~ list_append merged_data item ;;
            append_new id_field existing_ids rest merged_data
          else append_new id_field existing_ids rest merged_data
        else fun h => (Err TypeError, h)
  end.

(** Lines 98-103, on the entries of the two records. *)
Definition merge_metadata (now : string)
           (existing_data new_data : list (string * sval)) : M sval :=
  if dict_mem "metadata" existing_data && dict_mem "metadata" new_data then
    entries <~ reading (fun h =>
                 match as_dict h (dict_get "metadata" SNone existing_data) with
                 | Some d => Ok d
                 | None => Err TypeError
                 end) ;;
    merged_metadata <~ new_object (ODict entries) ;;
    update_date <~
      reading (get (dict_get "metadata" SNone new_data)
                   "export_date" (SStr now)) ;;
    _ <~ dict_assign merged_metadata "update_date" update_date ;;
    previous <~
      reading (get (dict_get "metadata" SNone existing_data)
                   "export_date" SNone) ;;
    _ <~ dict_assign merged_metadata "previous_export_date" previous ;;
    ret (SRef merged_metadata)
  else
    default <~ new_object (ODict []) ;;
    ret (dict_get "metadata" (SRef default) new_data).

(** Lines 106-128. *)
Definition merge_data (existing_data new_data : list (string * sval))
  : M sval :=
  if dict_mem "data" existing_data && dict_mem "data" new_data then
    fun h =>
      match as_list h (dict_get "data" SNone existing_data),
            as_list h (dict_get "data" SNone new_data) with
      | Some existing_items, Some new_items =>
          match _find_id_field h (dict_get "data" SNone existing_data) with
          | Some id_field =>
              (existing_ids <~ reading (collect_ids id_field existing_items) ;;
               merged_data <~ new_object (OList existing_items) ;;
               _ <~ append_new id_field existing_ids new_items merged_data ;;
               ret (SRef merged_data)) h
          | None =>
              (merged_data <~ new_object (OList (existing_items ++ new_items)) ;;
               ret (SRef merged_data)) h
          end
      | _, _ => (Ok (dict_get "data" SNone new_data), h)
      end
  else
    default <~ new_object (ODict []) ;;
    ret (dict_get "data" (SRef default) new_data).

(** [merge_json_data(existing_data, new_data)], the arguments being
    references to the two records; the result is a reference to a new
    dict. *)
Definition merge_json_data (now : string) (existing_data new_data : nat)
  : M nat :=
  existing <~ reading (fun h =>
                match as_dict h (SRef existing_data) with
                | Some d => Ok d
                | None => Err TypeError
                end) ;;
  new <~ reading (fun h =>
           match as_dict h (SRef new_data) with
           | Some d => Ok d
           | None => Err TypeError
           end) ;;
  merged_metadata <~ merge_metadata now existing new ;;
  merged_data <~ merge_data existing new ;;
  new_object (ODict [("metadata", merged_metadata); ("data", merged_data)]).

(** [Some] of the results when [f] succeeds on every element. *)
Fixpoint all_some {A B : Type} (f : A -> option B) (l : list A)
  : option (list B) :=
  match l with
  | [] => Some []
  | a :: l' =>
      match f a, all_some f l' with
      | Some b, Some bs => Some (b :: bs)
      | _, _ => None
      end
  end.

Definition on_entry {A B : Type} (f : A -> option B) (kv : string * A)
  : option (string * B) :=
  match f (snd kv) with
  | Some b => Some (fst kv, b)
  | None => None
  end.

(** The value a scalar or reference stands for in the store [h], objects
    being followed to the depth [fuel]. *)
Fixpoint deref (fuel : nat) (h : store) (v : sval) : option value :=
  match v with
  | SNone => Some VNone
  | SBool b => Some (VBool b)
  | SInt n => Some (VInt n)
  | SFloat q => Some (VFloat q)
  | SStr s => Some (VStr s)
  | SRef l =>
      match fuel with
      | O => None
      | S fuel' =>
          match load l h with
          | Some (OList items) =>
              option_map VList (all_some (deref fuel' h) items)
          | Some (ODict entries) =>
              option_map VDict (all_some (on_entry (deref fuel' h)) entries)
          | None => None
          end
      end
  end.

(** The store [h'] has everything of [h] as it was. *)
Definition preserves (h h' : store) : Prop :=
  forall l, (l < List.length h)%nat -> load l h' = load l h.

End Store.

(** * The vocabulary of the properties *)

(** ** The retry executor *)

(** The outcomes of [n] successive invocations of a thunk from the state
    [s], and the state they leave. *)
Fixpoint thunk_run {St A : Type} (func : St -> outcome A * St) (n : nat)
         (s : St) : list (outcome A) * St :=
  match n with
  | O => ([], s)
  | S n' =>
      let (r, s1) := func s in
      let (rs, s2) := thunk_run func n' s1 in
      (r :: rs, s2)
  end.

Definition failure {A : Type} (e : SpotifyException) : outcome A :=
  Err (ESpotify e).

Definition statuses_of (retry_on_status : option (list Z)) : list Z :=
  match retry_on_status with
  | None => default_retry_on_status
  | Some l => l
  end.

(** The failure [e] has a status of the retryable set. *)
Definition retryable (retry_on_status : option (list Z))
           (e : SpotifyException) : bool :=
  status_in (http_status e) (statuses_of retry_on_status).

(** An error the executor does not retry: an API error with another
    status, or any other exception. *)
Definition fatal (retry_on_status : option (list Z)) (ex : exn) : bool :=
  match ex with
  | ESpotify e => negb (retryable retry_on_status e)
  | EOther _ => true
  end.

(** The rational a double stands for; the infinities and NaN stand for
    none. *)
Definition float_value (x : spec_float) : option Q :=
  match x with
  | S754_zero _ => Some 0%Q
  | S754_finite s m e =>
      Some (inject_Z (if s then Zneg m else Zpos m) * 2 ^ e)%Q
  | S754_infinity _ => None
  | S754_nan => None
  end.

Definition num_value (a : number) : option Q :=
  match a with
  | NInt n => Some (inject_Z n)
  | NFloat x => float_value x
  end.

(** The number [a] stands for the rational [q]. *)
Definition has_value (a : number) (q : Q) : Prop :=
  exists q', num_value a = Some q' /\ (q' == q)%Q.

(** The events of a run of retried failures, each followed by its
    delay. *)
Fixpoint retry_events (delays : list number) : list event :=
  match delays with
  | [] => []
  | d :: delays' => Invoke :: Sleep d :: retry_events delays'
  end.

Section Waits.

Variable int_of_str : string -> option Z.
Variable time_sleep : number -> option exn.
Variable backoff_factor : number.

(** The waits after the retried failures [es] go well, the first of them
    at the current delay [cur]: after each failure the delay is computed,
    [time.sleep] returns on it and the product for the next round is
    computed.  [waits cur es delays cur'] gives the delays slept and the
    current delay after the last wait. *)
Inductive waits :
  number -> list SpotifyException -> list number -> number -> Prop :=
| waits_none (cur : number) : waits cur [] [] cur
| waits_more (cur next cur' d : number) (e : SpotifyException)
             (es : list SpotifyException) (delays : list number) :
    retry_after_of int_of_str e cur = Ok d ->
    time_sleep d = None ->
    num_mul cur backoff_factor = Ok next ->
    waits next es delays cur' ->
    waits cur (e :: es) (d :: delays) cur'.

End Waits.

(** The current delay after [n] products, as the code computes it. *)
Fixpoint backoff (backoff_factor : number) (n : nat) (cur : number)
  : outcome number :=
  match n with
  | O => Ok cur
  | S n' =>
      match num_mul cur backoff_factor with
      | Ok next => backoff backoff_factor n' next
      | Err ex => Err ex
      end
  end.

(** The first [n] products of the delay arithmetic are exact: for every
    [i <= n] the current delay after [i] products is computed without an
    exception and stands for [dq * bq ^ i]. *)
Definition exact_products (delay backoff_factor : number) (dq bq : Q)
           (n : nat) : Prop :=
  forall i, (i <= n)%nat ->
            exists c, backoff backoff_factor i delay = Ok c
                      /\ has_value c (dq * bq ^ Z.of_nat i).



(** The server's hint: the value of the [Retry-After] header. *)
Definition retry_after_header (e : SpotifyException) : option value :=
  match headers e with
  | Some h => dict_lookup "Retry-After" h
  | None => None
  end.






(** ** Sample data for the examples *)

(** A reading of [int] on strings that accepts the non-empty strings of
    decimal digits, with a minus sign before them or without. *)
Definition digit_of (c : ascii) : option Z :=
  let n := Z.of_nat (nat_of_ascii c) in
  if (48 <=? n) && (n <=? 57) then Some (n - 48) else None.

Fixpoint digits_value (acc : Z) (s : string) : option Z :=
  match s with
  | EmptyString => Some acc
  | String c s' =>
      match digit_of c with
      | Some d => digits_value (10 * acc + d) s'
      | None => None
      end
  end.

Definition decimal_int (s : string) : option Z :=
  match s with
  | EmptyString => None
  | String "-" EmptyString => None
  | String "-" s' => option_map Z.opp (digits_value 0 s')
  | _ => digits_value 0 s
  end.

(** A [time.sleep] that raises [ValueError] on a negative length and on
    NaN, and [OverflowError] on an infinity and on a length of more than
    2^63 nanoseconds. *)
Definition sample_sleep (d : number) : option exn :=
  match num_value d with
  | Some q =>
      if Qle_bool 0 q then
        if Qle_bool q 9223372036 then None else Some OverflowError
      else Some ValueError
  | None =>
      match d with
      | NFloat S754_nan => Some ValueError
      | _ => Some OverflowError
      end
  end.

Definition one_point_fifteen : number :=
  NFloat (S754_finite false 5179139571476070 (-52)).
Definition four : number :=
  NFloat (S754_finite false 4503599627370496 (-50)).

(** Rate limiting without and with a [Retry-After] header, a server error
    and a client error. *)
Definition e429 : SpotifyException := mkSpotifyException 429 (Some []).
Definition e429_after (hint : string) : SpotifyException :=
  mkSpotifyException 429 (Some [("Retry-After", VStr hint)]).
Definition e503 : SpotifyException := mkSpotifyException 503 (Some []).
Definition e404 : SpotifyException := mkSpotifyException 404 (Some []).

(** A thunk that counts its invocations: it raises the [n]-th element of
    [failures] on invocation [n] while there is one, and returns [v] from
    then on. *)
Definition scripted {A : Type} (failures : list exn) (v : A) (n : nat)
  : outcome A * nat :=
  (match nth_error failures n with
   | Some ex => Err ex
   | None => Ok v
   end, S n).

(** ** How a thunk behaves under the executor *)

(** The thunk, started in [s], raises retryable API errors on its first
    [k] invocations and ends invocation [k+1] with [r] in the state [s']. *)
Definition fails_then {St A : Type} (func : St -> outcome A * St)
           (retry_on_status : option (list Z)) (s : St) (k : nat)
           (r : outcome A) (s' : St) : Prop :=
  exists es,
    List.length es = k
    /\ Forall (fun e => retryable retry_on_status e = true) es
    /\ thunk_run func (S k) s = (map failure es ++ [r], s').

(** (a) An invocation the executor gets to, number [k+1], raises an error
    that is not retried. *)
Definition fatal_at {St A : Type} (func : St -> outcome A * St)
           (retry_on_status : option (list Z)) (max_retries : Z) (s : St)
           (k : nat) (ex : exn) (s' : St) : Prop :=
  Z.of_nat k < max_retries
  /\ fatal retry_on_status ex = true
  /\ fails_then func retry_on_status s k (@Err A ex) s'.

(** (b) The first [max_retries] invocations all raise retryable API
    errors, the last of them [e]. *)
Definition exhausted_with {St A : Type} (func : St -> outcome A * St)
           (retry_on_status : option (list Z)) (max_retries : Z) (s : St)
           (e : SpotifyException) (s' : St) : Prop :=
  exists k,
    Z.of_nat (S k) = max_retries
    /\ retryable retry_on_status e = true
    /\ fails_then func retry_on_status s k (@failure A e) s'.

(** Invocation [k+1], one the executor gets to, returns [v]. *)
Definition succeeds_at {St A : Type} (func : St -> outcome A * St)
           (retry_on_status : option (list Z)) (max_retries : Z) (s : St)
           (k : nat) (v : A) (s' : St) : Prop :=
  Z.of_nat k < max_retries
  /\ fails_then func retry_on_status s k (Ok v) s'.

(** The outcome [r] of the invocation made after [k] retried failures
    ends the run: a value, an error that is not retried, or a retryable
    error on the last attempt. *)
Definition final {A : Type} (statuses : list Z) (max_retries k : Z)
           (r : outcome A) : Prop :=
  match r with
  | Ok _ => True
  | Err ex =>
      fatal (Some statuses) ex = true
      \/ exists e, ex = ESpotify e
                   /\ status_in (http_status e) statuses = true
                   /\ k + 1 = max_retries
  end.

(** Every wait the run gets to goes well: whenever the thunk raises
    retryable errors on its first invocations and the executor goes on
    to one more invocation, the waits after these errors go well
    ([time.sleep] returns on each delay, which it does not on a negative
    one, and the delay arithmetic raises nothing). *)
Definition waits_go_well {St A : Type} (int_of_str : string -> option Z)
           (time_sleep : number -> option exn)
           (func : St -> outcome A * St) (max_retries : Z)
           (delay backoff_factor : number)
           (retry_on_status : option (list Z)) (s : St) : Prop :=
  forall es (r : outcome A) s',
    Z.of_nat (List.length es) < max_retries ->
    Forall (fun e => retryable retry_on_status e = true) es ->
    thunk_run func (S (List.length es)) s = (map failure es ++ [r], s') ->
    exists delays cur',
      waits int_of_str time_sleep backoff_factor delay es delays cur'.

(** The executor, started in [(s, tr)], ends with [c] in the thunk state
    [s'] after [calls] invocations and a delay between any two of them;
    the last thing it does is an invocation. *)
Definition ends_with {St A : Type} (int_of_str : string -> option Z)
           (time_sleep : number -> option exn)
           (func : St -> outcome A * St) (max_retries : Z)
           (delay backoff_factor : number)
           (retry_on_status : option (list Z))
           (s : St) (tr : list event) (c : completion A) (s' : St)
           (calls : nat) : Prop :=
  exists tr',
    retry_on_api_error int_of_str time_sleep func max_retries delay
                       backoff_factor retry_on_status (s, tr)
    = Some (c, (s', tr ++ tr' ++ [Invoke]))
    /\ invocations (tr' ++ [Invoke]) = calls
    /\ S (List.length (sleeps tr')) = calls.

(** The executor propagates a failure. *)
Definition propagates {St A : Type} (int_of_str : string -> option Z)
           (time_sleep : number -> option exn)
           (func : St -> outcome A * St) (max_retries : Z)
           (delay backoff_factor : number)
           (retry_on_status : option (list Z))
           (s : St) (tr : list event) : Prop :=
  exists (ex : exn) (w : St * list event),
    retry_on_api_error int_of_str time_sleep func max_retries delay
                       backoff_factor retry_on_status (s, tr)
    = Some (@Raised A ex, w).

(** When the executor propagates a failure and what it returns otherwise:
    it ends on the fatal error of (a) right after the invocation that
    raised it, on the last error of (b) after [max_retries] invocations,
    it propagates a failure in these two cases only, and in every other
    case it returns the value of the first successful invocation. *)
Definition retry_outcome_law {St A : Type} (int_of_str : string -> option Z)
           (time_sleep : number -> option exn)
           (func : St -> outcome A * St) (max_retries : Z)
           (delay backoff_factor : number)
           (retry_on_status : option (list Z))
           (s : St) (tr : list event) : Prop :=
  (forall k ex s',
      fatal_at func retry_on_status max_retries s k ex s' ->
      ends_with int_of_str time_sleep func max_retries delay backoff_factor
                retry_on_status s tr (Raised ex) s' (S k))
  /\ (forall e s',
         exhausted_with func retry_on_status max_retries s e s' ->
         ends_with int_of_str time_sleep func max_retries delay
                   backoff_factor retry_on_status s tr
                   (Raised (ESpotify e)) s' (Z.to_nat max_retries))
  /\ (propagates (A := A) int_of_str time_sleep func max_retries delay
                 backoff_factor retry_on_status s tr
      <-> (exists k ex s',
              fatal_at func retry_on_status max_retries s k ex s')
          \/ (exists e s',
                 exhausted_with func retry_on_status max_retries s e s'))
  /\ (~ propagates (A := A) int_of_str time_sleep func max_retries delay
                   backoff_factor retry_on_status s tr ->
      exists k v s',
        succeeds_at func retry_on_status max_retries s k v s'
        /\ ends_with int_of_str time_sleep func max_retries delay
                     backoff_factor retry_on_status s tr
                     (Returned (Some v)) s' (S k)).

(** ** Pages and traversals *)

(** The [items] of an offset-mode page; a page without the key
    contributes nothing. *)
Definition page_items (p : dict) : list value :=
  match dict_lookup "items" p with
  | Some (VList l) => l
  | _ => []
  end.

(** The keyword arguments of the initial call, in the specification's
    words: those of the caller, with limit=50 added when the caller gave
    no limit. *)
Definition initial_kwargs (kwargs : dict) : dict :=
  if dict_mem "limit" kwargs then kwargs
  else kwargs ++ [("limit", VInt 50)].

(** The page carries a non-empty [next] continuation. *)
Definition has_next (p : dict) : bool :=
  truthy (dict_get "next" VNone p).

(** [items], when the page has the key, holds a list. *)
Definition items_listed (p : dict) : Prop :=
  forall v, dict_lookup "items" p = Some v -> exists l, v = VList l.

(** The page has an [items] key holding the empty list. *)
Definition empty_page (p : dict) : Prop :=
  dict_lookup "items" p = Some (VList []).

(** The [artists] object of a cursor-mode page and its parts. *)
Definition artists_of (p : dict) : value :=
  dict_get "artists" (VDict []) p.

Definition artists_items (p : dict) : list value :=
  match artists_of p with
  | VDict a =>
      match dict_get "items" (VList []) a with
      | VList l => l
      | _ => []
      end
  | _ => []
  end.

Definition artists_more (p : dict) : bool :=
  match artists_of p with
  | VDict a => truthy (dict_get "next" VNone a)
  | _ => false
  end.

(** [artists] is an object whose [items] is a list. *)
Definition artists_listed (p : dict) : Prop :=
  exists a l, artists_of p = VDict a /\ dict_get "items" (VList []) a = VList l.

(** The identifier of the last item of a list of records. *)
Definition last_id (items : list value) : option value :=
  match rev items with
  | VDict d :: _ => dict_lookup "id" d
  | _ => None
  end.

Definition followed_request (after : value) : request :=
  mkRequest "current_user_followed_artists" []
            [("limit", VInt 50); ("after", after)].

Section Traversals.

Variable int_of_str : string -> option Z.
Variable time_sleep : number -> option exn.
Variable C : Type.
Variable api : string -> list value -> dict -> C -> outcome dict * C.

(** Offset mode, in the specification's words: while the response carries
    a non-empty [next] continuation, the next page is fetched through the
    retry executor.  [next_pages w p ps w'] lists the pages [ps] fetched
    after [p], from the world [w] to the world [w']. *)
Inductive next_pages : world C -> dict -> list dict -> world C -> Prop :=
| next_pages_end (w : world C) (p : dict) :
    has_next p = false ->
    next_pages w p [] w
| next_pages_more (w w1 w' : world C) (p p1 : dict) (ps : list dict) :
    has_next p = true ->
    fetch_next int_of_str time_sleep api p w = Some (Returned (Some p1), w1) ->
    next_pages w1 p1 ps w' ->
    next_pages w p (p1 :: ps) w'.

(** Cursor mode, in the specification's words: fetch with [after]; stop
    when no items were returned or when the response signals no more
    pages; otherwise go on with [after] set to the identifier of the last
    item.  [cursor_walk after w calls w'] lists the calls made, each with
    its [after] argument and the page it was answered with. *)
Inductive cursor_walk :
  value -> client C -> list (value * dict) -> client C -> Prop :=
| cursor_walk_stop (after : value) (w w' : client C) (p : dict) :
    spotify_call api "current_user_followed_artists" []
                 [("limit", VInt 50); ("after", after)] w = (Ok p, w') ->
    artists_listed p ->
    artists_items p = [] \/ artists_more p = false ->
    cursor_walk after w [(after, p)] w'
| cursor_walk_more (after after' : value) (w w1 w' : client C) (p : dict)
                   (calls : list (value * dict)) :
    spotify_call api "current_user_followed_artists" []
                 [("limit", VInt 50); ("after", after)] w = (Ok p, w1) ->
    artists_listed p ->
    artists_more p = true ->
    last_id (artists_items p) = Some after' ->
    cursor_walk after' w1 calls w' ->
    cursor_walk after w ((after, p) :: calls) w'.

End Traversals.

(** Clients for the examples: the state counts the calls received, and
    call number [n] is answered with the [n]-th element of [answers]. *)
Definition scripted_api (answers : list (outcome dict)) (method : string)
           (args : list value) (kwargs : dict) (n : nat)
  : outcome dict * nat :=
  (nth n answers (Err (EOther "ConnectionError")), S n).

(** A page source that answers every call with an empty page and a
    continuation. *)
Definition endless_page : dict :=
  [("items", VList []); ("next", VStr "https://api.spotify.com/v1/me/tracks?offset=50")].

Definition endless_api (method : string) (args : list value) (kwargs : dict)
           (n : nat) : outcome dict * nat :=
  (Ok endless_page, S n).

(** Records and pages for the examples. *)
Definition record (id : string) : value := VDict [("id", VStr id)].

Definition page (items : list value) (next : value) : dict :=
  [("items", VList items); ("next", next)].

Definition artists_page (items : list value) (next : value) : dict :=
  [("artists", VDict [("items", VList items); ("next", next)])].

Definition next_url : value :=
  VStr "https://api.spotify.com/v1/me/tracks?offset=2".

(** ** Export Records and identifiers *)

(** What [BaseExporter.save_to_json] writes (lines 105-111): a [metadata]
    object with [export_date] and [export_type], and the [data]. *)
Definition export_record (r : dict) : Prop :=
  exists md,
    dict_lookup "metadata" r = Some (VDict md)
    /\ dict_mem "export_date" md = true
    /\ dict_mem "export_type" md = true
    /\ dict_mem "data" r = true.

(** The value of the field [f] of an item, when the item is a record that
    has the field. *)
Definition identifier (f : string) (item : value) : option value :=
  match item with
  | VDict d => dict_lookup f d
  | _ => None
  end.




(** No item is a record with one of the fields [id], [uri], [href]. *)
Definition no_identifier (items : list value) : Prop :=
  forall d g, In (VDict d) items -> In g id_fields -> dict_mem g d = false.

(** [f] is the first of [id], [uri], [href] present in the first item of
    the list that is a record with one of them. *)
Definition first_identifier (f : string) (items : list value) : Prop :=
  exists before d rest,
    items = before ++ VDict d :: rest
    /\ no_identifier before
    /\ find (fun g => dict_mem g d) id_fields = Some f.


Definition sample_metadata (date : string) : value :=
  VDict [("export_date", VStr date); ("export_type", VStr "LibraryExporter")].

Definition sample_record (date : string) (data : value) : dict :=
  [("metadata", sample_metadata date); ("data", data)].

Definition entry (id : Z) (v : string) : value :=
  VDict [("id", VInt id); ("v", VStr v)].

(** ** Records in the store *)

(** The reference [l] stands for the record [R] in the store [h]. *)
Definition denotes (h : Store.store) (l : nat) (R : dict) : Prop :=
  exists fuel, Store.deref fuel h (Store.SRef l) = Some (VDict R).

(** Two runs end alike: with the same exception, or with references to
    records that stand for the same value [R]. *)
Definition same_result (h1 h2 : Store.store) (r1 r2 : outcome nat)
           (expected : outcome dict) : Prop :=
  match r1, r2, expected with
  | Ok l1, Ok l2, Ok R => denotes h1 l1 R /\ denotes h2 l2 R
  | Err a, Err b, Err c => a = c /\ b = c
  | _, _, _ => False
  end.

(** A store with two Export Records, at the references 3 and 8. *)
Definition sample_store : Store.store :=
  [Store.ODict [("export_date", Store.SStr "2024-01-01");
                ("export_type", Store.SStr "LibraryExporter")];
   Store.ODict [("id", Store.SInt 1); ("v", Store.SStr "a")];
   Store.OList [Store.SRef 1];
   Store.ODict [("metadata", Store.SRef 0); ("data", Store.SRef 2)];
   Store.ODict [("export_date", Store.SStr "2024-02-01");
                ("export_type", Store.SStr "LibraryExporter")];
   Store.ODict [("id", Store.SInt 1); ("v", Store.SStr "b")];
   Store.ODict [("id", Store.SInt 2); ("v", Store.SStr "c")];
   Store.OList [Store.SRef 5; Store.SRef 6];
   Store.ODict [("metadata", Store.SRef 4); ("data", Store.SRef 7)]].

(** ** Further vocabulary: the executor *)

(** How the executor ends on the outcome of the last invocation. *)
Definition completion_of {A : Type} (r : outcome A) : completion A :=
  match r with
  | Ok v => Returned (Some v)
  | Err ex => Raised ex
  end.

(** Every API error among the outcomes comes without a [Retry-After]
    header. *)
Definition without_hints {A : Type} (rs : list (outcome A)) : Prop :=
  forall e, In (Err (ESpotify e)) rs -> retry_after_header e = None.

(** No element of the list is followed by a smaller one. *)
Fixpoint nondecreasing (l : list Z) : Prop :=
  match l with
  | [] => True
  | d :: l' => Forall (Z.le d) l' /\ nondecreasing l'
  end.

(** ** Further vocabulary: traversals that are cut short *)

Section Interrupted.

Variable int_of_str : string -> option Z.
Variable time_sleep : number -> option exn.
Variable C : Type.
Variable api : string -> list value -> dict -> C -> outcome dict * C.

(** The pages [ps] fetched one after the other from the page [p], the
    last of them (or [p] itself) being [p_last]; nothing is said about
    what follows [p_last]. *)
Inductive fetched_pages :
  world C -> dict -> list dict -> dict -> world C -> Prop :=
| fetched_pages_none (w : world C) (p : dict) :
    fetched_pages w p [] p w
| fetched_pages_more (w w1 w' : world C) (p p1 p_last : dict)
                     (ps : list dict) :
    has_next p = true ->
    fetch_next int_of_str time_sleep api p w = Some (Returned (Some p1), w1) ->
    fetched_pages w1 p1 ps p_last w' ->
    fetched_pages w p (p1 :: ps) p_last w'.

End Interrupted.

(** ** Further vocabulary: the merger *)

(** [kept] is made of elements of [l], in the order they have there. *)
Inductive subsequence {A : Type} : list A -> list A -> Prop :=
| subsequence_nil : subsequence [] []
| subsequence_skip (a : A) (kept l : list A) :
    subsequence kept l -> subsequence kept (a :: l)
| subsequence_take (a : A) (kept l : list A) :
    subsequence kept l -> subsequence (a :: kept) (a :: l).


(** The item is a record whose field [f] holds a list or a dict. *)
Definition unhashable_identifier (f : string) (item : value) : Prop :=
  exists v, identifier f item = Some v /\ hashable v = false.

Definition is_record (item : value) : Prop := exists d, item = VDict d.

(** ** Further vocabulary: sharing in the store *)

(** The slot [v] holds a scalar or a reference to a dict. *)
Definition holds_no_list (h : Store.store) (v : Store.sval) : Prop :=
  match v with
  | Store.SRef r => exists d, Store.load r h = Some (Store.ODict d)
  | _ => True
  end.

(** A store with two Export Records of a profile, at the references 2
    and 5. *)
Definition profile_store : Store.store :=
  [Store.ODict [("export_date", Store.SStr "2024-01-01");
                ("export_type", Store.SStr "ProfileExporter")];
   Store.ODict [("id", Store.SStr "me"); ("followers", Store.SInt 3)];
   Store.ODict [("metadata", Store.SRef 0); ("data", Store.SRef 1)];
   Store.ODict [("export_date", Store.SStr "2024-02-01");
                ("export_type", Store.SStr "ProfileExporter")];
   Store.ODict [("id", Store.SStr "me"); ("followers", Store.SInt 4)];
   Store.ODict [("metadata", Store.SRef 3); ("data", Store.SRef 4)]].

(** ** utils/api_utils.py: the decorator, and the exporters that use it *)

Section Decorated.

Variable int_of_str : string -> option Z.
Variable time_sleep : number -> option exn.
Variable C : Type.
Variable api : string -> list value -> dict -> C -> outcome dict * C.

(** Lines 53-90 around a thunk that acts on the whole world, so on the
    client and on the trace at once, as an exporter's method does that
    itself goes through the executor: what the thunk calls and how long
    it sleeps show in the world it leaves, and the executor adds its own
    sleeps to the same trace.  [None] is a thunk that does not return. *)
Fixpoint retry_loop_around {A : Type}
         (func : world C -> option (outcome A * world C))
         (max_retries : Z) (backoff_factor : number)
         (retry_on_status : list Z)
         (fuel : nat) (attempt : Z) (current_delay : number) (w : world C)
  : option (completion A * world C) :=
  match fuel with
  | O => None
  | S fuel' =>
      if attempt <? max_retries then
        match func w with
        | None => None
        | Some (Ok v, w') => Some (Returned (Some v), w')
        | Some (Err (ESpotify e), w') =>
            if status_in (http_status e) retry_on_status then
              let attempt := attempt + 1 in
              if attempt >=? max_retries then
                Some (Raised (ESpotify e), w')
              else
                let (slept, next) :=
                  wait_and_back_off int_of_str time_sleep backoff_factor
                                    e current_delay in
                let w' := (fst w', snd w' ++ slept) in
                match next with
                | Err ex => Some (Raised ex, w')
                | Ok current_delay =>
                    retry_loop_around func max_retries backoff_factor
                                      retry_on_status fuel' attempt
                                      current_delay w'
                end
            else
              Some (Raised (ESpotify e), w')
        | Some (Err e, w') => Some (Raised e, w')
        end
      else
        Some (Returned None, w)
  end.

(** [rate_limit_decorator(max_retries, delay)(func)( *args, **kwargs )],
    lines 93-113: the executor around the call, with the backoff factor
    and the status list left at their defaults. *)
Definition rate_limit_decorator {A : Type} (max_retries : Z)
           (delay : number)
           (func : world C -> option (outcome A * world C)) (w : world C)
  : option (completion A * world C) :=
  retry_loop_around func max_retries default_backoff_factor
                    default_retry_on_status
                    (S (Z.to_nat max_retries)) 0 delay w.

(** A call of the client as a thunk on the world: the invocation is an
    event of the trace. *)
Definition client_call (method : string) (args : list value) (kwargs : dict)
           (w : world C) : option (outcome dict * world C) :=
  let (r, c) := spotify_call api method args kwargs (fst w) in
  Some (r, (c, snd w ++ [Invoke])).

(** [ProfileExporter.get_user_profile()], decorated with
    [@rate_limit_decorator()]. *)
Definition get_user_profile (w : world C)
  : option (completion dict * world C) :=
  rate_limit_decorator 3 (NInt 2) (client_call "current_user" [] []) w.

(** [PlaylistExporter.get_playlist_tracks(playlist_id)], decorated with
    [@rate_limit_decorator()]: the paginator, itself built on the
    executor, under the executor once more. *)
Definition get_playlist_tracks (fuel : nat) (playlist_id : value)
           (w : world C) : option (completion (list value) * world C) :=
  rate_limit_decorator
    3 (NInt 2)
    (paginate int_of_str time_sleep api fuel "playlist_items" []
              [("playlist_id", playlist_id)])
    w.

End Decorated.

(** The request of one page of a playlist, as the paginator sends it. *)
Definition playlist_request (playlist_id : value) : request :=
  mkRequest "playlist_items" []
            [("playlist_id", playlist_id); ("limit", VInt 50)].

(** A service that is out of order: every call ends with the error [e]. *)
Definition failing_api (e : SpotifyException) (method : string)
           (args : list value) (kwargs : dict) (n : nat)
  : outcome dict * nat :=
  (Err (ESpotify e), S n).

(** ** exporters/base_exporter.py: the choice of the writer *)

(** [isinstance(v, (dict, list))] *)
Definition is_container (v : value) : bool :=
  match v with
  | VDict _ | VList _ => true
  | _ => false
  end.

(** [{**d, **entries}]: the entries are set one after the other. *)
Definition dict_update (d entries : dict) : dict :=
  fold_left (fun acc kv => dict_set (fst kv) (snd kv) acc) entries d.

(** Line 160, one element of the comprehension. *)
Definition csv_row (k : string) (v : value) : value :=
  match v with
  | VDict vd => VDict (dict_update [("key", VStr k)] vd)
  | _ => VDict [("key", VStr k); ("value", v)]
  end.

(** Lines 155-162: what becomes of the data before they go to
    [save_to_csv]. *)
Definition csv_rows (data : value) : value :=
  match data with
  | VDict d =>
      if forallb (fun kv => negb (is_container (snd kv))) d
      then VList [data]
      else VList (map (fun kv => csv_row (fst kv) (snd kv)) d)
  | _ => data
  end.

(** The writer [save_data] hands the data to, and what it hands over. *)
Inductive written : Type :=
| save_to_csv (data : value) (filename : string)
| save_to_json (data : value) (filename : string).

(** [BaseExporter.save_data(data, filename)], [export_format] being the
    attribute of the exporter. *)
Definition save_data (export_format : string) (data : value)
           (filename : string) : written :=
  if String.eqb export_format "csv"
  then save_to_csv (csv_rows data) filename
  else save_to_json data filename.

(** The keys of a mapping are pairwise different, as they are in every
    Python dict. *)
Definition unique_keys (d : dict) : Prop := NoDup (map fst d).

(** ** utils/file_utils.py: the directories of an export *)

Section Directories.

(** [pathlib.Path]: the path a string stands for, and [parent / key]. *)
Variable path : Type.
Variable Path : string -> path.
Variable joinpath : path -> string -> path.

(** The file system, and [path.mkdir(parents=True, exist_ok=True)] on
    it. *)
Variable F : Type.
Variable mkdir : path -> F -> outcome unit * F.

(** A value of the structure: a path, or a sub-structure. *)
Inductive structure : Type :=
| Leaf (p : path)
| Sub (entries : list (string * structure)).

(** The file system together with the directories asked for so far. *)
Definition disk : Type := (F * list path)%type.

(** [ensure_directory(directory)] *)
Definition ensure_directory (directory : path) (w : disk)
  : outcome path * disk :=
  let (r, f) := mkdir directory (fst w) in
  (match r with Ok _ => Ok directory | Err e => Err e end,
   (f, snd w ++ [directory])).

(** Lines 39-42: [parent / key] under a parent, [Path(key)] without one
    (a path object is always true, so [if parent:] is the test for a
    parent given). *)
Definition subdir_of (parent : option path) (key : string) : path :=
  match parent with
  | Some p => joinpath p key
  | None => Path key
  end.

(** Lines 35-46, the body of the loop on one entry; the inner [fix] is
    the recursive call [_create_dirs(value, subdir)]. *)
Fixpoint create_entry (parent : option path) (key : string)
         (value : structure) (w : disk) {struct value}
  : outcome unit * disk :=
  match value with
  | Sub sub =>
      let subdir := subdir_of parent key in
      match ensure_directory subdir w with
      | (Err e, w') => (Err e, w')
      | (Ok _, w') =>
          (fix _create_dirs (struct : list (string * structure)) (w : disk)
             : outcome unit * disk :=
             match struct with
             | [] => (Ok tt, w)
             | (k, v) :: rest =>
                 match create_entry (Some subdir) k v w with
                 | (Err e, w') => (Err e, w')
                 | (Ok _, w') => _create_dirs rest w'
                 end
             end) sub w'
      end
  | Leaf p =>
      match ensure_directory p w with
      | (Err e, w') => (Err e, w')
      | (Ok _, w') => (Ok tt, w')
      end
  end.

(** [_create_dirs(struct, parent)] *)
Fixpoint _create_dirs (parent : option path)
         (struct : list (string * structure)) (w : disk)
  : outcome unit * disk :=
  match struct with
  | [] => (Ok tt, w)
  | (k, v) :: rest =>
      match create_entry parent k v w with
      | (Err e, w') => (Err e, w')
      | (Ok _, w') => _create_dirs parent rest w'
      end
  end.

(** [create_export_structure(structure)] *)
Definition create_export_structure (structure : list (string * structure))
           (w : disk) : outcome unit * disk :=
  _create_dirs None structure w.

(** The path [p] is a leaf of the value. *)
Inductive has_leaf (p : path) : structure -> Prop :=
| has_leaf_here : has_leaf p (Leaf p)
| has_leaf_below (k : string) (v : structure)
                 (entries : list (string * structure)) :
    In (k, v) entries -> has_leaf p v -> has_leaf p (Sub entries).

(** Induction on a structure, with the property at hand for every value
    of a sub-structure. *)
Fixpoint structure_values_ind (P : structure -> Prop)
         (HL : forall p, P (Leaf p))
         (HS : forall entries,
             Forall (fun kv => P (snd kv)) entries -> P (Sub entries))
         (s : structure) {struct s} : P s :=
  match s with
  | Leaf p => HL p
  | Sub entries =>
      HS entries
         ((fix go (l : list (string * structure))
             : Forall (fun kv => P (snd kv)) l :=
             match l with
             | [] => Forall_nil _
             | kv :: l' =>
                 Forall_cons kv
                   (match kv as kv0 return P (snd kv0) with
                    | (k, v) => structure_values_ind P HL HS v
                    end)
                   (go l')
             end) entries)
  end.

(** What one entry asks for when it goes well: the log grows by the
    directories [requested], among them every leaf of the value and,
    for a sub-structure, its own directory. *)
Definition entry_requests (value : structure) : Prop :=
  forall parent key w w',
    create_entry parent key value w = (Ok tt, w') ->
    exists requested,
      snd w' = snd w ++ requested
      /\ (forall p, has_leaf p value -> In p requested)
      /\ (forall sub, value = Sub sub -> In (subdir_of parent key) requested).

(** config/settings.py, [EXPORT_STRUCTURE] for an [EXPORT_DIR]. *)
Definition EXPORT_STRUCTURE (EXPORT_DIR : path)
  : list (string * structure) :=
  [("profile", Leaf (joinpath EXPORT_DIR "profile"));
   ("playlists", Leaf (joinpath EXPORT_DIR "playlists"));
   ("library",
    Sub [("tracks", Leaf (joinpath (joinpath EXPORT_DIR "library") "tracks"));
         ("albums", Leaf (joinpath (joinpath EXPORT_DIR "library") "albums"))]);
   ("following", Leaf (joinpath EXPORT_DIR "following"));
   ("history",
    Sub [("recently_played",
          Leaf (joinpath (joinpath EXPORT_DIR "history") "recently_played"));
         ("top_tracks",
          Leaf (joinpath (joinpath EXPORT_DIR "history") "top_tracks"));
         ("top_artists",
          Leaf (joinpath (joinpath EXPORT_DIR "history") "top_artists"))])].

End Directories.

(** Paths as lists of names, from the working directory unless the first
    name is the root, and a file system on which every [mkdir] goes
    well. *)
Definition names_path (s : string) : list string := [s].
Definition names_join (p : list string) (s : string) : list string := p ++ [s].
Definition easy_mkdir (p : list string) (f : unit) : outcome unit * unit :=
  (Ok tt, f).

(** * Theorems *)

(** ** Traces *)

Lemma sleeps_app (tr1 tr2 : list event) :
  sleeps (tr1 ++ tr2) = sleeps tr1 ++ sleeps tr2.
Proof.
  induction tr1 as [|ev tr1 IH]; simpl; [reflexivity|].
  destruct ev; simpl; rewrite IH; reflexivity.
Qed.

Lemma invocations_app (tr1 tr2 : list event) :
  invocations (tr1 ++ tr2) = (invocations tr1 + invocations tr2)%nat.
Proof.
  unfold invocations. rewrite filter_app, length_app. reflexivity.
Qed.

Unset Implicit Arguments.

(** ** Numbers *)

Lemma Qtrunc_comp (p q : Q) : (p == q)%Q -> Qtrunc p = Qtrunc q.
Proof.
  intros H. unfold Qtrunc.
  rewrite (Qfloor_comp p q H), (Qceiling_comp p q H).
  replace (Qle_bool 0 p) with (Qle_bool 0 q); [reflexivity|].
  apply Qleb_comp; [reflexivity|symmetry; exact H].
Qed.

Lemma Qtrunc_inject_Z (z : Z) : Qtrunc (inject_Z z) = z.
Proof.
  unfold Qtrunc.
  destruct (Qle_bool 0 (inject_Z z)); [apply Qfloor_Z|apply Qceiling_Z].
Qed.


(** [int] of a ratio with a positive denominator. *)
Lemma Qtrunc_ratio (m p : positive) (s : bool) :
  Qtrunc ((if s then Zneg m else Zpos m) # p)
  = if s then - (Zpos m / Zpos p) else Zpos m / Zpos p.
Proof.
  destruct s; unfold Qtrunc.
  - replace (Qle_bool 0 (Z.neg m # p)) with false; [reflexivity|].
    symmetry. apply not_true_is_false. intros H.
    apply Qle_bool_iff in H. unfold Qle in H. simpl in H. lia.
  - replace (Qle_bool 0 (Z.pos m # p)) with true; [reflexivity|].
    symmetry. apply Qle_bool_iff. unfold Qle. simpl. lia.
Qed.

(** [int(x)] truncates the value of a finite double. *)
Lemma int_of_float_value (x : spec_float) (q : Q) :
  float_value x = Some q -> int_of_float x = Ok (Qtrunc q).
Proof.
  destruct x as [s|s| |s m e]; try discriminate; intros H; inversion H;
    subst q; clear H; cbn [int_of_float].
  - reflexivity.
  - f_equal. destruct e as [|k|k].
    + rewrite Z.shiftl_0_r.
      rewrite (Qtrunc_comp _ (inject_Z (if s then Z.neg m else Z.pos m)))
        by (simpl; ring).
      rewrite Qtrunc_inject_Z. destruct s; reflexivity.
    + rewrite Z.shiftl_mul_pow2 by lia.
      rewrite (Qtrunc_comp _ (inject_Z ((if s then Z.neg m else Z.pos m)
                                           * 2 ^ Z.pos k))).
      * rewrite Qtrunc_inject_Z. destruct s; [|reflexivity].
        change (Z.neg m) with (- Z.pos m). ring.
      * rewrite inject_Z_mult, Zpower_Qpower by lia. reflexivity.
    + change (Z.neg k) with (- Z.pos k). rewrite Z.shiftl_opp_r.
      rewrite Z.shiftr_div_pow2 by lia.
      assert (Hpos : 0 < 2 ^ Z.pos k) by (apply Z.pow_pos_nonneg; lia).
      destruct (2 ^ Z.pos k) as [|p|p] eqn:Hp; try lia.
      rewrite (Qtrunc_comp _ ((if s then Z.neg m else Z.pos m) # p)).
      * rewrite Qtrunc_ratio. reflexivity.
      * rewrite (Qmake_Qdiv _ p), <- Hp, Zpower_Qpower by lia.
        change (Z.neg k) with (- Z.pos k). rewrite Qpower_opp. reflexivity.
Qed.

Lemma int_of_number_value (a : number) (q : Q) :
  has_value a q -> int_of_number a = Ok (Qtrunc q).
Proof.
  intros (q' & Hq' & Heq). rewrite <- (Qtrunc_comp _ _ Heq).
  destruct a as [n|x]; cbn [int_of_number num_value] in *.
  - inversion Hq'. now rewrite Qtrunc_inject_Z.
  - now apply int_of_float_value.
Qed.

(** Lines 67-71 read by cases, for a current delay that stands for [q]. *)
Lemma retry_after_of_cases (int_of_str : string -> option Z)
      (e : SpotifyException) (cur : number) (q : Q) :
  has_value cur q ->
  retry_after_of int_of_str e cur
  = Ok match retry_after_header e with
       | Some v =>
           match py_int int_of_str v with
           | Some n => NInt n
           | None => cur
           end
       | None => NInt (Qtrunc q)
       end.
Proof.
  intros Hcur. unfold retry_after_of, retry_after_header.
  destruct (match headers e with
            | Some h => dict_lookup "Retry-After" h
            | None => None
            end) as [v|].
  - destruct (py_int int_of_str v); reflexivity.
  - now rewrite (int_of_number_value _ _ Hcur).
Qed.


Lemma has_value_comp (a : number) (p q : Q) :
  (p == q)%Q -> has_value a p -> has_value a q.
Proof.
  intros Hpq (q' & Hq' & Heq). exists q'. split; [exact Hq'|].
  now rewrite Heq.
Qed.

Lemma invocations_retry_events (delays : list number) :
  invocations (retry_events delays) = List.length delays.
Proof.
  induction delays as [|d delays IH]; [reflexivity|].
  cbn [retry_events]. unfold invocations in *. cbn. now rewrite IH.
Qed.

Lemma sleeps_retry_events (delays : list number) :
  sleeps (retry_events delays) = delays.
Proof.
  induction delays as [|d delays IH]; [reflexivity|].
  cbn [retry_events sleeps]. now rewrite IH.
Qed.

Lemma waits_length (int_of_str : string -> option Z)
      (time_sleep : number -> option exn) (bf cur cur' : number)
      (es : list SpotifyException) (delays : list number) :
  waits int_of_str time_sleep bf cur es delays cur' ->
  List.length delays = List.length es.
Proof.
  induction 1; simpl; congruence.
Qed.

Section RetryFacts.

Variable int_of_str : string -> option Z.
Variable time_sleep : number -> option exn.
Variables St A : Type.
Variable func : St -> outcome A * St.
Variable max_retries : Z.
Variable backoff_factor : number.
Variable statuses : list Z.

Let loop :=
  retry_loop int_of_str time_sleep func max_retries backoff_factor statuses.
Let wait := wait_and_back_off int_of_str time_sleep backoff_factor.

Lemma thunk_run_cons (n : nat) (s s' : St) (r : outcome A)
      (rs : list (outcome A)) :
  thunk_run func (S n) s = (r :: rs, s') ->
  exists s1, func s = (r, s1) /\ thunk_run func n s1 = (rs, s').
Proof.
  simpl. destruct (func s) as [r0 s1].
  destruct (thunk_run func n s1) as [rs0 s2] eqn:Hrun.
  intros H; inversion H; subst. exists s1. split; [reflexivity|exact Hrun].
Qed.

Lemma thunk_run_length (n : nat) (s : St) :
  List.length (fst (thunk_run func n s)) = n.
Proof.
  revert s; induction n as [|n IH]; intros s; simpl; [reflexivity|].
  destruct (func s) as [r s1]. specialize (IH s1).
  destruct (thunk_run func n s1) as [rs s2]. simpl in *. now rewrite IH.
Qed.

(** A wait that goes well, and what a wait can do otherwise. *)
Lemma wait_goes_well (e : SpotifyException) (cur d next : number) :
  retry_after_of int_of_str e cur = Ok d ->
  time_sleep d = None ->
  num_mul cur backoff_factor = Ok next ->
  wait e cur = ([Sleep d], Ok next).
Proof.
  intros Hd Hsleep Hmul. unfold wait, wait_and_back_off.
  now rewrite Hd, Hsleep, Hmul.
Qed.

Lemma wait_inversion (e : SpotifyException) (cur : number)
      (slept : list event) (next : outcome number) :
  wait e cur = (slept, next) ->
  (exists d,
      slept = [Sleep d]
      /\ retry_after_of int_of_str e cur = Ok d
      /\ time_sleep d = None
      /\ num_mul cur backoff_factor = next)
  \/ (slept = [] /\ exists ex, next = Err ex).
Proof.
  unfold wait, wait_and_back_off.
  destruct (retry_after_of int_of_str e cur) as [d|ex].
  - destruct (time_sleep d) as [ex|] eqn:Hsleep; intros H; inversion H; subst.
    + right. split; [reflexivity|]. now exists ex.
    + left. exists d. repeat split. exact Hsleep.
  - intros H; inversion H; subst. right. split; [reflexivity|]. now exists ex.
Qed.

(** A run of retried failures whose waits go well and that leaves
    attempts over takes the loop to the next invocation. *)
Lemma retry_loop_failures (es : list SpotifyException) :
  forall (fuel : nat) (attempt : Z) (cur cur' : number)
         (delays : list number) (s s' : St) (tr : list event)
         (rest : list (outcome A)),
    waits int_of_str time_sleep backoff_factor cur es delays cur' ->
    thunk_run func (List.length es + List.length rest) s
    = (map failure es ++ rest, s') ->
    Forall (fun e => status_in (http_status e) statuses = true) es ->
    attempt + Z.of_nat (List.length es) < max_retries ->
    exists s1,
      thunk_run func (List.length rest) s1 = (rest, s')
      /\ loop (List.length es + fuel)%nat attempt cur s tr
         = loop fuel (attempt + Z.of_nat (List.length es)) cur' s1
                (tr ++ retry_events delays).
Proof.
  induction es as [|e es IH];
    intros fuel attempt cur cur' delays s s' tr rest Hw Hrun Hall Hlt.
  - inversion Hw; subst. exists s. simpl in *.
    rewrite Z.add_0_r, app_nil_r. auto.
  - inversion Hw as [|? next ? d ? ? delays' Hd Hsleep Hmul Hw']; subst.
    simpl List.length in *. simpl Nat.add in Hrun.
    simpl map in Hrun. simpl app in Hrun.
    apply thunk_run_cons in Hrun. destruct Hrun as (s1 & Hf & Hrun).
    inversion Hall as [|? ? He Hall']; subst.
    destruct (IH fuel (attempt + 1) next cur' delays' s1 s'
                 ((tr ++ [Invoke]) ++ [Sleep d]) rest Hw' Hrun Hall')
      as (s2 & Hrest & Hloop); [lia|].
    exists s2. split; [exact Hrest|].
    unfold loop in *. simpl Nat.add. cbn [retry_loop].
    replace (attempt <? max_retries) with true by (symmetry; apply Z.ltb_lt; lia).
    rewrite Hf. unfold failure. rewrite He.
    replace (attempt + 1 >=? max_retries) with false
      by (symmetry; rewrite Z.geb_leb; apply Z.leb_gt; lia).
    fold wait. rewrite (wait_goes_well _ _ _ _ Hd Hsleep Hmul).
    rewrite Hloop. cbn [retry_events].
    rewrite <- !app_assoc. simpl.
    f_equal. lia.
Qed.

Lemma retry_loop_returns (fuel : nat) (attempt : Z) (cur : number)
      (s s' : St) (tr : list event) (v : A) :
  attempt < max_retries ->
  func s = (Ok v, s') ->
  loop (S fuel) attempt cur s tr = Some (Returned (Some v), (s', tr ++ [Invoke])).
Proof.
  intros Hlt Hf. unfold loop. cbn [retry_loop].
  replace (attempt <? max_retries) with true by (symmetry; apply Z.ltb_lt; lia).
  rewrite Hf. reflexivity.
Qed.

Lemma retry_loop_fatal (fuel : nat) (attempt : Z) (cur : number)
      (s s' : St) (tr : list event) (ex : exn) :
  attempt < max_retries ->
  func s = (Err ex, s') ->
  fatal (Some statuses) ex = true ->
  loop (S fuel) attempt cur s tr = Some (Raised ex, (s', tr ++ [Invoke])).
Proof.
  intros Hlt Hf Hfatal. unfold loop. cbn [retry_loop].
  replace (attempt <? max_retries) with true by (symmetry; apply Z.ltb_lt; lia).
  rewrite Hf. destruct ex as [e|name]; [|reflexivity].
  simpl in Hfatal. unfold retryable in Hfatal. simpl in Hfatal.
  apply negb_true_iff in Hfatal. rewrite Hfatal. reflexivity.
Qed.

Lemma retry_loop_exhausted (fuel : nat) (attempt : Z) (cur : number)
      (s s' : St) (tr : list event) (e : SpotifyException) :
  attempt + 1 = max_retries ->
  func s = (failure e, s') ->
  status_in (http_status e) statuses = true ->
  loop (S fuel) attempt cur s tr
  = Some (Raised (ESpotify e), (s', tr ++ [Invoke])).
Proof.
  intros Hlt Hf He. unfold loop. cbn [retry_loop].
  replace (attempt <? max_retries) with true by (symmetry; apply Z.ltb_lt; lia).
  rewrite Hf. unfold failure. rewrite He.
  replace (attempt + 1 >=? max_retries) with true
    by (symmetry; rewrite Z.geb_leb; apply Z.leb_le; lia).
  reflexivity.
Qed.

Lemma retry_loop_no_attempt (fuel : nat) (attempt : Z) (cur : number)
      (s : St) (tr : list event) :
  max_retries <= attempt ->
  loop (S fuel) attempt cur s tr = Some (Returned None, (s, tr)).
Proof.
  intros Hle. unfold loop. cbn [retry_loop].
  replace (attempt <? max_retries) with false
    by (symmetry; apply Z.ltb_ge; lia).
  reflexivity.
Qed.

(** How every run goes: retried failures [es] whose waits go well, then
    one more invocation; its outcome ends the run, or it is a retryable
    error that is not the last attempt and the wait after it raises. *)
Lemma retry_loop_shape (fuel : nat) :
  forall (attempt : Z) (cur : number) (s : St) (tr : list event),
    attempt < max_retries ->
    (Z.to_nat (max_retries - attempt) <= fuel)%nat ->
    exists (es : list SpotifyException) (delays : list number)
           (cur' : number) (r : outcome A) (s' : St),
      attempt + Z.of_nat (List.length es) < max_retries
      /\ Forall (fun e => status_in (http_status e) statuses = true) es
      /\ thunk_run func (S (List.length es)) s = (map failure es ++ [r], s')
      /\ waits int_of_str time_sleep backoff_factor cur es delays cur'
      /\ ((final statuses max_retries (attempt + Z.of_nat (List.length es)) r
           /\ loop fuel attempt cur s tr
              = Some (completion_of r,
                      (s', tr ++ retry_events delays ++ [Invoke])))
          \/ (exists e slept ex,
                 r = failure e
                 /\ status_in (http_status e) statuses = true
                 /\ attempt + Z.of_nat (List.length es) + 1 < max_retries
                 /\ wait e cur' = (slept, Err ex)
                 /\ loop fuel attempt cur s tr
                    = Some (Raised ex,
                            (s', tr ++ retry_events delays
                                    ++ [Invoke] ++ slept)))).
Proof.
  induction fuel as [|fuel IH]; intros attempt cur s tr Hlt Hfuel; [lia|].
  destruct (func s) as [r0 s1] eqn:Hf.
  assert (Hrun1 : thunk_run func 1 s = ([r0], s1))
    by (simpl; now rewrite Hf).
  assert (Hlt0 : attempt + Z.of_nat (@List.length SpotifyException []) < max_retries)
    by (simpl; lia).
  assert (Hstop :
            final statuses max_retries attempt r0 ->
            loop (S fuel) attempt cur s tr
            = Some (completion_of r0, (s1, tr ++ [Invoke])) ->
            exists (es : list SpotifyException) (delays : list number)
                   (cur' : number) (r : outcome A) (s' : St),
              attempt + Z.of_nat (List.length es) < max_retries
              /\ Forall (fun e => status_in (http_status e) statuses = true) es
              /\ thunk_run func (S (List.length es)) s
                 = (map failure es ++ [r], s')
              /\ waits int_of_str time_sleep backoff_factor cur es delays cur'
              /\ ((final statuses max_retries (attempt + Z.of_nat (List.length es)) r
                   /\ loop (S fuel) attempt cur s tr
                      = Some (completion_of r,
                              (s', tr ++ retry_events delays ++ [Invoke])))
                  \/ (exists e slept ex,
                         r = failure e
                         /\ status_in (http_status e) statuses = true
                         /\ attempt + Z.of_nat (List.length es) + 1
                            < max_retries
                         /\ wait e cur' = (slept, Err ex)
                         /\ loop (S fuel) attempt cur s tr
                            = Some (Raised ex,
                                    (s', tr ++ retry_events delays
                                            ++ [Invoke] ++ slept))))).
  { intros Hfinal Hloop. exists [], [], cur, r0, s1.
    split; [exact Hlt0|]. split; [constructor|]. split; [exact Hrun1|].
    split; [constructor|]. left. simpl. rewrite Z.add_0_r.
    split; [exact Hfinal|exact Hloop]. }
  destruct r0 as [v|[e|name]].
  - apply Hstop; [exact I|]. now apply retry_loop_returns.
  - destruct (status_in (http_status e) statuses) eqn:He.
    + destruct (Z_lt_le_dec (attempt + 1) max_retries) as [Hmore|Hlast].
      * destruct (wait e cur) as [slept next] eqn:Hwait.
        assert (Hstep :
                  loop (S fuel) attempt cur s tr
                  = match next with
                    | Ok next_delay =>
                        loop fuel (attempt + 1) next_delay s1
                             ((tr ++ [Invoke]) ++ slept)
                    | Err ex => Some (Raised ex, (s1, (tr ++ [Invoke]) ++ slept))
                    end).
        { unfold loop. cbn [retry_loop].
          replace (attempt <? max_retries) with true
            by (symmetry; apply Z.ltb_lt; lia).
          rewrite Hf, He.
          replace (attempt + 1 >=? max_retries) with false
            by (symmetry; rewrite Z.geb_leb; apply Z.leb_gt; lia).
          fold wait. rewrite Hwait. destruct next; reflexivity. }
        destruct next as [next|ex].
        -- destruct (wait_inversion _ _ _ _ Hwait)
             as [(d & -> & Hd & Hsleep & Hmul)|(_ & ex & Hex)];
             [|discriminate Hex].
           destruct (IH (attempt + 1) next s1 ((tr ++ [Invoke]) ++ [Sleep d]))
             as (es & delays & cur' & r & s' & Hlt' & Hall & Hrun & Hw & Hend);
             [lia|lia|].
           exists (e :: es), (d :: delays), cur', r, s'.
           split; [simpl List.length; lia|]. split; [now constructor|].
           split.
           { change (thunk_run func (S (List.length (e :: es))) s)
               with (let (r1, s2) := func s in
                     let (rs, s3) := thunk_run func (S (List.length es)) s2 in
                     (r1 :: rs, s3)).
             rewrite Hf, Hrun. reflexivity. }
           split; [econstructor; eassumption|].
           replace (attempt + Z.of_nat (List.length (e :: es)))
             with (attempt + 1 + Z.of_nat (List.length es))
             by (simpl List.length; lia).
           rewrite Hstep. cbn [retry_events].
           destruct Hend as [(Hfinal & Hloop)|(e' & slept & ex & -> & He' & Hlt'' & Hwait' & Hloop)].
           ++ left. split; [exact Hfinal|]. rewrite Hloop.
              rewrite <- !app_assoc. reflexivity.
           ++ right. exists e', slept, ex. split; [reflexivity|].
              split; [exact He'|]. split; [exact Hlt''|].
              split; [exact Hwait'|]. rewrite Hloop.
              rewrite <- !app_assoc. reflexivity.
        -- exists [], [], cur, (failure e), s1.
           split; [exact Hlt0|]. split; [constructor|]. split; [exact Hrun1|].
           split; [constructor|]. right. exists e, slept, ex.
           split; [reflexivity|]. split; [exact He|].
           split; [simpl; lia|]. split; [exact Hwait|].
           rewrite Hstep. simpl. now rewrite <- app_assoc.
      * apply Hstop.
        -- right. exists e. split; [reflexivity|]. split; [exact He|lia].
        -- apply retry_loop_exhausted; [lia|exact Hf|exact He].
    + apply Hstop.
      * left. simpl. unfold retryable. simpl. now rewrite He.
      * apply retry_loop_fatal; [exact Hlt|exact Hf|].
        simpl. unfold retryable. simpl. now rewrite He.
  - apply Hstop; [now left|]. now apply retry_loop_fatal.
Qed.

End RetryFacts.

(** ** Claims about the retry executor *)

(** Every run, at the level of the function. *)
Lemma retry_run_shape
      (int_of_str : string -> option Z) (time_sleep : number -> option exn)
      (St A : Type) (func : St -> outcome A * St) (max_retries : Z)
      (delay backoff_factor : number) (retry_on_status : option (list Z))
      (s : St) (tr : list event) :
  1 <= max_retries ->
  exists (es : list SpotifyException) (delays : list number)
         (cur' : number) (r : outcome A) (s' : St),
    Z.of_nat (List.length es) < max_retries
    /\ Forall (fun e => retryable retry_on_status e = true) es
    /\ thunk_run func (S (List.length es)) s = (map failure es ++ [r], s')
    /\ waits int_of_str time_sleep backoff_factor delay es delays cur'
    /\ ((final (statuses_of retry_on_status) max_retries
               (Z.of_nat (List.length es)) r
         /\ retry_on_api_error int_of_str time_sleep func max_retries delay
                               backoff_factor retry_on_status (s, tr)
            = Some (completion_of r,
                    (s', tr ++ retry_events delays ++ [Invoke])))
        \/ (exists e slept ex,
               r = failure e
               /\ retryable retry_on_status e = true
               /\ Z.of_nat (List.length es) + 1 < max_retries
               /\ wait_and_back_off int_of_str time_sleep backoff_factor
                                    e cur' = (slept, Err ex)
               /\ retry_on_api_error int_of_str time_sleep func max_retries
                                     delay backoff_factor retry_on_status
                                     (s, tr)
                  = Some (Raised ex,
                          (s', tr ++ retry_events delays
                                  ++ [Invoke] ++ slept)))).
Proof.
  intros Hmax. unfold retry_on_api_error. cbn [fst snd].
  fold (statuses_of retry_on_status).
  destruct (retry_loop_shape int_of_str time_sleep St A func max_retries
              backoff_factor (statuses_of retry_on_status)
              (S (Z.to_nat max_retries)) 0 delay s tr)
    as (es & delays & cur' & r & s' & Hlt & Hall & Hrun & Hw & Hend);
    [lia|lia|].
  exists es, delays, cur', r, s'.
  split; [lia|]. split; [exact Hall|]. split; [exact Hrun|].
  split; [exact Hw|]. exact Hend.
Qed.





(** The run of the example: 2 seconds after the first failure, the 7
    seconds of the header after the second. *)
Example retry_on_api_error_sample_run :
  retry_on_api_error decimal_int sample_sleep
    (scripted [ESpotify e429; ESpotify (e429_after "7")] 42)
    3 (NInt 2) default_backoff_factor None (0%nat, [])
  = Some (Returned (Some 42),
          (3%nat, [Invoke; Sleep (NInt 2); Invoke; Sleep (NInt 7); Invoke])).
Proof. reflexivity. Qed.

(** The delay arithmetic is that of doubles: 20 times 1.15 is 23.0, not
    the 22.99... of the reals, and the second delay is 23 seconds. *)
Example retry_on_api_error_rounds :
  num_mul (NInt 20) one_point_fifteen
  = Ok (NFloat (S754_finite false 6473924464345088 (-48)))
  /\ float_of_int 23 = Ok (S754_finite false 6473924464345088 (-48))
  /\ retry_on_api_error decimal_int sample_sleep
       (scripted [ESpotify e429; ESpotify e429] 42)
       3 (NInt 20) one_point_fifteen None (0%nat, [])
     = Some (Returned (Some 42),
             (3%nat, [Invoke; Sleep (NInt 20); Invoke; Sleep (NInt 23);
                      Invoke])).
Proof. repeat split. Qed.

(** A negative delay: [time.sleep] raises [ValueError] in the handler,
    and the function ends with it after one invocation, although the
    second one would succeed.  The same with a negative hint. *)
Example retry_on_api_error_negative_delay :
  retry_on_api_error decimal_int sample_sleep
    (scripted [ESpotify e429] 42) 3 (NInt (-1)) default_backoff_factor None
    (0%nat, [])
  = Some (Raised ValueError, (1%nat, [Invoke]))
  /\ retry_on_api_error decimal_int sample_sleep
       (scripted [ESpotify (e429_after "-5")] 42)
       3 (NInt 2) default_backoff_factor None (0%nat, [])
     = Some (Raised ValueError, (1%nat, [Invoke])).
Proof. split; reflexivity. Qed.


Section RetryOutcomes.

Variable int_of_str : string -> option Z.
Variable time_sleep : number -> option exn.
Variables St A : Type.
Variable func : St -> outcome A * St.
Variable max_retries : Z.
Variables delay backoff_factor : number.
Variable retry_on_status : option (list Z).

(** After [k < max_retries] retried failures whose waits went well the
    executor is about to make invocation [k+1]. *)
Lemma retry_reaches (es : list SpotifyException) (delays : list number)
      (cur' : number) (r : outcome A) (s s' : St) (tr : list event) :
  Z.of_nat (List.length es) < max_retries ->
  Forall (fun e => retryable retry_on_status e = true) es ->
  thunk_run func (S (List.length es)) s = (map failure es ++ [r], s') ->
  waits int_of_str time_sleep backoff_factor delay es delays cur' ->
  exists s1,
    func s1 = (r, s')
    /\ retry_on_api_error int_of_str time_sleep func max_retries delay
                          backoff_factor retry_on_status (s, tr)
       = retry_loop int_of_str time_sleep func max_retries backoff_factor
                    (statuses_of retry_on_status)
                    (S (Z.to_nat max_retries - List.length es))
                    (Z.of_nat (List.length es)) cur' s1
                    (tr ++ retry_events delays).
Proof.
  intros Hlt Hall Hrun Hw.
  replace (S (List.length es)) with (List.length es + List.length [r])%nat
    in Hrun by (simpl; lia).
  destruct (retry_loop_failures int_of_str time_sleep St A func max_retries
              backoff_factor (statuses_of retry_on_status) es
              (S (Z.to_nat max_retries - List.length es)) 0 delay cur'
              delays s s' tr [r] Hw Hrun Hall)
    as (s1 & Hlast & Hloop); [lia|].
  apply thunk_run_cons in Hlast. destruct Hlast as (s2 & Hf & Hnil).
  simpl in Hnil. inversion Hnil; subst s2.
  exists s1. split; [exact Hf|].
  unfold retry_on_api_error. cbn [fst snd].
  fold (statuses_of retry_on_status).
  replace (S (Z.to_nat max_retries))
    with (List.length es + S (Z.to_nat max_retries - List.length es))%nat
    by lia.
  exact Hloop.
Qed.

Lemma ends_with_intro (s s' : St) (tr : list event) (c : completion A)
      (delays : list number) :
  retry_on_api_error int_of_str time_sleep func max_retries delay
                     backoff_factor retry_on_status (s, tr)
  = Some (c, (s', (tr ++ retry_events delays) ++ [Invoke])) ->
  ends_with int_of_str time_sleep func max_retries delay backoff_factor
            retry_on_status s tr c s' (S (List.length delays)).
Proof.
  intros H. exists (retry_events delays).
  rewrite app_assoc. split; [exact H|]. split.
  - rewrite invocations_app, invocations_retry_events.
    change (invocations [Invoke]) with 1%nat. lia.
  - now rewrite sleeps_retry_events.
Qed.

Lemma fatal_at_ends (s s' : St) (tr : list event) (k : nat) (ex : exn) :
  waits_go_well int_of_str time_sleep func max_retries delay backoff_factor
                retry_on_status s ->
  fatal_at func retry_on_status max_retries s k ex s' ->
  ends_with int_of_str time_sleep func max_retries delay backoff_factor
            retry_on_status s tr (Raised ex) s' (S k).
Proof.
  intros Hwell (Hlt & Hfatal & es & Hlen & Hall & Hrun). subst k.
  destruct (Hwell es _ s' Hlt Hall Hrun) as (delays & cur' & Hw).
  destruct (retry_reaches es delays cur' _ s s' tr Hlt Hall Hrun Hw)
    as (s1 & Hf & Hloop).
  rewrite <- (waits_length _ _ _ _ _ _ _ Hw).
  apply ends_with_intro. rewrite Hloop.
  apply retry_loop_fatal; [lia|exact Hf|].
  destruct retry_on_status; exact Hfatal.
Qed.

Lemma succeeds_at_ends (s s' : St) (tr : list event) (k : nat) (v : A) :
  waits_go_well int_of_str time_sleep func max_retries delay backoff_factor
                retry_on_status s ->
  succeeds_at func retry_on_status max_retries s k v s' ->
  ends_with int_of_str time_sleep func max_retries delay backoff_factor
            retry_on_status s tr (Returned (Some v)) s' (S k).
Proof.
  intros Hwell (Hlt & es & Hlen & Hall & Hrun). subst k.
  destruct (Hwell es _ s' Hlt Hall Hrun) as (delays & cur' & Hw).
  destruct (retry_reaches es delays cur' _ s s' tr Hlt Hall Hrun Hw)
    as (s1 & Hf & Hloop).
  rewrite <- (waits_length _ _ _ _ _ _ _ Hw).
  apply ends_with_intro. rewrite Hloop.
  apply retry_loop_returns; [lia|exact Hf].
Qed.

Lemma exhausted_with_ends (s s' : St) (tr : list event)
      (e : SpotifyException) :
  waits_go_well int_of_str time_sleep func max_retries delay backoff_factor
                retry_on_status s ->
  exhausted_with func retry_on_status max_retries s e s' ->
  ends_with int_of_str time_sleep func max_retries delay backoff_factor
            retry_on_status s tr (Raised (ESpotify e)) s'
            (Z.to_nat max_retries).
Proof.
  intros Hwell (k & Hk & He & es & Hlen & Hall & Hrun). subst k.
  assert (Hlt : Z.of_nat (List.length es) < max_retries) by lia.
  destruct (Hwell es _ s' Hlt Hall Hrun) as (delays & cur' & Hw).
  destruct (retry_reaches es delays cur' (failure e) s s' tr Hlt Hall Hrun Hw)
    as (s1 & Hf & Hloop).
  replace (Z.to_nat max_retries) with (S (List.length delays))
    by (rewrite (waits_length _ _ _ _ _ _ _ Hw); lia).
  apply ends_with_intro. rewrite Hloop.
  apply retry_loop_exhausted; [lia|exact Hf|exact He].
Qed.

(** Any thunk does one of three things within [n] invocations. *)
Lemma thunk_classify (n : nat) :
  forall s : St,
    (exists k r s',
        (k < n)%nat
        /\ match r with Ok _ => True | Err ex => fatal retry_on_status ex = true end
        /\ fails_then func retry_on_status s k r s')
    \/ (exists es s',
           List.length es = n
           /\ Forall (fun e => retryable retry_on_status e = true) es
           /\ thunk_run func n s = (map failure es, s')).
Proof.
  induction n as [|n IH]; intros s.
  - right. exists [], s. repeat split. constructor.
  - destruct (func s) as [r s1] eqn:Hf.
    assert (Hstop :
              match r with Ok _ => True | Err ex => fatal retry_on_status ex = true end ->
              exists k r0 s',
                (k < S n)%nat
                /\ match r0 with Ok _ => True | Err ex => fatal retry_on_status ex = true end
                /\ fails_then func retry_on_status s k r0 s').
    { intros Hr. exists 0%nat, r, s1. split; [lia|]. split; [exact Hr|].
      exists []. repeat split; [constructor|]. simpl. now rewrite Hf. }
    destruct r as [v|[e|name]]; try (left; apply Hstop; exact I || reflexivity).
    destruct (retryable retry_on_status e) eqn:He.
    + destruct (IH s1) as [(k & r & s' & Hk & Hr & es & Hlen & Hall & Hrun)
                          |(es & s' & Hlen & Hall & Hrun)].
      * left. exists (S k), r, s'. split; [lia|]. split; [exact Hr|].
        exists (e :: es). split; [simpl; lia|]. split; [constructor; assumption|].
        change (thunk_run func (S (S k)) s)
          with (let (r1, s2) := func s in
                let (rs, s3) := thunk_run func (S k) s2 in (r1 :: rs, s3)).
        rewrite Hf, Hrun. reflexivity.
      * right. exists (e :: es), s'. split; [simpl; lia|].
        split; [constructor; assumption|].
        simpl. rewrite Hf, Hrun. reflexivity.
    + left. apply Hstop. simpl. now rewrite He.
Qed.

Lemma retry_trichotomy (s : St) :
  1 <= max_retries ->
  (exists k ex s', fatal_at func retry_on_status max_retries s k ex s')
  \/ (exists e s', exhausted_with func retry_on_status max_retries s e s')
  \/ (exists k v s', succeeds_at func retry_on_status max_retries s k v s').
Proof.
  intros Hmax.
  destruct (thunk_classify (Z.to_nat max_retries) s)
    as [(k & r & s' & Hk & Hr & Hfails)|(es & s' & Hlen & Hall & Hrun)].
  - destruct r as [v|ex].
    + right; right. exists k, v, s'. split; [lia|exact Hfails].
    + left. exists k, ex, s'. split; [lia|]. split; assumption.
  - right; left.
    destruct (exists_last (l := es)) as (es' & e & Hes).
    { intros ->. simpl in Hlen. lia. }
    subst es. rewrite length_app in Hlen. simpl in Hlen.
    apply Forall_app in Hall. destruct Hall as [Hall He].
    inversion He as [|? ? He' _]; subst.
    exists e, s', (List.length es'). split; [lia|]. split; [exact He'|].
    exists es'. split; [reflexivity|]. split; [exact Hall|].
    replace (S (List.length es')) with (Z.to_nat max_retries) by lia.
    rewrite Hrun, map_app. reflexivity.
Qed.

End RetryOutcomes.

Lemma ends_with_raised_propagates (int_of_str : string -> option Z)
      (time_sleep : number -> option exn)
      (St A : Type) (func : St -> outcome A * St) (max_retries : Z)
      (delay backoff_factor : number) (retry_on_status : option (list Z))
      (s s' : St) (tr : list event) (ex : exn) (calls : nat) :
  ends_with int_of_str time_sleep func max_retries delay backoff_factor
            retry_on_status s tr (Raised ex) s' calls ->
  propagates (A := A) int_of_str time_sleep func max_retries delay
             backoff_factor retry_on_status s tr.
Proof.
  intros (tr' & H & _). exists ex. eexists. exact H.
Qed.

(** C2, as the code has it: for max_retries >= 1 and a run in which
    every wait goes well ([time.sleep] returns on each delay, which it
    does not on a negative one, and the delay arithmetic raises
    nothing).  [retry_on_api_error] propagates a failure exactly when
    (a) an invocation raises an API error with a status outside the
    retryable set or another exception, and then it does so right after
    that invocation, with no delay after it, or (b) the first
    max_retries invocations all raise retryable API errors, and then it
    re-raises the last of them after exactly max_retries invocations; in
    every other case it returns the value of the first successful
    invocation. *)
Theorem retry_propagates_iff_fatal_or_exhausted
        (int_of_str : string -> option Z) (time_sleep : number -> option exn)
        (St A : Type)
        (func : St -> outcome A * St) (max_retries : Z)
        (delay backoff_factor : number) (retry_on_status : option (list Z))
        (s : St) (tr : list event) :
  1 <= max_retries ->
  waits_go_well int_of_str time_sleep func max_retries delay backoff_factor
                retry_on_status s ->
  retry_outcome_law int_of_str time_sleep func max_retries delay
                    backoff_factor retry_on_status s tr.
Proof.
  intros Hmax Hwell.
  pose proof (retry_trichotomy St A func max_retries retry_on_status s Hmax)
    as Hcases.
  repeat split.
  - intros k ex s'. now apply fatal_at_ends.
  - intros e s'. now apply exhausted_with_ends.
  - intros (ex & w & Hraised).
    destruct Hcases as [Ha|[Hb|(k & v & s' & Hc)]]; [left; exact Ha|right; exact Hb|].
    apply (succeeds_at_ends int_of_str time_sleep St A func max_retries delay
                            backoff_factor retry_on_status s s' tr k v Hwell)
      in Hc.
    destruct Hc as (tr' & Hret & _). rewrite Hret in Hraised. discriminate.
  - intros [(k & ex & s' & Ha)|(e & s' & Hb)].
    + eapply ends_with_raised_propagates, fatal_at_ends; [exact Hwell|exact Ha].
    + eapply ends_with_raised_propagates, exhausted_with_ends;
        [exact Hwell|exact Hb].
  - intros Hnot.
    destruct Hcases as [(k & ex & s' & Ha)|[(e & s' & Hb)|(k & v & s' & Hc)]].
    + exfalso. apply Hnot.
      eapply ends_with_raised_propagates, fatal_at_ends; [exact Hwell|exact Ha].
    + exfalso. apply Hnot.
      eapply ends_with_raised_propagates, exhausted_with_ends;
        [exact Hwell|exact Hb].
    + exists k, v, s'. split; [exact Hc|]. now apply succeeds_at_ends.
Qed.

Lemma retry_propagates_iff_fatal_or_exhausted_witness :
  1 <= 3
  /\ waits_go_well decimal_int sample_sleep
                   (scripted (A := Z) [ESpotify e503; ESpotify e404] 42)
                   3 (NInt 2) default_backoff_factor None 0%nat
  /\ retry_outcome_law decimal_int sample_sleep
       (scripted [ESpotify e503; ESpotify e404] 42)
       3 (NInt 2) default_backoff_factor None 0%nat [].
Proof.
  assert (H : 1 <= 3) by lia.
  assert (Hwell : waits_go_well decimal_int sample_sleep
                    (scripted (A := Z) [ESpotify e503; ESpotify e404] 42)
                    3 (NInt 2) default_backoff_factor None 0%nat).
  { intros es r s' Hlt Hall Hrun.
    destruct es as [|e0 [|e1 es]].
    - eexists; eexists. constructor.
    - cbn in Hrun. inversion Hrun; subst.
      eexists; eexists.
      econstructor; [reflexivity|reflexivity|reflexivity|constructor].
    - exfalso.
      inversion Hall as [|? ? _ Hall1]; subst.
      inversion Hall1 as [|? ? He1 _]; subst.
      destruct es as [|e2 es].
      + cbn in Hrun. inversion Hrun; subst. discriminate He1.
      + simpl in Hlt. lia. }
  split; [exact H|]. split; [exact Hwell|].
  exact (retry_propagates_iff_fatal_or_exhausted
           decimal_int sample_sleep nat Z
           (scripted [ESpotify e503; ESpotify e404] 42)
           3 (NInt 2) default_backoff_factor None 0%nat [] H Hwell).
Defined.

(** C2 as it is worded fails twice.  With max_retries = 0 nothing is
    propagated, and the value of the first successful invocation is not
    returned either.  And with delay -1 and a thunk that raises one 429
    and then succeeds, [time.sleep] raises [ValueError] in the handler:
    a failure is propagated although neither (a) nor (b) holds. *)
Lemma retry_zero_attempts_counterexample :
  (retry_on_api_error decimal_int sample_sleep (scripted [] 42)
                      0 (NInt 2) default_backoff_factor None (0%nat, [])
   = Some (Returned None, (0%nat, []))
   /\ ~ retry_outcome_law decimal_int sample_sleep (scripted [] 42)
         0 (NInt 2) default_backoff_factor None 0%nat [])
  /\
  (retry_on_api_error decimal_int sample_sleep (scripted [ESpotify e429] 42)
                      3 (NInt (-1)) default_backoff_factor None (0%nat, [])
   = Some (Raised ValueError, (1%nat, [Invoke]))
   /\ ~ (exists k ex s',
            fatal_at (scripted (A := Z) [ESpotify e429] 42) None 3 0%nat
                     k ex s')
   /\ ~ (exists e s',
            exhausted_with (scripted (A := Z) [ESpotify e429] 42) None 3
                           0%nat e s')
   /\ ~ retry_outcome_law decimal_int sample_sleep
         (scripted [ESpotify e429] 42)
         3 (NInt (-1)) default_backoff_factor None 0%nat []).
Proof.
  split.
  - split; [reflexivity|].
    intros (_ & _ & _ & H).
    destruct H as (k & v & s' & (Hlt & _) & _); [|lia].
    intros (ex & w & Hraised). vm_compute in Hraised. discriminate.
  - assert (Hrun : retry_on_api_error decimal_int sample_sleep
                     (scripted [ESpotify e429] 42)
                     3 (NInt (-1)) default_backoff_factor None (0%nat, [])
                   = Some (Raised ValueError, (1%nat, [Invoke])))
      by reflexivity.
    assert (Ha : ~ (exists k ex s',
                       fatal_at (scripted (A := Z) [ESpotify e429] 42) None 3
                                0%nat k ex s')).
    { intros (k & ex & s' & Hlt & Hfatal & es & Hlen & Hall & Hrun').
      subst k. destruct es as [|e0 [|e1 [|e2 es]]].
      - cbn in Hrun'. inversion Hrun'; subst. discriminate Hfatal.
      - cbn in Hrun'. inversion Hrun'.
      - cbn in Hrun'. inversion Hrun'.
      - simpl in Hlt. lia. }
    assert (Hb : ~ (exists e s',
                       exhausted_with (scripted (A := Z) [ESpotify e429] 42)
                                      None 3 0%nat e s')).
    { intros (e & s' & k & Hk & He & es & Hlen & Hall & Hrun').
      subst k. destruct es as [|e0 [|e1 [|e2 es]]]; simpl in Hk; try lia.
      cbn in Hrun'. inversion Hrun'. }
    split; [exact Hrun|]. split; [exact Ha|]. split; [exact Hb|].
    intros (_ & _ & (Hiff & _) & _).
    destruct Hiff as [Hfatal|Hexhausted].
    + exists ValueError. eexists. exact Hrun.
    + exact (Ha Hfatal).
    + exact (Hb Hexhausted).
Qed.

(** The fuel given to the loop is never used up: the executor always
    returns or raises. *)
Lemma retry_on_api_error_total
      (int_of_str : string -> option Z) (time_sleep : number -> option exn)
      (St A : Type)
      (func : St -> outcome A * St) (max_retries : Z)
      (delay backoff_factor : number) (retry_on_status : option (list Z))
      (s : St) (tr : list event) :
  exists (c : completion A) (w : St * list event),
    retry_on_api_error int_of_str time_sleep func max_retries delay
                       backoff_factor retry_on_status (s, tr)
    = Some (c, w).
Proof.
  destruct (Z_lt_le_dec max_retries 1) as [Hle|Hmax].
  - exists (Returned None), (s, tr).
    unfold retry_on_api_error. cbn [fst snd].
    apply retry_loop_no_attempt. lia.
  - destruct (retry_run_shape int_of_str time_sleep St A func max_retries
                delay backoff_factor retry_on_status s tr Hmax)
      as (es & delays & cur' & r & s' & _ & _ & _ & _ & Hend).
    destruct Hend as [(_ & H)|(e & slept & ex & _ & _ & _ & _ & H)];
      eexists; eexists; exact H.
Qed.

(** C10: with max_retries <= 0 [retry_on_api_error] returns [None]; the
    thunk is not invoked, nothing is slept and no error is raised. *)
Theorem retry_without_attempts_returns_none
        (int_of_str : string -> option Z) (time_sleep : number -> option exn)
        (St A : Type)
        (func : St -> outcome A * St) (max_retries : Z)
        (delay backoff_factor : number) (retry_on_status : option (list Z))
        (s : St) (tr : list event) :
  max_retries <= 0 ->
  retry_on_api_error int_of_str time_sleep func max_retries delay
                     backoff_factor retry_on_status (s, tr)
  = Some (Returned None, (s, tr)).
Proof.
  intros Hle. unfold retry_on_api_error. cbn [fst snd].
  apply retry_loop_no_attempt. lia.
Qed.

Lemma retry_without_attempts_returns_none_witness :
  -1 <= 0
  /\ retry_on_api_error decimal_int sample_sleep
                        (scripted [ESpotify e404] 42)
                        (-1) (NInt 2) default_backoff_factor None (0%nat, [])
     = Some (Returned None, (0%nat, [])).
Proof.
  assert (H : -1 <= 0) by lia.
  split; [exact H|].
  exact (retry_without_attempts_returns_none
           decimal_int sample_sleep nat Z (scripted [ESpotify e404] 42)
           (-1) (NInt 2) default_backoff_factor None 0%nat [] H).
Defined.

Set Implicit Arguments.

(** ** Dictionaries *)

Lemma dict_mem_lookup {V : Type} (k : string) (d : list (string * V)) :
  dict_mem k d = match dict_lookup k d with Some _ => true | None => false end.
Proof.
  induction d as [|[k' v] d IH]; simpl; [reflexivity|].
  destruct (String.eqb k k'); [reflexivity|exact IH].
Qed.

Lemma dict_lookup_set {V : Type} (k : string) (v : V)
      (d : list (string * V)) :
  dict_lookup k (dict_set k v d) = Some v.
Proof.
  induction d as [|[k' v'] d IH]; simpl.
  - now rewrite String.eqb_refl.
  - destruct (String.eqb k k') eqn:E; simpl.
    + now rewrite String.eqb_refl.
    + now rewrite E.
Qed.

(** ** Offset mode *)

Lemma collect_items_listed (p : dict) (results : list value) :
  items_listed p ->
  collect_items p results = Ok (results ++ page_items p).
Proof.
  intros Hp. unfold collect_items, page_items, dict_get.
  rewrite dict_mem_lookup.
  destruct (dict_lookup "items" p) as [v|] eqn:E.
  - destruct (Hp v E) as (l & ->). reflexivity.
  - now rewrite app_nil_r.
Qed.

Lemma dict_set_absent {V : Type} (k : string) (v : V)
      (d : list (string * V)) :
  dict_mem k d = false -> dict_set k v d = d ++ [(k, v)].
Proof.
  induction d as [|[k' v'] d IH]; simpl; [reflexivity|].
  destruct (String.eqb k k'); [discriminate|].
  intros H. now rewrite IH.
Qed.

(** The initial call of [paginate] carries the caller's keyword
    arguments, and limit=50 after them when the caller gave no limit. *)
Lemma with_default_limit_initial (kwargs : dict) :
  with_default_limit kwargs = initial_kwargs kwargs.
Proof.
  unfold with_default_limit, initial_kwargs, DEFAULT_LIMIT.
  destruct (dict_mem "limit" kwargs) eqn:E; [reflexivity|].
  now apply dict_set_absent.
Qed.

Section OffsetMode.

Variable int_of_str : string -> option Z.
Variable time_sleep : number -> option exn.
Variable C : Type.
Variable api : string -> list value -> dict -> C -> outcome dict * C.

(** Every invocation of a client call by the executor is one more entry,
    the same one, in the client's log. *)
Lemma retry_loop_call_log (method : string) (args : list value)
      (kwargs : dict) (max_retries : Z) (bf : number) (statuses : list Z) :
  forall (fuel : nat) (attempt : Z) (cur : number) (c c' : client C)
         (tr tr' : list event) (r : completion dict),
    retry_loop int_of_str time_sleep (spotify_call api method args kwargs)
               max_retries bf statuses fuel attempt cur c tr
    = Some (r, (c', tr')) ->
    exists n,
      snd c' = snd c ++ repeat (mkRequest method args kwargs) n
      /\ (r <> Returned None -> (1 <= n)%nat).
Proof.
  induction fuel as [|fuel IH]; intros attempt cur c c' tr tr' r H;
    [discriminate|].
  cbn [retry_loop] in H.
  destruct (attempt <? max_retries).
  - destruct (spotify_call api method args kwargs c) as [r0 c1] eqn:Hcall.
    assert (Hlog : snd c1 = snd c ++ [mkRequest method args kwargs]).
    { unfold spotify_call in Hcall.
      destruct (api method args kwargs (fst c)); inversion Hcall; reflexivity. }
    assert (Hone : forall (r1 : completion dict) (tr1 : list event) w1,
               Some (r1, (c1, tr1)) = Some (r, w1) ->
               w1 = (c', tr') ->
               exists n,
                 snd c' = snd c ++ repeat (mkRequest method args kwargs) n
                 /\ (r <> Returned None -> (1 <= n)%nat)).
    { intros r1 tr1 w1 E1 E2. subst w1. inversion E1; subst.
      exists 1%nat. split; [exact Hlog|]. intros _. lia. }
    destruct r0 as [v|[e|name]].
    + eapply Hone; [exact H|reflexivity].
    + destruct (status_in (http_status e) statuses).
      * destruct (attempt + 1 >=? max_retries).
        -- eapply Hone; [exact H|reflexivity].
        -- destruct (wait_and_back_off int_of_str time_sleep bf e cur)
             as [slept [next|ex]].
           ++ apply IH in H. destruct H as (n & Hn & _).
              exists (S n). split; [|intros _; lia].
              rewrite Hn, Hlog, <- app_assoc. reflexivity.
           ++ eapply Hone; [exact H|reflexivity].
      * eapply Hone; [exact H|reflexivity].
    + eapply Hone; [exact H|reflexivity].
  - inversion H; subst. exists 0%nat. split.
    + simpl. now rewrite app_nil_r.
    + intros Hr. now contradiction Hr.
Qed.

Lemma paginate_loop_pages (w w' : world C) (p : dict) (ps : list dict) :
  next_pages int_of_str time_sleep api w p ps w' ->
  Forall items_listed ps ->
  forall (fuel : nat) (results : list value),
    (List.length ps < fuel)%nat ->
    paginate_loop int_of_str time_sleep api fuel p results w
    = Some (Ok (results ++ List.concat (map page_items ps)), w').
Proof.
  induction 1 as [w p Hnext|w w1 w' p p1 ps Hnext Hfetch Hrest IH];
    intros Hall fuel results Hfuel.
  - destruct fuel as [|fuel]; [inversion Hfuel|].
    cbn [paginate_loop]. fold (has_next p). rewrite Hnext.
    simpl. now rewrite app_nil_r.
  - destruct fuel as [|fuel]; [inversion Hfuel|].
    inversion Hall as [|? ? Hp1 Hps]; subst.
    cbn [paginate_loop]. fold (has_next p). rewrite Hnext, Hfetch.
    rewrite (collect_items_listed results Hp1).
    rewrite (IH Hps fuel (results ++ page_items p1)) by (simpl in Hfuel; lia).
    simpl. now rewrite app_assoc.
Qed.

End OffsetMode.

(** C3: [paginate] makes its initial call with the caller's keyword
    arguments, to which limit=50 is added when the caller gave no limit;
    when that call, made through the retry executor, is answered with
    the page [p], and [ps] are the pages fetched one after the other
    while the previous one carries a non-empty [next], the result is the
    concatenation of the [items] lists of [p :: ps] in that order.  A page
    without [items] contributes nothing: a single first page without the
    key gives the empty Result Set and no error. *)
Theorem paginate_concatenates_pages
        (int_of_str : string -> option Z)
        (time_sleep : number -> option exn) (C : Type)
        (api : string -> list value -> dict -> C -> outcome dict * C)
        (method : string) (args : list value) (kwargs : dict)
        (w w1 w' : world C) (p : dict) (ps : list dict) :
  retry_on_api_error int_of_str time_sleep
                     (spotify_call api method args (initial_kwargs kwargs))
                     API_RETRY_ATTEMPTS (NInt API_RETRY_DELAY)
                     default_backoff_factor None w
  = Some (Returned (Some p), w1) ->
  next_pages int_of_str time_sleep api w1 p ps w' ->
  Forall items_listed (p :: ps) ->
  (dict_mem "limit" kwargs = false ->
   with_default_limit kwargs = kwargs ++ [("limit", VInt 50)])
  /\ (dict_mem "limit" kwargs = true -> with_default_limit kwargs = kwargs)
  /\ (exists n,
         (1 <= n)%nat
         /\ snd (fst w1)
            = snd (fst w)
                  ++ repeat (mkRequest method args (initial_kwargs kwargs)) n)
  /\ (forall fuel,
         (List.length ps < fuel)%nat ->
         paginate int_of_str time_sleep api fuel method args kwargs w
         = Some (Ok (List.concat (map page_items (p :: ps))), w'))
  /\ (dict_mem "items" p = false ->
      ps = [] ->
      forall fuel,
        (0 < fuel)%nat ->
        paginate int_of_str time_sleep api fuel method args kwargs w
        = Some (Ok [], w')).
Proof.
  intros Hfirst Hpages Hall.
  inversion Hall as [|? ? Hp Hps]; subst.
  assert (Hpaginate :
            forall fuel,
              (List.length ps < fuel)%nat ->
              paginate int_of_str time_sleep api fuel method args kwargs w
              = Some (Ok (List.concat (map page_items (p :: ps))), w')).
  { intros fuel Hfuel. unfold paginate.
    rewrite with_default_limit_initial, Hfirst.
    rewrite (collect_items_listed [] Hp).
    apply (paginate_loop_pages Hpages Hps). exact Hfuel. }
  split; [|split; [|split; [|split]]].
  - intros Hno. rewrite with_default_limit_initial.
    unfold initial_kwargs. now rewrite Hno.
  - intros Hyes. rewrite with_default_limit_initial.
    unfold initial_kwargs. now rewrite Hyes.
  - unfold retry_on_api_error in Hfirst.
    destruct w as [c tr], w1 as [c1 tr1]. cbn [fst snd] in *.
    apply retry_loop_call_log in Hfirst. destruct Hfirst as (n & Hn & Hpos).
    exists n. split; [apply Hpos; discriminate|exact Hn].
  - exact Hpaginate.
  - intros Hno -> fuel Hfuel.
    rewrite (Hpaginate fuel) by (simpl; lia).
    simpl. unfold page_items. rewrite dict_mem_lookup in Hno.
    destruct (dict_lookup "items" p); [discriminate|reflexivity].
Qed.

Lemma page_items_listed (items : list value) (next : value) :
  items_listed (page items next).
Proof.
  intros v H. simpl in H. inversion H. eexists; reflexivity.
Qed.

Lemma paginate_concatenates_pages_witness :
  let api := scripted_api [Ok (page [record "a"; record "b"] next_url);
                           Ok (page [record "c"] VNone)] in
  let kwargs := [("playlist_id", VStr "p1")] in
  let playlist_items :=
    mkRequest "playlist_items" []
              [("playlist_id", VStr "p1"); ("limit", VInt 50)] in
  let next := mkRequest "next" [VDict (page [record "a"; record "b"] next_url)]
                        [] in
  retry_on_api_error decimal_int sample_sleep
    (spotify_call api "playlist_items" [] (initial_kwargs kwargs))
    API_RETRY_ATTEMPTS (NInt API_RETRY_DELAY) default_backoff_factor None
    ((0%nat, []), [])
  = Some (Returned (Some (page [record "a"; record "b"] next_url)),
          ((1%nat, [playlist_items]), [Invoke]))
  /\ next_pages decimal_int sample_sleep api
                ((1%nat, [playlist_items]), [Invoke])
                (page [record "a"; record "b"] next_url)
                [page [record "c"] VNone]
                ((2%nat, [playlist_items; next]), [Invoke; Invoke])
  /\ Forall items_listed [page [record "a"; record "b"] next_url;
                          page [record "c"] VNone]
  /\ paginate decimal_int sample_sleep api 2 "playlist_items" [] kwargs
              ((0%nat, []), [])
     = Some (Ok [record "a"; record "b"; record "c"],
             ((2%nat, [playlist_items; next]), [Invoke; Invoke])).
Proof.
  intros api kwargs playlist_items next.
  assert (H1 : retry_on_api_error decimal_int sample_sleep
                 (spotify_call api "playlist_items" [] (initial_kwargs kwargs))
                 API_RETRY_ATTEMPTS (NInt API_RETRY_DELAY)
                 default_backoff_factor None ((0%nat, []), [])
               = Some (Returned (Some (page [record "a"; record "b"] next_url)),
                       ((1%nat, [playlist_items]), [Invoke])))
    by reflexivity.
  assert (H2 : next_pages decimal_int sample_sleep api
                          ((1%nat, [playlist_items]), [Invoke])
                          (page [record "a"; record "b"] next_url)
                          [page [record "c"] VNone]
                          ((2%nat, [playlist_items; next]), [Invoke; Invoke])).
  { eapply next_pages_more; [reflexivity|reflexivity|].
    apply next_pages_end. reflexivity. }
  assert (H3 : Forall items_listed [page [record "a"; record "b"] next_url;
                                    page [record "c"] VNone])
    by (repeat constructor; apply page_items_listed).
  split; [exact H1|]. split; [exact H2|]. split; [exact H3|].
  exact (proj1 (proj2 (proj2 (proj2
           (@paginate_concatenates_pages
              decimal_int sample_sleep nat api "playlist_items" [] kwargs
              _ _ _ _ _ H1 H2 H3)))) 2%nat (Nat.lt_succ_diag_r 1)).
Defined.

(** ** Offset mode against a source that never stops *)

Section EndlessSource.

Variable int_of_str : string -> option Z.
Variable time_sleep : number -> option exn.
Variable C : Type.
Variable api : string -> list value -> dict -> C -> outcome dict * C.

(** Every fetch of a next page is answered with an empty page that
    carries a continuation. *)
Hypothesis endless :
  forall (q : dict) (w0 : world C),
    has_next q = true ->
    exists q' w0',
      fetch_next int_of_str time_sleep api q w0 = Some (Returned (Some q'), w0')
      /\ empty_page q' /\ has_next q' = true.

Lemma collect_items_empty_page (p : dict) (results : list value) :
  empty_page p -> collect_items p results = Ok results.
Proof.
  unfold empty_page, collect_items, dict_get. intros Hp.
  rewrite dict_mem_lookup, Hp. simpl. now rewrite app_nil_r.
Qed.

Lemma paginate_loop_endless (fuel : nat) :
  forall (p : dict) (results : list value) (w : world C),
    has_next p = true ->
    paginate_loop int_of_str time_sleep api fuel p results w = None.
Proof.
  induction fuel as [|fuel IH]; intros p results w Hnext; [reflexivity|].
  cbn [paginate_loop]. fold (has_next p). rewrite Hnext.
  destruct (endless p w Hnext) as (q' & w' & Hfetch & Hempty & Hnext').
  rewrite Hfetch, (collect_items_empty_page results Hempty).
  apply IH. exact Hnext'.
Qed.

Lemma paginate_endless (method : string) (args : list value) (kwargs : dict)
      (w w1 : world C) (p : dict) (fuel : nat) :
  retry_on_api_error int_of_str time_sleep
                     (spotify_call api method args (with_default_limit kwargs))
                     API_RETRY_ATTEMPTS (NInt API_RETRY_DELAY)
                     default_backoff_factor None w
  = Some (Returned (Some p), w1) ->
  empty_page p ->
  has_next p = true ->
  paginate int_of_str time_sleep api fuel method args kwargs w = None.
Proof.
  intros Hfirst Hempty Hnext. unfold paginate.
  rewrite Hfirst, (collect_items_empty_page [] Hempty).
  apply paginate_loop_endless. exact Hnext.
Qed.

End EndlessSource.

Lemma endless_api_fetch (q : dict) (w0 : world nat) :
  fetch_next decimal_int sample_sleep endless_api q w0
  = Some (Returned (Some endless_page),
          ((S (fst (fst w0)),
            snd (fst w0) ++ [mkRequest "next" [VDict q] []]),
           snd w0 ++ [Invoke])).
Proof.
  destruct w0 as [[n log] tr]. reflexivity.
Qed.

Lemma endless_api_endless (q : dict) (w0 : world nat) :
  has_next q = true ->
  exists q' w0',
    fetch_next decimal_int sample_sleep endless_api q w0 = Some (Returned (Some q'), w0')
    /\ empty_page q' /\ has_next q' = true.
Proof.
  intros _. eexists; eexists. split; [apply endless_api_fetch|].
  split; reflexivity.
Qed.

(** C8, as the code has it.  The page loop of [paginate] has one exit, a
    response without a non-empty [next]: against a page source that keeps
    returning an [items] key holding an empty list together with a truthy
    [next], the traversal goes on fetching; whatever the number of loop
    iterations allowed, it has neither returned nor raised an error. *)
Theorem paginate_never_returns_on_endless_source
        (int_of_str : string -> option Z)
        (time_sleep : number -> option exn) (C : Type)
        (api : string -> list value -> dict -> C -> outcome dict * C)
        (method : string) (args : list value) (kwargs : dict)
        (w w1 : world C) (p : dict) :
  (forall (q : dict) (w0 : world C),
      has_next q = true ->
      exists q' w0',
        fetch_next int_of_str time_sleep api q w0 = Some (Returned (Some q'), w0')
        /\ empty_page q' /\ has_next q' = true) ->
  retry_on_api_error int_of_str time_sleep
                     (spotify_call api method args (with_default_limit kwargs))
                     API_RETRY_ATTEMPTS (NInt API_RETRY_DELAY)
                     default_backoff_factor None w
  = Some (Returned (Some p), w1) ->
  empty_page p ->
  has_next p = true ->
  forall fuel, paginate int_of_str time_sleep api fuel method args kwargs w = None.
Proof.
  intros Hsrc Hfirst Hempty Hnext fuel.
  eapply paginate_endless; eassumption.
Qed.

Lemma paginate_never_returns_on_endless_source_witness :
  (forall (q : dict) (w0 : world nat),
      has_next q = true ->
      exists q' w0',
        fetch_next decimal_int sample_sleep endless_api q w0 = Some (Returned (Some q'), w0')
        /\ empty_page q' /\ has_next q' = true)
  /\ retry_on_api_error decimal_int sample_sleep
       (spotify_call endless_api "current_user_saved_tracks" []
                     (with_default_limit []))
       API_RETRY_ATTEMPTS (NInt API_RETRY_DELAY)
                     default_backoff_factor None ((0%nat, []), [])
     = Some (Returned (Some endless_page),
             ((1%nat, [mkRequest "current_user_saved_tracks" []
                                 [("limit", VInt 50)]]), [Invoke]))
  /\ empty_page endless_page
  /\ has_next endless_page = true
  /\ forall fuel,
      paginate decimal_int sample_sleep endless_api fuel "current_user_saved_tracks" [] []
               ((0%nat, []), [])
      = None.
Proof.
  split; [exact endless_api_endless|].
  split; [reflexivity|]. split; [reflexivity|]. split; [reflexivity|].
  exact (@paginate_never_returns_on_endless_source
           decimal_int sample_sleep nat endless_api "current_user_saved_tracks" [] []
           ((0%nat, []), []) _ endless_page
           endless_api_endless eq_refl eq_refl eq_refl).
Defined.

(** C8 as it is worded fails: against the source that answers every call
    with an empty page and a continuation, no number of loop iterations
    makes [paginate] return or raise. *)
Lemma paginate_termination_counterexample :
  ~ exists fuel r w',
      paginate decimal_int sample_sleep endless_api fuel "current_user_saved_tracks" [] []
               ((0%nat, []), [])
      = Some (r, w').
Proof.
  intros (fuel & r & w' & H).
  rewrite (@paginate_endless decimal_int sample_sleep nat endless_api endless_api_endless
             "current_user_saved_tracks" [] [] ((0%nat, []), [])
             ((1%nat, [mkRequest "current_user_saved_tracks" []
                                 [("limit", VInt 50)]]), [Invoke])
             endless_page fuel eq_refl eq_refl eq_refl) in H.
  discriminate H.
Qed.

(** ** Cursor mode *)

Lemma last_id_nonempty (items : list value) (after : value) :
  last_id items = Some after ->
  exists d, rev items = VDict d :: tl (rev items)
            /\ dict_lookup "id" d = Some after.
Proof.
  unfold last_id. destruct (rev items) as [|x xs]; [discriminate|].
  destruct x; try discriminate. intros H. eexists. split; [reflexivity|exact H].
Qed.

Lemma followed_page_stop (p : dict) (artists : list value) :
  artists_listed p ->
  artists_items p = [] \/ artists_more p = false ->
  followed_page p artists = Ok (artists ++ artists_items p, None).
Proof.
  intros (a & l & Ha & Hl) Hstop.
  unfold followed_page, artists_items, artists_more in *.
  fold (artists_of p). rewrite Ha in *. cbn [py_get bind]. rewrite Hl in *.
  cbn [list_extend bind].
  destruct (truthy (dict_get "next" VNone a)) eqn:Hnext; [|reflexivity].
  destruct Hstop as [->|Hfalse]; [reflexivity|discriminate].
Qed.

Lemma followed_page_more (p : dict) (artists : list value) (after : value) :
  artists_listed p ->
  artists_more p = true ->
  last_id (artists_items p) = Some after ->
  followed_page p artists = Ok (artists ++ artists_items p, Some after).
Proof.
  intros (a & l & Ha & Hl) Hmore Hlast.
  unfold followed_page, artists_items, artists_more in *.
  fold (artists_of p). rewrite Ha in *. cbn [py_get bind]. rewrite Hl in *.
  cbn [list_extend bind]. rewrite Hmore. cbn [negb].
  destruct (last_id_nonempty _ Hlast) as (d & Hrev & Hid).
  assert (Hne : truthy (VList l) = true).
  { destruct l; [discriminate Hrev|reflexivity]. }
  rewrite Hne. cbn [py_last]. rewrite Hrev. cbn [bind py_getitem].
  rewrite Hid. reflexivity.
Qed.

Section CursorMode.

Variable C : Type.
Variable api : string -> list value -> dict -> C -> outcome dict * C.

Lemma spotify_call_log (method : string) (args : list value) (kwargs : dict)
      (w w' : client C) (r : outcome dict) :
  spotify_call api method args kwargs w = (r, w') ->
  snd w' = snd w ++ [mkRequest method args kwargs].
Proof.
  unfold spotify_call. destruct (api method args kwargs (fst w)).
  intros H; inversion H; reflexivity.
Qed.

Lemma followed_loop_walk (after : value) (w w' : client C)
      (calls : list (value * dict)) :
  cursor_walk api after w calls w' ->
  forall (fuel : nat) (artists : list value),
    (List.length calls <= fuel)%nat ->
    followed_loop api fuel artists after w
    = Some (Ok (artists
                  ++ List.concat (map (fun c => artists_items (snd c)) calls)),
            w').
Proof.
  induction 1 as [after w w' p Hcall Hp Hstop
                 |after after' w w1 w' p calls Hcall Hp Hmore Hlast Hrest IH];
    intros fuel artists Hfuel.
  - destruct fuel as [|fuel]; [inversion Hfuel|].
    cbn [followed_loop]. rewrite Hcall, (followed_page_stop artists Hp Hstop).
    simpl. now rewrite app_nil_r.
  - destruct fuel as [|fuel]; [inversion Hfuel|].
    cbn [followed_loop].
    rewrite Hcall, (followed_page_more artists Hp Hmore Hlast).
    rewrite IH by (simpl in Hfuel; lia).
    simpl. now rewrite app_assoc.
Qed.

Lemma cursor_walk_log (after : value) (w w' : client C)
      (calls : list (value * dict)) :
  cursor_walk api after w calls w' ->
  snd w' = snd w ++ map (fun c => followed_request (fst c)) calls.
Proof.
  induction 1 as [after w w' p Hcall Hp Hstop
                 |after after' w w1 w' p calls Hcall Hp Hmore Hlast Hrest IH].
  - apply spotify_call_log in Hcall. exact Hcall.
  - apply spotify_call_log in Hcall. rewrite IH, Hcall, <- app_assoc.
    reflexivity.
Qed.

Lemma cursor_walk_head (after : value) (w w' : client C)
      (calls : list (value * dict)) :
  cursor_walk api after w calls w' ->
  exists p rest, calls = (after, p) :: rest.
Proof.
  destruct 1; eexists; eexists; reflexivity.
Qed.

Lemma cursor_walk_chain (after : value) (w w' : client C)
      (calls : list (value * dict)) :
  cursor_walk api after w calls w' ->
  forall k a p a' p',
    nth_error calls k = Some (a, p) ->
    nth_error calls (S k) = Some (a', p') ->
    last_id (artists_items p) = Some a'.
Proof.
  induction 1 as [after w w' p Hcall Hp Hstop
                 |after after' w w1 w' p calls Hcall Hp Hmore Hlast Hrest IH];
    intros k a q a' q' Hk HSk.
  - destruct k; simpl in HSk; discriminate.
  - destruct k as [|k].
    + simpl in Hk. inversion Hk; subst.
      destruct (cursor_walk_head Hrest) as (p1 & rest & ->).
      simpl in HSk. inversion HSk; subst. exact Hlast.
    + simpl in Hk. apply (IH k a q a' q' Hk). exact HSk.
Qed.

Lemma cursor_walk_empty_last (after : value) (w w' : client C)
      (calls : list (value * dict)) :
  cursor_walk api after w calls w' ->
  forall k a p,
    nth_error calls k = Some (a, p) ->
    artists_items p = [] ->
    S k = List.length calls.
Proof.
  induction 1 as [after w w' p Hcall Hp Hstop
                 |after after' w w1 w' p calls Hcall Hp Hmore Hlast Hrest IH];
    intros k a q Hk Hempty.
  - destruct k as [|k]; [reflexivity|]. simpl in Hk.
    destruct k; discriminate.
  - destruct k as [|k].
    + simpl in Hk. inversion Hk; subst. rewrite Hempty in Hlast.
      discriminate.
    + simpl in Hk. simpl. f_equal. apply (IH k a q Hk Hempty).
Qed.

End CursorMode.

(** C4: in the followed-artists walk the first call is made with [after]
    unset and call k+1 with [after] set to the [id] of the last item
    returned by call k; the result is the concatenation of the item lists
    of all pages in order; a page with an empty item list is the last one
    fetched, so that an empty first page gives the empty Result Set after
    exactly one call. *)
Theorem followed_artists_cursor_walk
        (C : Type)
        (api : string -> list value -> dict -> C -> outcome dict * C)
        (w w' : client C) (calls : list (value * dict)) :
  cursor_walk api VNone w calls w' ->
  (forall fuel,
      (List.length calls <= fuel)%nat ->
      get_followed_artists api fuel w
      = Some (Ok (List.concat (map (fun c => artists_items (snd c)) calls)),
              w'))
  /\ snd w' = snd w ++ map (fun c => followed_request (fst c)) calls
  /\ (exists p rest, calls = (VNone, p) :: rest)
  /\ (forall k a p a' p',
         nth_error calls k = Some (a, p) ->
         nth_error calls (S k) = Some (a', p') ->
         last_id (artists_items p) = Some a')
  /\ (forall k a p,
         nth_error calls k = Some (a, p) ->
         artists_items p = [] ->
         S k = List.length calls).
Proof.
  intros Hwalk. split; [|split; [|split; [|split]]].
  - intros fuel Hfuel. unfold get_followed_artists.
    apply (followed_loop_walk Hwalk [] Hfuel).
  - apply (cursor_walk_log Hwalk).
  - apply (cursor_walk_head Hwalk).
  - apply (cursor_walk_chain Hwalk).
  - apply (cursor_walk_empty_last Hwalk).
Qed.

Lemma artists_page_listed (items : list value) (next : value) :
  artists_listed (artists_page items next).
Proof.
  exists [("items", VList items); ("next", next)], items.
  split; reflexivity.
Qed.

Lemma followed_artists_cursor_walk_witness :
  let api := scripted_api
               [Ok (artists_page [record "x"; record "y"] next_url);
                Ok (artists_page [record "z"] VNone)] in
  cursor_walk api VNone (0%nat, [])
              [(VNone, artists_page [record "x"; record "y"] next_url);
               (VStr "y", artists_page [record "z"] VNone)]
              (2%nat, [followed_request VNone; followed_request (VStr "y")])
  /\ get_followed_artists api 2 (0%nat, [])
     = Some (Ok [record "x"; record "y"; record "z"],
             (2%nat, [followed_request VNone; followed_request (VStr "y")])).
Proof.
  intros api.
  assert (H : cursor_walk api VNone (0%nat, [])
                [(VNone, artists_page [record "x"; record "y"] next_url);
                 (VStr "y", artists_page [record "z"] VNone)]
                (2%nat, [followed_request VNone; followed_request (VStr "y")])).
  { eapply cursor_walk_more;
      [reflexivity|apply artists_page_listed|reflexivity|reflexivity|].
    eapply cursor_walk_stop;
      [reflexivity|apply artists_page_listed|right; reflexivity]. }
  split; [exact H|].
  exact (proj1 (@followed_artists_cursor_walk nat api _ _ _ H) 2%nat
               (Nat.le_refl 2)).
Defined.

(** An empty first page ends the walk after one call, whatever it says
    about further pages. *)
Example followed_artists_empty_first_page :
  get_followed_artists
    (scripted_api [Ok (artists_page [] next_url);
                   Ok (artists_page [record "z"] VNone)])
    5 (0%nat, [])
  = Some (Ok [], (1%nat, [followed_request VNone])).
Proof. reflexivity. Qed.

(** ** The executor around the remote calls *)

(** C7 at a failing input.  The first call is answered with status 429
    and the second one with a page.  [paginate] sleeps 2 seconds, calls
    again and returns the page's items; [get_followed_artists], which
    calls the client directly, is aborted by the first failure after one
    call. *)
Theorem followed_artists_not_retried :
  paginate decimal_int sample_sleep
           (scripted_api [Err (ESpotify e429); Ok (page [record "x"] VNone)])
           5 "current_user_saved_tracks" [] [] ((0%nat, []), [])
  = Some (Ok [record "x"],
          ((2%nat,
            [mkRequest "current_user_saved_tracks" [] [("limit", VInt 50)];
             mkRequest "current_user_saved_tracks" [] [("limit", VInt 50)]]),
           [Invoke; Sleep (NInt 2); Invoke]))
  /\ get_followed_artists
       (scripted_api [Err (ESpotify e429);
                      Ok (artists_page [record "x"] VNone)])
       5 (0%nat, [])
     = Some (Err (ESpotify e429), (1%nat, [followed_request VNone])).
Proof.
  split; reflexivity.
Qed.

(** ** The merger *)



Lemma find_id_in_items_first (f : string) (items : list value) :
  find_id_in_items items = Some f -> first_identifier f items.
Proof.
  induction items as [|item items IH]; [discriminate|].
  assert (Hskip :
            (forall d g, item = VDict d -> In g id_fields -> dict_mem g d = false) ->
            find_id_in_items items = Some f ->
            first_identifier f (item :: items)).
  { intros Hitem Hfind.
    destruct (IH Hfind) as (before & d & rest & -> & Hbefore & Hd).
    exists (item :: before), d, rest. split; [reflexivity|]. split; [|exact Hd].
    intros d0 g [->|Hin] Hg; [now apply Hitem|now apply Hbefore]. }
  cbn [find_id_in_items].
  destruct item as [| | | | |l|d]; try (apply Hskip; intros; discriminate).
  destruct (find (fun field => dict_mem field d) id_fields) as [g|] eqn:Hfind.
  - intros H; inversion H; subst g.
    exists [], d, items. split; [reflexivity|]. split; [|exact Hfind].
    intros d0 g0 [].
  - apply Hskip. intros d0 g H Hg. inversion H; subst d0.
    apply (find_none _ _ Hfind g Hg).
Qed.

Lemma find_id_field_first (f : string) (items : list value) :
  _find_id_field (VList items) = Some f -> first_identifier f items.
Proof.
  unfold _find_id_field.
  destruct (negb (truthy (VList items))); [discriminate|].
  apply find_id_in_items_first.
Qed.

Lemma find_id_in_items_none (items : list value) :
  no_identifier items -> find_id_in_items items = None.
Proof.
  induction items as [|item items IH]; intros Hno; [reflexivity|].
  assert (Hrest : find_id_in_items items = None).
  { apply IH. intros d g Hin. apply Hno. now right. }
  destruct item; try exact Hrest.
  cbn [find_id_in_items].
  destruct (find (fun field => dict_mem field d) id_fields) as [g|] eqn:Hfind;
    [|exact Hrest].
  apply find_some in Hfind. destruct Hfind as [Hg Hmem].
  rewrite (Hno d g (or_introl eq_refl) Hg) in Hmem. discriminate.
Qed.

Lemma find_id_field_none (items : list value) :
  no_identifier items -> _find_id_field (VList items) = None.
Proof.
  intros Hno. unfold _find_id_field.
  destruct (negb (truthy (VList items))); [reflexivity|].
  now apply find_id_in_items_none.
Qed.

Lemma find_id_field_items (items : list value) :
  _find_id_field (VList items) = find_id_in_items items.
Proof.
  destruct items; reflexivity.
Qed.

Lemma find_id_in_items_of_first (f : string) (items : list value) :
  first_identifier f items -> find_id_in_items items = Some f.
Proof.
  intros (before & d & rest & -> & Hno & Hfind).
  induction before as [|item before IH]; cbn [app find_id_in_items].
  - now rewrite Hfind.
  - assert (Hrest : find_id_in_items (before ++ VDict d :: rest) = Some f).
    { apply IH. intros d0 g Hin. apply Hno. now right. }
    destruct item; try exact Hrest.
    destruct (find (fun field => dict_mem field d0) id_fields) as [g|] eqn:Hd;
      [|exact Hrest].
    apply find_some in Hd. destruct Hd as [Hg Hmem].
    rewrite (Hno d0 g (or_introl eq_refl) Hg) in Hmem. discriminate.
Qed.


Lemma dict_mem_of_lookup {V : Type} (k : string) (d : list (string * V))
      (v : V) :
  dict_lookup k d = Some v -> dict_mem k d = true.
Proof.
  intros H. now rewrite dict_mem_lookup, H.
Qed.

(** The metadata of two Export Records merge without an error, and the
    clock is not consulted for the result. *)
Lemma merge_metadata_export_records (now : string) (existing new : dict) :
  export_record existing ->
  export_record new ->
  exists md_old md_new,
    dict_lookup "metadata" existing = Some (VDict md_old)
    /\ dict_lookup "metadata" new = Some (VDict md_new)
    /\ merge_metadata now existing new
       = Ok (VDict (dict_set "previous_export_date"
                             (dict_get "export_date" VNone md_old)
                             (dict_set "update_date"
                                       (dict_get "export_date" VNone md_new)
                                       md_old))).
Proof.
  intros (mo & Ho & _ & _ & _) (mn & Hn & Hdate & _ & _).
  exists mo, mn. split; [exact Ho|]. split; [exact Hn|].
  unfold merge_metadata.
  rewrite (dict_mem_of_lookup _ _ Ho), (dict_mem_of_lookup _ _ Hn).
  unfold dict_get. rewrite Ho, Hn. cbn [andb py_get bind].
  rewrite dict_mem_lookup in Hdate. unfold dict_get.
  destruct (dict_lookup "export_date" mn); [reflexivity|discriminate].
Qed.

Lemma export_record_has_data (r : dict) :
  export_record r -> dict_mem "data" r = true.
Proof.
  intros (md & _ & _ & _ & H). exact H.
Qed.


Lemma sample_record_export_record (date : string) (data : value) :
  export_record (sample_record date data).
Proof.
  eexists. split; [reflexivity|]. split; [reflexivity|].
  split; reflexivity.
Qed.




(** C6: for two Export Records whose data are both lists, when no item of
    the existing data is a record with an id, uri or href field, the merged
    data is the existing list followed by the new list; and when the data
    of at least one side is not a list, the merged data is the new
    record's data. *)
Theorem merge_without_identifier_or_list
        (now : string) (existing new : dict) :
  export_record existing ->
  export_record new ->
  (forall existing_items new_items,
      dict_lookup "data" existing = Some (VList existing_items) ->
      dict_lookup "data" new = Some (VList new_items) ->
      no_identifier existing_items ->
      exists md,
        merge_json_data now existing new
        = Ok [("metadata", md); ("data", VList (existing_items ++ new_items))])
  /\ (forall new_data,
         dict_lookup "data" new = Some new_data ->
         ~ (exists existing_items new_items,
               dict_lookup "data" existing = Some (VList existing_items)
               /\ new_data = VList new_items) ->
         exists md,
           merge_json_data now existing new
           = Ok [("metadata", md); ("data", new_data)]).
Proof.
  intros Hold Hnew.
  destruct (merge_metadata_export_records now Hold Hnew)
    as (mo & mn & _ & _ & Hmeta).
  split.
  - intros existing_items new_items Hdo Hdn Hno.
    eexists. unfold merge_json_data. rewrite Hmeta. cbn [bind].
    unfold merge_data.
    rewrite (export_record_has_data Hold), (export_record_has_data Hnew).
    cbn [andb]. unfold dict_get. rewrite Hdo, Hdn.
    rewrite (find_id_field_none Hno). reflexivity.
  - intros new_data Hdn Hnot.
    eexists. unfold merge_json_data. rewrite Hmeta. cbn [bind].
    unfold merge_data.
    rewrite (export_record_has_data Hold), (export_record_has_data Hnew).
    cbn [andb]. unfold dict_get. rewrite Hdn.
    destruct (dict_lookup "data" existing) as [old_data|] eqn:Hdo.
    + destruct old_data; try reflexivity.
      destruct new_data; try reflexivity.
      exfalso. apply Hnot. eexists; eexists. split; reflexivity.
    + destruct new_data; reflexivity.
Qed.

Lemma no_identifier_sample :
  no_identifier [VDict [("name", VStr "a")]; VStr "b"].
Proof.
  intros d g [H|[H|[]]] Hg; [|discriminate H].
  inversion H; subst d.
  destruct Hg as [<-|[<-|[<-|[]]]]; reflexivity.
Qed.

Lemma merge_without_identifier_or_list_witness :
  let existing :=
    sample_record "2024-01-01" (VList [VDict [("name", VStr "a")]; VStr "b"]) in
  let new :=
    sample_record "2024-02-01" (VList [VDict [("name", VStr "a")]]) in
  export_record existing
  /\ export_record new
  /\ (exists md,
         merge_json_data "2024-03-01" existing new
         = Ok [("metadata", md);
               ("data", VList [VDict [("name", VStr "a")]; VStr "b";
                               VDict [("name", VStr "a")]])]).
Proof.
  intros existing new.
  pose proof (sample_record_export_record
                "2024-01-01" (VList [VDict [("name", VStr "a")]; VStr "b"]))
    as H1.
  pose proof (sample_record_export_record
                "2024-02-01" (VList [VDict [("name", VStr "a")]])) as H2.
  split; [exact H1|]. split; [exact H2|].
  exact (proj1 (@merge_without_identifier_or_list
                  "2024-03-01" existing new H1 H2)
               _ _ eq_refl eq_refl no_identifier_sample).
Defined.

(** The identifier field is looked for item by item: here the first
    existing item has only a [uri], so [uri] it is, and the new item,
    which has no [uri], is appended although its [id] is known. *)
Example merge_identifier_of_first_item :
  _find_id_field (VList [VDict [("uri", VStr "u")]; VDict [("id", VInt 1)]])
  = Some "uri"
  /\ exists md,
      merge_json_data "2024-03-01"
        (sample_record "2024-01-01"
           (VList [VDict [("uri", VStr "u")]; VDict [("id", VInt 1)]]))
        (sample_record "2024-02-01" (VList [VDict [("id", VInt 1)]]))
      = Ok [("metadata", md);
            ("data", VList [VDict [("uri", VStr "u")]; VDict [("id", VInt 1)];
                            VDict [("id", VInt 1)]])].
Proof. split; [reflexivity|eexists; reflexivity]. Qed.

(** Existing data that is not a sequence: the new data wins outright. *)
Example merge_existing_not_a_list :
  exists md,
    merge_json_data "2024-03-01"
                    (sample_record "2024-01-01" (VDict [("id", VStr "me")]))
                    (sample_record "2024-02-01" (VList [entry 1 "b"]))
    = Ok [("metadata", md); ("data", VList [entry 1 "b"])].
Proof. eexists. reflexivity. Qed.

(** ** The store *)

Unset Implicit Arguments.

Lemma store_load_app (l : nat) (h ext : Store.store) (o : Store.object) :
  Store.load l h = Some o -> Store.load l (h ++ ext) = Some o.
Proof.
  unfold Store.load. intros H. rewrite nth_error_app1; [exact H|].
  apply nth_error_Some. rewrite H. discriminate.
Qed.

Lemma store_load_new (h : Store.store) (o : Store.object) :
  Store.load (List.length h) (h ++ [o]) = Some o.
Proof.
  unfold Store.load. rewrite nth_error_app2 by lia.
  now rewrite Nat.sub_diag.
Qed.

Lemma store_update_new (h : Store.store) (o o' : Store.object) :
  Store.update (List.length h) o' (h ++ [o]) = h ++ [o'].
Proof.
  induction h as [|x h IH]; simpl; [reflexivity|]. now rewrite IH.
Qed.

Lemma store_preserves_app (h ext : Store.store) :
  Store.preserves h (h ++ ext).
Proof.
  intros l Hl. unfold Store.load. now rewrite nth_error_app1.
Qed.

Lemma all_some_Forall2 {A B : Type} (f : A -> option B) (l : list A)
      (bs : list B) :
  Store.all_some f l = Some bs <-> Forall2 (fun a b => f a = Some b) l bs.
Proof.
  revert bs. induction l as [|a l IH]; intros bs; simpl.
  - split; [intros H; inversion H; constructor|intros H; now inversion H].
  - destruct (f a) as [b|] eqn:Ha.
    + destruct (Store.all_some f l) as [bs'|].
      * split.
        -- intros H; inversion H; subst. constructor; [exact Ha|].
           now apply IH.
        -- intros H; inversion H as [|? ? ? ? Hb Hrest]; subst.
           apply IH in Hrest. inversion Hrest; subst.
           rewrite Ha in Hb. now inversion Hb.
      * split; [discriminate|].
        intros H; inversion H as [|? ? ? ? Hb Hrest]; subst.
        apply IH in Hrest. discriminate.
    + split; [discriminate|].
      intros H; inversion H as [|? ? ? ? Hb Hrest]; subst.
      rewrite Ha in Hb. discriminate.
Qed.

Lemma all_some_impl {A B : Type} (f g : A -> option B) (l : list A)
      (bs : list B) :
  (forall a b, f a = Some b -> g a = Some b) ->
  Store.all_some f l = Some bs -> Store.all_some g l = Some bs.
Proof.
  intros Hfg H. apply all_some_Forall2. apply all_some_Forall2 in H.
  induction H; constructor; auto.
Qed.

Lemma on_entry_impl {A B : Type} (f g : A -> option B) :
  (forall a b, f a = Some b -> g a = Some b) ->
  forall kv kx, Store.on_entry f kv = Some kx -> Store.on_entry g kv = Some kx.
Proof.
  intros Hfg [k a] kx. unfold Store.on_entry. simpl.
  destruct (f a) as [b|] eqn:Ha; [|discriminate].
  intros H. now rewrite (Hfg a b Ha).
Qed.

Lemma store_deref_ref (k : nat) (h : Store.store) (l : nat) :
  Store.deref (S k) h (Store.SRef l)
  = match Store.load l h with
    | Some (Store.OList items) =>
        option_map VList (Store.all_some (Store.deref k h) items)
    | Some (Store.ODict entries) =>
        option_map VDict
          (Store.all_some (Store.on_entry (Store.deref k h)) entries)
    | None => None
    end.
Proof. reflexivity. Qed.

(** What a value stands for does not depend on what is allocated later,
    nor on the depth once it is reached. *)
Lemma store_deref_app (k : nat) (h ext : Store.store) :
  forall (v : Store.sval) (x : value),
    Store.deref k h v = Some x -> Store.deref k (h ++ ext) v = Some x.
Proof.
  induction k as [|k IH]; intros v x H; destruct v; try exact H.
  rewrite store_deref_ref in *.
  destruct (Store.load l h) as [o|] eqn:Hload; [|discriminate].
  rewrite (store_load_app _ _ ext _ Hload).
  destruct o as [items|entries].
  - destruct (Store.all_some (Store.deref k h) items) as [xs|] eqn:Hxs;
      [|discriminate].
    now rewrite (all_some_impl _ _ _ _ IH Hxs).
  - destruct (Store.all_some (Store.on_entry (Store.deref k h)) entries)
      as [xs|] eqn:Hxs; [|discriminate].
    now rewrite (all_some_impl _ _ _ _ (on_entry_impl _ _ IH) Hxs).
Qed.

Lemma store_deref_mono (k : nat) (h : Store.store) :
  forall (v : Store.sval) (x : value),
    Store.deref k h v = Some x -> Store.deref (S k) h v = Some x.
Proof.
  induction k as [|k IH]; intros v x H; destruct v; try exact H.
  - discriminate H.
  - rewrite store_deref_ref in H. rewrite store_deref_ref.
    destruct (Store.load l h) as [[items|entries]|]; [| |discriminate].
    + destruct (Store.all_some (Store.deref k h) items) as [xs|] eqn:Hxs;
        [|discriminate].
      now rewrite (all_some_impl _ _ _ _ IH Hxs).
    + destruct (Store.all_some (Store.on_entry (Store.deref k h)) entries)
        as [xs|] eqn:Hxs; [|discriminate].
      now rewrite (all_some_impl _ _ _ _ (on_entry_impl _ _ IH) Hxs).
Qed.

Lemma store_deref_scalar (k : nat) (h : Store.store) (v : Store.sval)
      (x : value) :
  Store.s_hashable v = true ->
  Store.deref k h v = Some x ->
  x = Store.scalar v.
Proof.
  destruct k, v; simpl; intros Hh H; try (now inversion H); discriminate.
Qed.

(** A reference to a dict stands for a [VDict], one to a list for a
    [VList], and a scalar for neither. *)
Lemma store_as_dict_deref (k : nat) (h : Store.store) (v : Store.sval)
      (x : value) :
  Store.deref (S k) h v = Some x ->
  match x with
  | VDict D =>
      exists entries,
        Store.as_dict h v = Some entries
        /\ Store.all_some (Store.on_entry (Store.deref k h)) entries = Some D
  | _ => Store.as_dict h v = None
  end.
Proof.
  destruct v; try (cbn; intros H; inversion H; reflexivity).
  rewrite store_deref_ref. cbn [Store.as_dict]. intros H.
  destruct (Store.load l h) as [[items|entries]|]; [| |discriminate].
  - destruct (Store.all_some (Store.deref k h) items); [|discriminate].
    inversion H. reflexivity.
  - destruct (Store.all_some (Store.on_entry (Store.deref k h)) entries)
      as [D|] eqn:HD; [|discriminate].
    inversion H. exists entries. split; [reflexivity|exact HD].
Qed.

Lemma store_as_list_deref (k : nat) (h : Store.store) (v : Store.sval)
      (x : value) :
  Store.deref (S k) h v = Some x ->
  match x with
  | VList xs =>
      exists items,
        Store.as_list h v = Some items
        /\ Store.all_some (Store.deref k h) items = Some xs
  | _ => Store.as_list h v = None
  end.
Proof.
  destruct v; try (cbn; intros H; inversion H; reflexivity).
  rewrite store_deref_ref. cbn [Store.as_list]. intros H.
  destruct (Store.load l h) as [[items|entries]|]; [| |discriminate].
  - destruct (Store.all_some (Store.deref k h) items) as [xs|] eqn:Hxs;
      [|discriminate].
    inversion H. exists items. split; [reflexivity|exact Hxs].
  - destruct (Store.all_some (Store.on_entry (Store.deref k h)) entries);
      [|discriminate].
    inversion H. reflexivity.
Qed.

(** The entries of a dict and the dict they stand for have the same keys
    in the same places. *)
Lemma entries_mem {A B : Type} (f : A -> option B) (key : string)
      (entries : list (string * A)) (D : list (string * B)) :
  Store.all_some (Store.on_entry f) entries = Some D ->
  dict_mem key entries = dict_mem key D.
Proof.
  revert D. induction entries as [|[k a] entries IH]; intros D H.
  - inversion H. reflexivity.
  - cbn [Store.all_some] in H. unfold Store.on_entry at 1 in H. simpl in H.
    destruct (f a) as [b|]; [|discriminate].
    destruct (Store.all_some (Store.on_entry f) entries) as [D'|];
      [|discriminate].
    inversion H; subst. simpl. rewrite (IH D' eq_refl). reflexivity.
Qed.

Lemma entries_lookup {A B : Type} (f : A -> option B) (key : string)
      (entries : list (string * A)) (D : list (string * B)) :
  Store.all_some (Store.on_entry f) entries = Some D ->
  match dict_lookup key entries with
  | Some a => exists b, f a = Some b /\ dict_lookup key D = Some b
  | None => dict_lookup key D = None
  end.
Proof.
  revert D. induction entries as [|[k a] entries IH]; intros D H.
  - inversion H. reflexivity.
  - cbn [Store.all_some] in H. unfold Store.on_entry at 1 in H. simpl in H.
    destruct (f a) as [b|] eqn:Ha; [|discriminate].
    destruct (Store.all_some (Store.on_entry f) entries) as [D'|];
      [|discriminate].
    inversion H; subst. simpl.
    destruct (String.eqb key k).
    + exists b. split; [exact Ha|reflexivity].
    + apply (IH D' eq_refl).
Qed.

Lemma entries_set {A B : Type} (f : A -> option B) (key : string)
      (a : A) (b : B) (entries : list (string * A)) (D : list (string * B)) :
  f a = Some b ->
  Store.all_some (Store.on_entry f) entries = Some D ->
  Store.all_some (Store.on_entry f) (dict_set key a entries)
  = Some (dict_set key b D).
Proof.
  intros Hab. revert D.
  induction entries as [|[k a'] entries IH]; intros D H.
  - inversion H. simpl. unfold Store.on_entry. simpl. now rewrite Hab.
  - cbn [Store.all_some] in H. unfold Store.on_entry at 1 in H. simpl in H.
    destruct (f a') as [b'|] eqn:Ha'; [|discriminate].
    destruct (Store.all_some (Store.on_entry f) entries) as [D'|] eqn:HD';
      [|discriminate].
    inversion H; subst. simpl.
    destruct (String.eqb key k).
    + cbn [Store.all_some]. unfold Store.on_entry at 1. simpl.
      now rewrite Hab, HD'.
    + cbn [Store.all_some]. unfold Store.on_entry at 1. simpl.
      now rewrite Ha', (IH D' eq_refl).
Qed.

(** ** The operations of the merger in the store and on values *)

Lemma store_hashable_deref (k : nat) (h : Store.store) (v : Store.sval)
      (x : value) :
  Store.deref k h v = Some x -> Store.s_hashable v = hashable x.
Proof.
  destruct k, v; simpl; intros H; try (inversion H; reflexivity);
    try discriminate.
  destruct (Store.load l h) as [[items|entries]|]; [| |discriminate].
  - destruct (Store.all_some (Store.deref k h) items); [|discriminate].
    inversion H. reflexivity.
  - destruct (Store.all_some (Store.on_entry (Store.deref k h)) entries);
      [|discriminate].
    inversion H. reflexivity.
Qed.

Lemma store_eqb_str_deref (k : nat) (h : Store.store) (f : string)
      (v : Store.sval) (x : value) :
  Store.deref k h v = Some x ->
  Store.s_eqb (Store.SStr f) v = py_eqb (VStr f) x.
Proof.
  destruct k, v; simpl; intros H; try (inversion H; reflexivity);
    try discriminate.
  destruct (Store.load l h) as [[items|entries]|]; [| |discriminate].
  - destruct (Store.all_some (Store.deref k h) items); [|discriminate].
    inversion H. reflexivity.
  - destruct (Store.all_some (Store.on_entry (Store.deref k h)) entries);
      [|discriminate].
    inversion H. reflexivity.
Qed.

Lemma store_eqb_scalar (a b : Store.sval) :
  Store.s_hashable a = true ->
  Store.s_hashable b = true ->
  Store.s_eqb a b = py_eqb (Store.scalar a) (Store.scalar b).
Proof.
  destruct a, b; simpl; intros Ha Hb; try reflexivity; discriminate.
Qed.

Lemma store_contains_deref (k : nat) (h : Store.store) (f : string)
      (item : Store.sval) (x : value) :
  Store.deref (S k) h item = Some x ->
  Store.contains f item h = py_contains f x.
Proof.
  destruct item; try (cbn; intros H; inversion H; reflexivity).
  rewrite store_deref_ref. cbn [Store.contains]. intros H.
  destruct (Store.load l h) as [[items|entries]|]; [| |discriminate].
  - destruct (Store.all_some (Store.deref k h) items) as [xs|] eqn:Hxs;
      [|discriminate].
    inversion H; subst x. cbn [py_contains]. f_equal.
    apply all_some_Forall2 in Hxs.
    induction Hxs as [|i y items xs Hi _ IH]; [reflexivity|].
    cbn [existsb]. now rewrite IH, (store_eqb_str_deref _ _ f _ _ Hi).
  - destruct (Store.all_some (Store.on_entry (Store.deref k h)) entries)
      as [D|] eqn:HD; [|discriminate].
    inversion H; subst x. cbn [py_contains].
    now rewrite (entries_mem _ f _ _ HD).
Qed.

Lemma store_get_deref (k : nat) (h : Store.store) (item : Store.sval)
      (f : string) (default_s : Store.sval) (default_v : value) (x : value) :
  Store.deref (S k) h item = Some x ->
  Store.deref k h default_s = Some default_v ->
  match Store.get item f default_s h, py_get x f default_v with
  | Ok sv, Ok y => Store.deref k h sv = Some y
  | Err a, Err b => a = b
  | _, _ => False
  end.
Proof.
  intros Hitem Hdefault. unfold Store.get.
  pose proof (store_as_dict_deref _ _ _ _ Hitem) as Hd.
  destruct x; try (rewrite Hd; reflexivity).
  destruct Hd as (entries & -> & HD). cbn [py_get]. unfold dict_get.
  pose proof (entries_lookup _ f _ _ HD) as Hl.
  destruct (dict_lookup f entries) as [sv|].
  - destruct Hl as (y & Hy & ->). exact Hy.
  - rewrite Hl. exact Hdefault.
Qed.

Lemma store_getitem_deref (k : nat) (h : Store.store) (item : Store.sval)
      (f : string) (x : value) :
  Store.deref (S k) h item = Some x ->
  match Store.getitem item f h, py_getitem x f with
  | Ok sv, Ok y => Store.deref k h sv = Some y
  | Err a, Err b => a = b
  | _, _ => False
  end.
Proof.
  intros Hitem. unfold Store.getitem.
  pose proof (store_as_dict_deref _ _ _ _ Hitem) as Hd.
  destruct x; try (rewrite Hd; reflexivity).
  destruct Hd as (entries & -> & HD). cbn [py_getitem].
  pose proof (entries_lookup _ f _ _ HD) as Hl.
  destruct (dict_lookup f entries) as [sv|].
  - destruct Hl as (y & Hy & ->). exact Hy.
  - rewrite Hl. reflexivity.
Qed.

Lemma store_find_id_in_items (k : nat) (h : Store.store)
      (items : list Store.sval) (xs : list value) :
  Forall2 (fun i x => Store.deref (S k) h i = Some x) items xs ->
  Store.find_id_in_items h items = find_id_in_items xs.
Proof.
  induction 1 as [|i x items xs Hi _ IH]; [reflexivity|].
  cbn [Store.find_id_in_items find_id_in_items].
  pose proof (store_as_dict_deref _ _ _ _ Hi) as Hd.
  destruct x; try (rewrite Hd; exact IH).
  destruct Hd as (entries & -> & HD).
  unfold id_fields. cbn [find].
  rewrite !(entries_mem _ _ _ _ HD), IH. reflexivity.
Qed.

Lemma store_find_id_field (k : nat) (h : Store.store) (v : Store.sval)
      (x : value) :
  Store.deref (S (S k)) h v = Some x ->
  Store._find_id_field h v = _find_id_field x.
Proof.
  intros Hv. unfold Store._find_id_field.
  pose proof (store_as_list_deref _ _ _ _ Hv) as Hl.
  destruct x; try (rewrite Hl; reflexivity).
  destruct Hl as (items & -> & Hxs). apply all_some_Forall2 in Hxs.
  unfold _find_id_field.
  destruct Hxs as [|i x items xs Hi Hrest]; [reflexivity|].
  cbn [truthy negb].
  apply (store_find_id_in_items k). now constructor.
Qed.

(** The identifiers collected in the store are the scalars collected on
    the values. *)
Lemma store_collect_ids (k : nat) (h : Store.store) (f : string)
      (items : list Store.sval) (xs : list value) :
  Forall2 (fun i x => Store.deref (S k) h i = Some x) items xs ->
  match Store.collect_ids f items h, collect_ids f xs with
  | Ok ids_s, Ok ids_v =>
      Forall2 (fun s v => Store.s_hashable s = true /\ v = Store.scalar s)
              ids_s ids_v
  | Err a, Err b => a = b
  | _, _ => False
  end.
Proof.
  induction 1 as [|i x items xs Hi _ IH]; [constructor|].
  cbn [Store.collect_ids collect_ids].
  rewrite (store_contains_deref _ _ f _ _ Hi).
  destruct (py_contains f x) as [present|ex]; cbn [bind]; [|reflexivity].
  destruct present; [|exact IH].
  assert (Hnone : Store.deref k h Store.SNone = Some VNone)
    by (destruct k; reflexivity).
  pose proof (store_get_deref k h i f Store.SNone VNone x Hi Hnone) as Hy.
  destruct (Store.get i f Store.SNone h) as [sv|a],
           (py_get x f VNone) as [y|b]; cbn [bind];
    try contradiction; try exact Hy.
  rewrite (store_hashable_deref _ _ _ _ Hy).
  destruct (hashable y) eqn:Hh; [|reflexivity].
  destruct (Store.collect_ids f items h) as [ids_s|a],
           (collect_ids f xs) as [ids_v|b]; cbn [bind]; try exact IH.
  constructor; [|exact IH].
  rewrite <- (store_hashable_deref _ _ _ _ Hy) in Hh.
  split; [exact Hh|]. now apply (store_deref_scalar k h).
Qed.

Lemma store_list_append_new (hb : Store.store) (cur : list Store.sval)
      (item : Store.sval) :
  Store.list_append (List.length hb) item (hb ++ [Store.OList cur])
  = (Ok tt, hb ++ [Store.OList (cur ++ [item])]).
Proof.
  unfold Store.list_append. now rewrite store_load_new, store_update_new.
Qed.

Lemma store_dict_assign_new (hb : Store.store)
      (d : list (string * Store.sval)) (k : string) (v : Store.sval) :
  Store.dict_assign (List.length hb) k v (hb ++ [Store.ODict d])
  = (Ok tt, hb ++ [Store.ODict (dict_set k v d)]).
Proof.
  unfold Store.dict_assign. now rewrite store_load_new, store_update_new.
Qed.

Lemma store_set_mem (ids_s : list Store.sval) (ids_v : list value)
      (v : Store.sval) :
  Forall2 (fun s x => Store.s_hashable s = true /\ x = Store.scalar s)
          ids_s ids_v ->
  Store.s_hashable v = true ->
  existsb (Store.s_eqb v) ids_s = set_mem (Store.scalar v) ids_v.
Proof.
  intros Hids Hv. unfold set_mem.
  induction Hids as [|s x ids_s ids_v [Hs ->] _ IH]; [reflexivity|].
  cbn [existsb]. now rewrite IH, (store_eqb_scalar _ _ Hv Hs).
Qed.

(** The loop over the new items, run on the store where the list it
    appends to is the last object allocated, does to that list what the
    loop on values does to its accumulator, and touches nothing else. *)
Lemma store_append_new (k : nat) (hb : Store.store) (f : string)
      (ids_s : list Store.sval) (ids_v : list value) :
  Forall2 (fun s x => Store.s_hashable s = true /\ x = Store.scalar s)
          ids_s ids_v ->
  forall (items : list Store.sval) (xs : list value),
    Forall2 (fun i x => Store.deref (S k) hb i = Some x) items xs ->
    forall (cur : list Store.sval) (acc : list value),
      Forall2 (fun i x => Store.deref (S k) hb i = Some x) cur acc ->
      exists cur',
        Store.append_new f ids_s items (List.length hb)
                         (hb ++ [Store.OList cur])
        = (match append_new f ids_v xs acc with
           | Ok _ => Ok tt
           | Err ex => Err ex
           end, hb ++ [Store.OList cur'])
        /\ forall final,
            append_new f ids_v xs acc = Ok final ->
            Forall2 (fun i x => Store.deref (S k) hb i = Some x) cur' final.
Proof.
  intros Hids. induction 1 as [|i x items xs Hi _ IH]; intros cur acc Hcur.
  - exists cur. split; [reflexivity|].
    intros final H. inversion H; subst. exact Hcur.
  - pose proof (store_deref_app _ _ [Store.OList cur] _ _ Hi) as Hi'.
    assert (Hkeep :
              exists cur',
                Store.mbind
                  (Store.list_append (List.length hb) i)
                  (fun _ => Store.append_new f ids_s items (List.length hb))
                  (hb ++ [Store.OList cur])
                = (match append_new f ids_v xs (acc ++ [x]) with
                   | Ok _ => Ok tt
                   | Err ex => Err ex
                   end, hb ++ [Store.OList cur'])
                /\ forall final,
                    append_new f ids_v xs (acc ++ [x]) = Ok final ->
                    Forall2 (fun i x => Store.deref (S k) hb i = Some x)
                            cur' final).
    { unfold Store.mbind. rewrite store_list_append_new.
      apply IH. apply Forall2_app; [exact Hcur|]. now repeat constructor. }
    cbn [Store.append_new append_new].
    unfold Store.mbind at 1. unfold Store.reading at 1.
    rewrite (store_contains_deref _ _ f _ _ Hi').
    destruct (py_contains f x) as [present|ex]; cbn [bind].
    2:{ exists cur. split; [reflexivity|discriminate]. }
    destruct present; cbn [negb]; [|exact Hkeep].
    unfold Store.mbind at 1. unfold Store.reading at 1.
    pose proof (store_getitem_deref _ _ _ f _ Hi') as Hget.
    destruct (Store.getitem i f (hb ++ [Store.OList cur])) as [sv|a],
             (py_getitem x f) as [y|b]; cbn [bind]; try contradiction.
    2:{ subst b. exists cur. split; [reflexivity|discriminate]. }
    rewrite (store_hashable_deref _ _ _ _ Hget).
    destruct (hashable y) eqn:Hh.
    2:{ exists cur. split; [reflexivity|discriminate]. }
    rewrite <- (store_hashable_deref _ _ _ _ Hget) in Hh.
    rewrite (store_set_mem _ _ _ Hids Hh).
    rewrite <- (store_deref_scalar _ _ _ _ Hh Hget).
    destruct (set_mem y ids_v); cbn [negb]; [|exact Hkeep].
    apply IH. exact Hcur.
Qed.

Lemma store_as_dict_app (k : nat) (h ext : Store.store) (v : Store.sval)
      (x : value) :
  Store.deref k h v = Some x ->
  Store.as_dict (h ++ ext) v = Store.as_dict h v.
Proof.
  destruct k, v; try reflexivity; try discriminate.
  rewrite store_deref_ref. cbn [Store.as_dict].
  destruct (Store.load l h) as [o|] eqn:Hload; [|discriminate].
  now rewrite (store_load_app _ _ ext _ Hload).
Qed.

Lemma store_get_app (k : nat) (h ext : Store.store) (item : Store.sval)
      (f : string) (default : Store.sval) (x : value) :
  Store.deref k h item = Some x ->
  Store.get item f default (h ++ ext) = Store.get item f default h.
Proof.
  intros H. unfold Store.get. now rewrite (store_as_dict_app _ _ ext _ _ H).
Qed.

Lemma store_dict_get_deref (k : nat) (h : Store.store) (key : string)
      (default_s : Store.sval) (default_v : value)
      (entries : list (string * Store.sval)) (D : dict) :
  Store.all_some (Store.on_entry (Store.deref k h)) entries = Some D ->
  Store.deref k h default_s = Some default_v ->
  Store.deref k h (dict_get key default_s entries)
  = Some (dict_get key default_v D).
Proof.
  intros HD Hdefault. unfold dict_get.
  pose proof (entries_lookup _ key _ _ HD) as Hl.
  destruct (dict_lookup key entries) as [sv|].
  - destruct Hl as (y & Hy & ->). exact Hy.
  - rewrite Hl. exact Hdefault.
Qed.

Lemma store_entries_app (k : nat) (h ext : Store.store)
      (entries : list (string * Store.sval)) (D : dict) :
  Store.all_some (Store.on_entry (Store.deref k h)) entries = Some D ->
  Store.all_some (Store.on_entry (Store.deref k (h ++ ext))) entries = Some D.
Proof.
  apply all_some_impl. apply on_entry_impl. intros a b.
  apply store_deref_app.
Qed.

Lemma store_items_app (k : nat) (h ext : Store.store)
      (items : list Store.sval) (xs : list value) :
  Store.all_some (Store.deref k h) items = Some xs ->
  Store.all_some (Store.deref k (h ++ ext)) items = Some xs.
Proof.
  apply all_some_impl. intros a b. apply store_deref_app.
Qed.

Lemma store_deref_none (k : nat) (h : Store.store) :
  Store.deref k h Store.SNone = Some VNone.
Proof. destruct k; reflexivity. Qed.

Lemma store_deref_str (k : nat) (h : Store.store) (s : string) :
  Store.deref k h (Store.SStr s) = Some (VStr s).
Proof. destruct k; reflexivity. Qed.

Lemma store_deref_new_dict (k : nat) (h : Store.store)
      (entries : list (string * Store.sval)) (D : dict) :
  Store.all_some (Store.on_entry (Store.deref k h)) entries = Some D ->
  Store.deref (S k) (h ++ [Store.ODict entries]) (Store.SRef (List.length h))
  = Some (VDict D).
Proof.
  intros HD. rewrite store_deref_ref, store_load_new.
  now rewrite (store_entries_app _ _ [Store.ODict entries] _ _ HD).
Qed.

Lemma store_deref_new_list (k : nat) (h : Store.store)
      (items : list Store.sval) (xs : list value) :
  Store.all_some (Store.deref k h) items = Some xs ->
  Store.deref (S k) (h ++ [Store.OList items]) (Store.SRef (List.length h))
  = Some (VList xs).
Proof.
  intros Hxs. rewrite store_deref_ref, store_load_new.
  now rewrite (store_items_app _ _ [Store.OList items] _ _ Hxs).
Qed.

(** What [merge_metadata] does in the store: it allocates, and its result
    stands for the result on values. *)
Lemma store_merge_metadata (k : nat) (h : Store.store) (now : string)
      (Es Ns : list (string * Store.sval)) (E N : dict) :
  Store.all_some (Store.on_entry (Store.deref (S (S k)) h)) Es = Some E ->
  Store.all_some (Store.on_entry (Store.deref (S (S k)) h)) Ns = Some N ->
  exists r ext,
    Store.merge_metadata now Es Ns h = (r, h ++ ext)
    /\ match r, merge_metadata now E N with
       | Ok sv, Ok y => Store.deref (S (S k)) (h ++ ext) sv = Some y
       | Err a, Err b => a = b
       | _, _ => False
       end.
Proof.
  intros HE HN. unfold Store.merge_metadata, merge_metadata.
  rewrite (entries_mem _ "metadata" _ _ HE), (entries_mem _ "metadata" _ _ HN).
  destruct (dict_mem "metadata" E && dict_mem "metadata" N).
  - pose proof (store_dict_get_deref _ _ "metadata" Store.SNone VNone _ _ HE
                  (store_deref_none _ _)) as Hold.
    pose proof (store_dict_get_deref _ _ "metadata" Store.SNone VNone _ _ HN
                  (store_deref_none _ _)) as Hnew.
    set (old_s := dict_get "metadata" Store.SNone Es) in *.
    set (new_s := dict_get "metadata" Store.SNone Ns) in *.
    unfold Store.mbind at 1. unfold Store.reading at 1.
    pose proof (store_as_dict_deref _ _ _ _ Hold) as Hd.
    destruct (dict_get "metadata" VNone E) as [| | | | | |MD] eqn:HMD;
      try (rewrite Hd; exists (Err TypeError), []; rewrite app_nil_r;
           split; reflexivity).
    destruct Hd as (mes & Hmes & HMes). rewrite Hmes.
    unfold Store.mbind at 1. unfold Store.new_object at 1.
    unfold Store.mbind at 1. unfold Store.reading at 1.
    rewrite (store_get_app _ _ [Store.ODict mes] _ "export_date" _ _ Hnew).
    pose proof (store_get_deref _ _ _ "export_date" (Store.SStr now) (VStr now)
                  _ Hnew (store_deref_str _ _ _)) as Hget.
    destruct (Store.get new_s "export_date" (Store.SStr now) h) as [u|a],
             (py_get (dict_get "metadata" VNone N) "export_date" (VStr now))
        as [y|b]; cbn [bind]; try contradiction.
    2:{ exists (Err a), [Store.ODict mes]. split; [reflexivity|exact Hget]. }
    unfold Store.mbind at 1. rewrite store_dict_assign_new.
    unfold Store.mbind at 1. unfold Store.reading at 1.
    rewrite (store_get_app _ _ _ _ "export_date" _ _ Hold).
    pose proof (store_get_deref _ _ _ "export_date" Store.SNone VNone
                  _ Hold (store_deref_none _ _)) as Hprev.
    destruct (Store.get old_s "export_date" Store.SNone h) as [p|a];
      cbn [py_get] in Hprev; [|contradiction].
    cbn [py_get bind].
    unfold Store.mbind at 1. rewrite store_dict_assign_new.
    eexists; eexists. split; [reflexivity|].
    apply store_deref_new_dict.
    apply entries_set; [exact Hprev|].
    apply entries_set; [exact Hget|exact HMes].
  - unfold Store.mbind, Store.new_object, Store.ret.
    eexists; eexists. split; [reflexivity|].
    apply store_dict_get_deref.
    + now apply store_entries_app.
    + now apply (store_deref_new_dict (S k) h [] []).
Qed.

(** What [merge_data] does in the store. *)
Lemma store_merge_data (k : nat) (h : Store.store)
      (Es Ns : list (string * Store.sval)) (E N : dict) :
  Store.all_some (Store.on_entry (Store.deref (S (S k)) h)) Es = Some E ->
  Store.all_some (Store.on_entry (Store.deref (S (S k)) h)) Ns = Some N ->
  exists r ext,
    Store.merge_data Es Ns h = (r, h ++ ext)
    /\ match r, merge_data E N with
       | Ok sv, Ok y => Store.deref (S (S k)) (h ++ ext) sv = Some y
       | Err a, Err b => a = b
       | _, _ => False
       end.
Proof.
  intros HE HN. unfold Store.merge_data, merge_data.
  rewrite (entries_mem _ "data" _ _ HE), (entries_mem _ "data" _ _ HN).
  destruct (dict_mem "data" E && dict_mem "data" N).
  - pose proof (store_dict_get_deref _ _ "data" Store.SNone VNone _ _ HE
                  (store_deref_none _ _)) as Hold.
    pose proof (store_dict_get_deref _ _ "data" Store.SNone VNone _ _ HN
                  (store_deref_none _ _)) as Hnew.
    set (old_s := dict_get "data" Store.SNone Es) in *.
    set (new_s := dict_get "data" Store.SNone Ns) in *.
    assert (Hother :
              exists (r : outcome Store.sval) (ext : Store.store),
                (Ok new_s, h) = (r, h ++ ext)
                /\ match r with
                   | Ok sv =>
                       Store.deref (S (S k)) (h ++ ext) sv
                       = Some (dict_get "data" VNone N)
                   | Err _ => False
                   end).
    { exists (Ok new_s), []. rewrite app_nil_r. split; [reflexivity|exact Hnew]. }
    rewrite (store_find_id_field _ _ _ _ Hold).
    pose proof (store_as_list_deref _ _ _ _ Hold) as Hlo.
    pose proof (store_as_list_deref _ _ _ _ Hnew) as Hln.
    destruct (dict_get "data" VNone E) as [| | | | |exs|];
      try (rewrite Hlo; destruct (dict_get "data" VNone N); exact Hother).
    destruct Hlo as (eitems & -> & Hexs).
    destruct (dict_get "data" VNone N) as [| | | | |nxs|];
      try (rewrite Hln; exact Hother).
    destruct Hln as (nitems & -> & Hnxs).
    destruct (_find_id_field (VList exs)) as [f|].
    + unfold Store.mbind at 1. unfold Store.reading at 1.
      pose proof (store_collect_ids k h f eitems exs
                    (proj1 (all_some_Forall2 _ _ _) Hexs)) as Hids.
      destruct (Store.collect_ids f eitems h) as [ids_s|a],
               (collect_ids f exs) as [ids_v|b]; cbn [bind];
        try contradiction.
      2:{ exists (Err a), []. rewrite app_nil_r. split; [reflexivity|exact Hids]. }
      unfold Store.mbind at 1. unfold Store.new_object at 1.
      unfold Store.mbind at 1.
      destruct (store_append_new k h f ids_s ids_v Hids nitems nxs
                  (proj1 (all_some_Forall2 _ _ _) Hnxs) eitems exs
                  (proj1 (all_some_Forall2 _ _ _) Hexs))
        as (cur' & Hrun & Hfinal).
      rewrite Hrun.
      destruct (append_new f ids_v nxs exs) as [final|ex]; cbn [bind].
      * eexists; eexists. split; [reflexivity|].
        apply store_deref_new_list. apply all_some_Forall2.
        now apply Hfinal.
      * eexists; eexists. split; reflexivity.
    + unfold Store.mbind, Store.new_object, Store.ret.
      eexists; eexists. split; [reflexivity|].
      apply store_deref_new_list. apply all_some_Forall2.
      apply Forall2_app; now apply all_some_Forall2.
  - unfold Store.mbind, Store.new_object, Store.ret.
    eexists; eexists. split; [reflexivity|].
    apply store_dict_get_deref.
    + now apply store_entries_app.
    + now apply (store_deref_new_dict (S k) h [] []).
Qed.

(** The function in the store and the function on values: the run only
    allocates, and its result, an exception or a reference, stands for
    the result on values. *)
Lemma store_merge_json_data (k : nat) (h : Store.store) (now : string)
      (e n : nat) (E N : dict) :
  Store.deref (S (S (S k))) h (Store.SRef e) = Some (VDict E) ->
  Store.deref (S (S (S k))) h (Store.SRef n) = Some (VDict N) ->
  exists r ext,
    Store.merge_json_data now e n h = (r, h ++ ext)
    /\ match r, merge_json_data now E N with
       | Ok l, Ok R =>
           Store.deref (S (S (S k))) (h ++ ext) (Store.SRef l) = Some (VDict R)
       | Err a, Err b => a = b
       | _, _ => False
       end.
Proof.
  intros He Hn. unfold Store.merge_json_data, merge_json_data.
  destruct (store_as_dict_deref _ _ _ _ He) as (Es & HEs & HE).
  destruct (store_as_dict_deref _ _ _ _ Hn) as (Ns & HNs & HN).
  unfold Store.mbind at 1. unfold Store.reading at 1. rewrite HEs.
  unfold Store.mbind at 1. unfold Store.reading at 1. rewrite HNs.
  unfold Store.mbind at 1.
  destruct (store_merge_metadata k h now Es Ns E N HE HN)
    as (r1 & ext1 & Hrun1 & Hres1).
  rewrite Hrun1.
  destruct r1 as [md_s|a], (merge_metadata now E N) as [md|b]; cbn [bind];
    try contradiction.
  2:{ exists (Err a), ext1. split; [reflexivity|exact Hres1]. }
  unfold Store.mbind at 1.
  destruct (store_merge_data k (h ++ ext1) Es Ns E N
              (store_entries_app _ _ ext1 _ _ HE)
              (store_entries_app _ _ ext1 _ _ HN))
    as (r2 & ext2 & Hrun2 & Hres2).
  rewrite Hrun2.
  destruct r2 as [data_s|a], (merge_data E N) as [data|b]; cbn [bind];
    try contradiction.
  2:{ exists (Err a), (ext1 ++ ext2). rewrite app_assoc.
      split; [reflexivity|exact Hres2]. }
  unfold Store.new_object.
  exists (Ok (List.length ((h ++ ext1) ++ ext2))),
    (ext1 ++ ext2
          ++ [Store.ODict [("metadata", md_s); ("data", data_s)]]).
  split; [now rewrite !app_assoc|].
  replace (h ++ ext1 ++ ext2
             ++ [Store.ODict [("metadata", md_s); ("data", data_s)]])
    with (((h ++ ext1) ++ ext2)
            ++ [Store.ODict [("metadata", md_s); ("data", data_s)]])
    by now rewrite !app_assoc.
  apply store_deref_new_dict.
  cbn [Store.all_some]. unfold Store.on_entry. cbn [fst snd].
  rewrite (store_deref_app _ _ ext2 _ _ Hres1), Hres2. reflexivity.
Qed.

(** ** Purity of the merger *)

(** On an Export Record as the new side the clock is read for nothing:
    [export_date] is there, and the default is not used. *)
Lemma merge_json_data_clock (now1 now2 : string) (E N : dict) :
  export_record N ->
  merge_json_data now1 E N = merge_json_data now2 E N.
Proof.
  intros (mn & Hmn & Hdate & _ & _).
  unfold merge_json_data, merge_metadata.
  destruct (dict_mem "metadata" E && dict_mem "metadata" N); [|reflexivity].
  destruct (dict_get "metadata" VNone E); try reflexivity.
  unfold dict_get. rewrite Hmn. cbn [py_get bind].
  rewrite dict_mem_lookup in Hdate. unfold dict_get.
  destruct (dict_lookup "export_date" mn); [reflexivity|discriminate].
Qed.

Lemma denotes_app (h ext : Store.store) (l : nat) (R : dict) :
  denotes h l R -> denotes (h ++ ext) l R.
Proof.
  intros (fuel & H). exists fuel. now apply store_deref_app.
Qed.

Lemma denotes_deep (h : Store.store) (l : nat) (R : dict) :
  denotes h l R ->
  exists k, Store.deref (S (S (S k))) h (Store.SRef l) = Some (VDict R).
Proof.
  intros (fuel & H). exists fuel. now do 3 apply store_deref_mono.
Qed.

(** C9: [merge_json_data] on two Export Records that live in a store.
    A run changes no object that was there (it only allocates), so both
    records still stand for the same values after it; run again later,
    from the store the first run left and with another reading of the
    clock, it ends the same way: with the same exception, or with a
    record that stands for the same value, the one the function on
    values gives for the two records. *)
Theorem merge_json_data_is_pure
        (now1 now2 : string) (h : Store.store) (e n : nat) (E N : dict) :
  denotes h e E ->
  denotes h n N ->
  export_record E ->
  export_record N ->
  exists r1 h1 r2 h2,
    Store.merge_json_data now1 e n h = (r1, h1)
    /\ Store.merge_json_data now2 e n h1 = (r2, h2)
    /\ Store.preserves h h1
    /\ Store.preserves h1 h2
    /\ denotes h1 e E /\ denotes h1 n N
    /\ denotes h2 e E /\ denotes h2 n N
    /\ merge_json_data now1 E N = merge_json_data now2 E N
    /\ same_result h1 h2 r1 r2 (merge_json_data now1 E N).
Proof.
  intros He Hn _ HN.
  destruct (denotes_deep _ _ _ He) as (k1 & He1).
  destruct (denotes_deep _ _ _ Hn) as (k2 & Hn1).
  assert (Hdeep : exists k,
             Store.deref (S (S (S k))) h (Store.SRef e) = Some (VDict E)
             /\ Store.deref (S (S (S k))) h (Store.SRef n) = Some (VDict N)).
  { exists (k1 + k2)%nat. split.
    - clear - He1. induction k2 as [|k2 IH].
      + now rewrite Nat.add_0_r.
      + rewrite Nat.add_succ_r. now apply store_deref_mono.
    - clear - Hn1. induction k1 as [|k1 IH]; [exact Hn1|].
      now apply store_deref_mono. }
  destruct Hdeep as (k & Hek & Hnk).
  destruct (store_merge_json_data k h now1 e n E N Hek Hnk)
    as (r1 & ext1 & Hrun1 & Hres1).
  destruct (store_merge_json_data k (h ++ ext1) now2 e n E N
              (store_deref_app _ _ ext1 _ _ Hek)
              (store_deref_app _ _ ext1 _ _ Hnk))
    as (r2 & ext2 & Hrun2 & Hres2).
  pose proof (merge_json_data_clock now1 now2 E N HN) as Hclock.
  exists r1, (h ++ ext1), r2, ((h ++ ext1) ++ ext2).
  split; [exact Hrun1|]. split; [exact Hrun2|].
  split; [apply store_preserves_app|]. split; [apply store_preserves_app|].
  split; [now apply denotes_app|]. split; [now apply denotes_app|].
  split; [now do 2 apply denotes_app|]. split; [now do 2 apply denotes_app|].
  split; [exact Hclock|].
  unfold same_result. rewrite <- Hclock in Hres2.
  destruct r1 as [l1|a], r2 as [l2|b], (merge_json_data now1 E N) as [R|c];
    try contradiction.
  - split; eexists; eassumption.
  - split; assumption.
Qed.

Lemma merge_json_data_is_pure_witness :
  denotes sample_store 3 (sample_record "2024-01-01" (VList [entry 1 "a"]))
  /\ denotes sample_store 8
             (sample_record "2024-02-01" (VList [entry 1 "b"; entry 2 "c"]))
  /\ export_record (sample_record "2024-01-01" (VList [entry 1 "a"]))
  /\ export_record
       (sample_record "2024-02-01" (VList [entry 1 "b"; entry 2 "c"]))
  /\ exists r1 h1 r2 h2,
      Store.merge_json_data "2024-03-01T10:00:00" 3 8 sample_store = (r1, h1)
      /\ Store.merge_json_data "2024-03-01T10:00:05" 3 8 h1 = (r2, h2)
      /\ Store.preserves sample_store h1
      /\ Store.preserves h1 h2
      /\ denotes h1 3 (sample_record "2024-01-01" (VList [entry 1 "a"]))
      /\ denotes h1 8
                 (sample_record "2024-02-01" (VList [entry 1 "b"; entry 2 "c"]))
      /\ denotes h2 3 (sample_record "2024-01-01" (VList [entry 1 "a"]))
      /\ denotes h2 8
                 (sample_record "2024-02-01" (VList [entry 1 "b"; entry 2 "c"]))
      /\ merge_json_data "2024-03-01T10:00:00"
           (sample_record "2024-01-01" (VList [entry 1 "a"]))
           (sample_record "2024-02-01" (VList [entry 1 "b"; entry 2 "c"]))
         = merge_json_data "2024-03-01T10:00:05"
             (sample_record "2024-01-01" (VList [entry 1 "a"]))
             (sample_record "2024-02-01" (VList [entry 1 "b"; entry 2 "c"]))
      /\ same_result h1 h2 r1 r2
           (merge_json_data "2024-03-01T10:00:00"
              (sample_record "2024-01-01" (VList [entry 1 "a"]))
              (sample_record "2024-02-01" (VList [entry 1 "b"; entry 2 "c"]))).
Proof.
  assert (H1 : denotes sample_store 3
                 (sample_record "2024-01-01" (VList [entry 1 "a"])))
    by (exists 3%nat; reflexivity).
  assert (H2 : denotes sample_store 8
                 (sample_record "2024-02-01"
                                (VList [entry 1 "b"; entry 2 "c"])))
    by (exists 3%nat; reflexivity).
  pose proof (sample_record_export_record "2024-01-01" (VList [entry 1 "a"]))
    as H3.
  pose proof (sample_record_export_record
                "2024-02-01" (VList [entry 1 "b"; entry 2 "c"])) as H4.
  split; [exact H1|]. split; [exact H2|]. split; [exact H3|].
  split; [exact H4|].
  exact (merge_json_data_is_pure
           "2024-03-01T10:00:00" "2024-03-01T10:00:05" sample_store 3 8
           _ _ H1 H2 H3 H4).
Defined.

(** The run on the sample store: three objects are allocated, the merged
    metadata, the merged list and the record returned; the nine objects
    that were there are as they were. *)
Example merge_json_data_sample_run :
  Store.merge_json_data "2024-03-01T10:00:00" 3 8 sample_store
  = (Ok 11%nat,
     sample_store
       ++ [Store.ODict [("export_date", Store.SStr "2024-01-01");
                        ("export_type", Store.SStr "LibraryExporter");
                        ("update_date", Store.SStr "2024-02-01");
                        ("previous_export_date", Store.SStr "2024-01-01")];
           Store.OList [Store.SRef 1; Store.SRef 6];
           Store.ODict [("metadata", Store.SRef 9); ("data", Store.SRef 10)]]).
Proof. reflexivity. Qed.

(** Outside the Export Records the clock shows: a new record whose
    metadata has no [export_date] gets the time of the run as
    [update_date]. *)
Example merge_json_data_reads_clock :
  merge_json_data "10:00:00" (sample_record "2024-01-01" VNone)
                  [("metadata", VDict []); ("data", VNone)]
  <> merge_json_data "10:00:05" (sample_record "2024-01-01" VNone)
                     [("metadata", VDict []); ("data", VNone)].
Proof. discriminate. Qed.

(** * Further properties *)

(** ** The executor: bounds on what a run does *)

Lemma retry_without_attempts_none_aux
      (int_of_str : string -> option Z)
      (time_sleep : number -> option exn) (St A : Type)
      (func : St -> outcome A * St) (max_retries : Z)
      (delay backoff_factor : number) (retry_on_status : option (list Z))
      (s : St) (tr : list event) :
  max_retries <= 0 ->
  retry_on_api_error int_of_str time_sleep func max_retries delay
                     backoff_factor retry_on_status (s, tr)
  = Some (Returned None, (s, tr)).
Proof.
  intros Hle. unfold retry_on_api_error. cbn [fst snd].
  apply retry_loop_no_attempt. lia.
Qed.




(** A run that sleeps after its last invocation: the initial delay is an
    int beyond the range of the doubles, the server's hint is slept, and
    the product with the double 2.0 raises [OverflowError]. *)
Example retry_on_api_error_overflow :
  retry_on_api_error decimal_int sample_sleep
    (scripted [ESpotify (e429_after "1")] 42) 3 (NInt (10 ^ 400))
    default_backoff_factor None (0%nat, [])
  = Some (Raised OverflowError, (1%nat, [Invoke; Sleep (NInt 1)])).
Proof. vm_compute. reflexivity. Qed.

Lemma Qtrunc_mono (c c' : Q) :
  (0 <= c)%Q -> (c <= c')%Q -> Qtrunc c <= Qtrunc c'.
Proof.
  intros H0 Hle. unfold Qtrunc.
  assert (H0' : (0 <= c')%Q) by (eapply Qle_trans; eassumption).
  apply Qle_bool_iff in H0. apply Qle_bool_iff in H0'. rewrite H0, H0'.
  now apply Qfloor_resp_le.
Qed.

Lemma backoff_step_grows (c bf : Q) :
  (0 <= c)%Q -> (1 <= bf)%Q -> (c <= c * bf)%Q.
Proof.
  intros H0 H1.
  setoid_replace c with (1 * c)%Q at 1 by ring.
  setoid_replace (c * bf)%Q with (bf * c)%Q by ring.
  now apply Qmult_le_compat_r.
Qed.

Lemma backoff_last (bf : number) (n : nat) :
  forall cur,
    backoff bf (S n) cur
    = match backoff bf n cur with
      | Ok c => num_mul c bf
      | Err ex => Err ex
      end.
Proof.
  induction n as [|n IH]; intros cur.
  - cbn [backoff]. destruct (num_mul cur bf); reflexivity.
  - change (backoff bf (S (S n)) cur)
      with (match num_mul cur bf with
            | Ok next => backoff bf (S n) next
            | Err ex => Err ex
            end).
    cbn [backoff]. destruct (num_mul cur bf) as [next|ex]; [|reflexivity].
    apply IH.
Qed.

Lemma waits_backoff (int_of_str : string -> option Z)
      (time_sleep : number -> option exn) (bf cur cur' : number)
      (es : list SpotifyException) (delays : list number) :
  waits int_of_str time_sleep bf cur es delays cur' ->
  backoff bf (List.length es) cur = Ok cur'.
Proof.
  induction 1 as [cur|cur next cur' d e es delays Hd Hsleep Hmul Hw IH];
    [reflexivity|].
  cbn [List.length backoff]. now rewrite Hmul.
Qed.

(** Without hints and with exact products, the delays slept are the whole
    parts of [q * bq ^ j], none of them below that of [q]. *)
Lemma waits_nondecreasing (int_of_str : string -> option Z)
      (time_sleep : number -> option exn) (bf : number) (bq : Q) :
  (1 <= bq)%Q ->
  forall (cur cur' : number) (es : list SpotifyException)
         (delays : list number),
    waits int_of_str time_sleep bf cur es delays cur' ->
    forall q,
      (0 <= q)%Q ->
      (forall j, (j <= List.length es)%nat ->
                 exists c, backoff bf j cur = Ok c
                           /\ has_value c (q * bq ^ Z.of_nat j)) ->
      Forall (fun e => retry_after_header e = None) es ->
      exists ns,
        delays = map NInt ns
        /\ Forall (Z.le (Qtrunc q)) ns
        /\ nondecreasing ns.
Proof.
  intros Hbq.
  induction 1 as [cur|cur next cur' d e es delays Hd Hsleep Hmul Hw IH];
    intros q Hq Hexact Hhints.
  - exists []. split; [reflexivity|]. split; [constructor|exact I].
  - inversion Hhints as [|? ? He Hes]; subst.
    destruct (Hexact 0%nat ltac:(simpl; lia)) as (c0 & Hc0 & Hcur).
    cbn [backoff] in Hc0. inversion Hc0; subst c0. clear Hc0.
    assert (Hcur' : has_value cur q).
    { apply (has_value_comp cur (q * bq ^ Z.of_nat 0) q); [|exact Hcur].
      simpl. ring. }
    rewrite (retry_after_of_cases int_of_str e cur q Hcur'), He in Hd.
    inversion Hd; subst d. clear Hd.
    assert (Hstep : (q <= q * bq)%Q) by now apply backoff_step_grows.
    assert (Hq' : (0 <= q * bq)%Q) by (eapply Qle_trans; eassumption).
    destruct (IH (q * bq)%Q Hq') as (ns & -> & Habove & Hnd).
    + intros j Hj.
      destruct (Hexact (S j) ltac:(simpl; lia)) as (c & Hc & Hval).
      cbn [backoff] in Hc. rewrite Hmul in Hc.
      exists c. split; [exact Hc|].
      apply (has_value_comp c (q * bq ^ Z.of_nat (S j))); [|exact Hval].
      rewrite Nat2Z.inj_succ, <- Z.add_1_r.
      destruct (Qeq_dec bq 0) as [Hz|Hnz].
      * rewrite Hz in Hbq. unfold Qle in Hbq. simpl in Hbq. lia.
      * rewrite Qpower_plus by exact Hnz. simpl. ring.
    + exact Hes.
    + exists (Qtrunc q :: ns). split; [reflexivity|].
      assert (Hall : Forall (Z.le (Qtrunc q)) ns).
      { eapply Forall_impl; [|exact Habove].
        intros n Hn. eapply Z.le_trans; [|exact Hn].
        now apply Qtrunc_mono. }
      split; [constructor; [lia|exact Hall]|].
      split; [exact Hall|exact Hnd].
Qed.

(** X2: when the initial delay stands for a rational [dq >= 0], the
    backoff factor for a rational [bq >= 1], and the products of the
    delay arithmetic are exact (each is computed without an exception
    and stands for [dq * bq ^ i], which the products of doubles that
    round do not), the delays of a run are ints that never shrink from
    one retry to the next, as long as the failures carry no
    [Retry-After] header. *)
Theorem retry_delays_never_shrink
        (int_of_str : string -> option Z)
        (time_sleep : number -> option exn) (St A : Type)
        (func : St -> outcome A * St) (max_retries : Z)
        (delay backoff_factor : number) (dq bq : Q)
        (retry_on_status : option (list Z))
        (s : St) (tr : list event) :
  has_value delay dq ->
  (0 <= dq)%Q ->
  has_value backoff_factor bq ->
  (1 <= bq)%Q ->
  exact_products delay backoff_factor dq bq (Z.to_nat max_retries) ->
  (forall n, without_hints (fst (thunk_run func n s))) ->
  exists (c : completion A) (s' : St) (tr' : list event) (ns : list Z),
    retry_on_api_error int_of_str time_sleep func max_retries delay
                       backoff_factor retry_on_status (s, tr)
    = Some (c, (s', tr ++ tr'))
    /\ sleeps tr' = map NInt ns
    /\ nondecreasing ns.
Proof.
  intros Hdelay Hdq _ Hbq Hexact Hhints.
  destruct (Z_lt_le_dec max_retries 1) as [Hle|Hmax].
  - exists (Returned None), s, [], [].
    rewrite app_nil_r, retry_without_attempts_none_aux by lia.
    split; [reflexivity|]. split; [reflexivity|exact I].
  - destruct (retry_run_shape int_of_str time_sleep St A func max_retries
                delay backoff_factor retry_on_status s tr Hmax)
      as (es & delays & cur' & r & s' & Hlt & _ & Hrun & Hw & Hend).
    assert (Hnone : Forall (fun e => retry_after_header e = None) es).
    { apply Forall_forall. intros e He.
      apply (Hhints (S (List.length es))). rewrite Hrun. cbn [fst].
      apply in_or_app. left. unfold failure.
      apply (in_map (fun e0 => Err (ESpotify e0))). exact He. }
    destruct (waits_nondecreasing int_of_str time_sleep backoff_factor bq Hbq
                _ _ _ _ Hw dq Hdq) as (ns & -> & _ & Hnd).
    { intros j Hj. apply Hexact. lia. }
    { exact Hnone. }
    destruct Hend
      as [(_ & Hret)|(e & slept & ex & _ & _ & Hmore & Hwait & Hret)].
    + exists (completion_of r), s', (retry_events (map NInt ns) ++ [Invoke]), ns.
      split; [exact Hret|].
      rewrite sleeps_app, sleeps_retry_events. simpl.
      rewrite app_nil_r. split; [reflexivity|exact Hnd].
    + destruct (wait_inversion int_of_str time_sleep backoff_factor
                               e cur' slept (Err ex) Hwait)
        as [(d & -> & Hd & Hsleep & Hmul)|(-> & _)].
      * exfalso.
        destruct (Hexact (S (List.length es)) ltac:(lia)) as (c & Hc & _).
        rewrite backoff_last, (waits_backoff _ _ _ _ _ _ _ Hw), Hmul in Hc.
        discriminate Hc.
      * exists (Raised ex), s',
          (retry_events (map NInt ns) ++ [Invoke] ++ []), ns.
        split; [exact Hret|].
        rewrite !sleeps_app, sleeps_retry_events. simpl.
        rewrite app_nil_r. split; [reflexivity|exact Hnd].
Qed.

Lemma scripted_without_hints (A : Type) (v : A) (n : nat) :
  without_hints (fst (thunk_run (scripted [ESpotify e429; ESpotify e503] v)
                                n 0%nat)).
Proof.
  assert (Hgen : forall n m e,
             In (Err (ESpotify e))
                (fst (thunk_run (scripted [ESpotify e429; ESpotify e503] v)
                                n m)) ->
             retry_after_header e = None).
  { clear n. induction n as [|n IH]; intros m e Hin; [destruct Hin|].
    cbn [thunk_run] in Hin. unfold scripted at 1 in Hin.
    destruct (thunk_run (scripted [ESpotify e429; ESpotify e503] v) n (S m))
      as [rs s2] eqn:Hrun.
    cbn [fst] in Hin. destruct Hin as [Hhead|Htail].
    - destruct m as [|[|m]]; cbn in Hhead;
        try (inversion Hhead; subst e; reflexivity).
      destruct m; discriminate Hhead.
    - apply (IH (S m) e). rewrite Hrun. exact Htail. }
  intros e Hin. exact (Hgen n 0%nat e Hin).
Qed.

Lemma retry_delays_never_shrink_witness :
  has_value (NInt 2) 2
  /\ (0 <= 2)%Q
  /\ has_value default_backoff_factor 2
  /\ (1 <= 2)%Q
  /\ exact_products (NInt 2) default_backoff_factor 2 2 (Z.to_nat 3)
  /\ (forall n,
         without_hints
           (fst (thunk_run (scripted [ESpotify e429; ESpotify e503] 42)
                           n 0%nat)))
  /\ exists (c : completion Z) (s' : nat) (tr' : list event) (ns : list Z),
      retry_on_api_error decimal_int sample_sleep
        (scripted [ESpotify e429; ESpotify e503] 42) 3 (NInt 2)
        default_backoff_factor None (0%nat, [])
      = Some (c, (s', [] ++ tr'))
      /\ sleeps tr' = map NInt ns
      /\ nondecreasing ns.
Proof.
  assert (H1 : has_value (NInt 2) 2) by (eexists; split; reflexivity).
  assert (H2 : (0 <= 2)%Q) by (unfold Qle; simpl; lia).
  assert (H3 : has_value default_backoff_factor 2)
    by (eexists; split; reflexivity).
  assert (H4 : (1 <= 2)%Q) by (unfold Qle; simpl; lia).
  assert (H5 : exact_products (NInt 2) default_backoff_factor 2 2
                              (Z.to_nat 3)).
  { intros [|[|[|[|i]]]] Hi; [| | | |simpl in Hi; lia];
      (eexists; split; [reflexivity|]); eexists; split; reflexivity. }
  split; [exact H1|]. split; [exact H2|]. split; [exact H3|].
  split; [exact H4|]. split; [exact H5|].
  split; [exact (scripted_without_hints Z 42)|].
  exact (retry_delays_never_shrink
           decimal_int sample_sleep nat Z
           (scripted [ESpotify e429; ESpotify e503] 42)
           3 (NInt 2) default_backoff_factor 2 2 None 0%nat []
           H1 H2 H3 H4 H5 (scripted_without_hints Z 42)).
Defined.

(** The run of the decorator's settings against two failures: the
    delays are 2 and 4 seconds. *)
Example retry_delays_sample_run :
  retry_on_api_error decimal_int sample_sleep
    (scripted [ESpotify e429; ESpotify e503] 42) 3 (NInt 2)
    default_backoff_factor None (0%nat, [])
  = Some (Returned (Some 42),
          (3%nat, [Invoke; Sleep (NInt 2); Invoke; Sleep (NInt 4); Invoke])).
Proof. vm_compute. reflexivity. Qed.

(** X3: an empty [retry_on_status] list is taken as it is (only [None]
    selects the default statuses), and nothing is retried then: the run
    is one invocation, whose value is returned or whose exception is
    propagated, with no delay. *)
Theorem retry_with_empty_status_list
        (int_of_str : string -> option Z)
        (time_sleep : number -> option exn) (St A : Type)
        (func : St -> outcome A * St) (max_retries : Z)
        (delay backoff_factor : number) (s s' : St) (tr : list event)
        (r : outcome A) :
  1 <= max_retries ->
  func s = (r, s') ->
  retry_on_api_error int_of_str time_sleep func max_retries delay
                     backoff_factor (Some []) (s, tr)
  = Some (completion_of r, (s', tr ++ [Invoke])).
Proof.
  intros Hmax Hf. unfold retry_on_api_error. cbn [fst snd].
  destruct r as [v|ex]; cbn [completion_of].
  - apply retry_loop_returns; [lia|exact Hf].
  - apply retry_loop_fatal; [lia|exact Hf|].
    destruct ex; reflexivity.
Qed.

Lemma retry_with_empty_status_list_witness :
  1 <= 3
  /\ scripted [ESpotify e429] 42 0%nat = (Err (ESpotify e429), 1%nat)
  /\ retry_on_api_error decimal_int sample_sleep (scripted [ESpotify e429] 42)
                        3 (NInt 2) default_backoff_factor
                        (Some []) (0%nat, [])
     = Some (Raised (ESpotify e429), (1%nat, [Invoke])).
Proof.
  assert (H1 : 1 <= 3) by lia.
  assert (H2 : scripted [ESpotify e429] 42 0%nat
               = (Err (ESpotify e429), 1%nat)) by reflexivity.
  split; [exact H1|]. split; [exact H2|].
  exact (retry_with_empty_status_list
           decimal_int sample_sleep nat Z (scripted [ESpotify e429] 42)
           3 (NInt 2) default_backoff_factor
           0%nat 1%nat [] (Err (ESpotify e429)) H1 H2).
Defined.

(** ** Offset mode: the calls a traversal makes *)

Lemma thunk_run_call_log (C : Type)
      (api : string -> list value -> dict -> C -> outcome dict * C)
      (method : string) (args : list value) (kwargs : dict) (n : nat) :
  forall c : client C,
    snd (snd (thunk_run (spotify_call api method args kwargs) n c))
    = snd c ++ repeat (mkRequest method args kwargs) n.
Proof.
  induction n as [|n IH]; intros c.
  - simpl. now rewrite app_nil_r.
  - cbn [thunk_run].
    destruct (spotify_call api method args kwargs c) as [r c1] eqn:Hcall.
    specialize (IH c1).
    destruct (thunk_run (spotify_call api method args kwargs) n c1)
      as [rs c2].
    cbn [snd] in *. rewrite IH.
    unfold spotify_call in Hcall.
    destruct (api method args kwargs (fst c)); inversion Hcall; subst.
    cbn [snd repeat]. now rewrite <- app_assoc.
Qed.

(** A client call made through the executor with the settings of
    [paginate] reaches the client one to three times. *)
Lemma retried_call_log (int_of_str : string -> option Z)
      (time_sleep : number -> option exn) (C : Type)
      (api : string -> list value -> dict -> C -> outcome dict * C)
      (method : string) (args : list value) (kwargs : dict)
      (w w' : world C) (r : completion dict) :
  retry_on_api_error int_of_str time_sleep
                     (spotify_call api method args kwargs)
                     API_RETRY_ATTEMPTS (NInt API_RETRY_DELAY)
                     default_backoff_factor None w
  = Some (r, w') ->
  exists n,
    (1 <= n <= 3)%nat
    /\ snd (fst w') = snd (fst w) ++ repeat (mkRequest method args kwargs) n.
Proof.
  destruct w as [c tr]. intros H.
  destruct (retry_run_shape int_of_str time_sleep (client C) dict
              (spotify_call api method args kwargs)
              API_RETRY_ATTEMPTS (NInt API_RETRY_DELAY)
              default_backoff_factor None c tr
              ltac:(unfold API_RETRY_ATTEMPTS; lia))
    as (es & delays & cur' & r0 & c' & Hlt & _ & Hrun & _
        & [(_ & Hret)|(e & slept & ex & _ & _ & _ & _ & Hret)]);
    rewrite Hret in H; inversion H; subst; cbn [fst snd];
    exists (S (List.length es));
    (split; [unfold API_RETRY_ATTEMPTS in Hlt; lia|]);
    pose proof (thunk_run_call_log C api method args kwargs
                  (S (List.length es)) c) as Hlog;
    rewrite Hrun in Hlog; exact Hlog.
Qed.

Lemma next_pages_call_log (int_of_str : string -> option Z)
      (time_sleep : number -> option exn) (C : Type)
      (api : string -> list value -> dict -> C -> outcome dict * C)
      (w w' : world C) (p : dict) (ps : list dict) :
  next_pages int_of_str time_sleep api w p ps w' ->
  exists reqs,
    snd (fst w') = snd (fst w) ++ reqs
    /\ (List.length ps <= List.length reqs <= 3 * List.length ps)%nat
    /\ Forall (fun q => req_method q = "next") reqs.
Proof.
  induction 1 as [w p Hnext|w w1 w' p p1 ps Hnext Hfetch Hrest IH].
  - exists []. rewrite app_nil_r. repeat split; simpl; try lia. constructor.
  - destruct IH as (reqs & Hlog & Hlen & Hall).
    unfold fetch_next in Hfetch.
    destruct (retried_call_log int_of_str time_sleep C api _ _ _ _ _ _ Hfetch)
      as (n & Hn & Hlog1).
    exists (repeat (mkRequest "next" [VDict p] []) n ++ reqs).
    rewrite Hlog, Hlog1, <- app_assoc. split; [reflexivity|].
    rewrite length_app, repeat_length. split; [simpl; lia|].
    apply Forall_app. split; [|exact Hall].
    apply Forall_forall. intros q Hq. apply repeat_spec in Hq.
    now subst q.
Qed.

(** The pages behind a result of the loop of [paginate]. *)
Lemma paginate_loop_returns (int_of_str : string -> option Z)
      (time_sleep : number -> option exn) (C : Type)
      (api : string -> list value -> dict -> C -> outcome dict * C) :
  forall (fuel : nat) (p : dict) (results items : list value)
         (w w' : world C),
    paginate_loop int_of_str time_sleep api fuel p results w
    = Some (Ok items, w') ->
    exists ps,
      next_pages int_of_str time_sleep api w p ps w'
      /\ (List.length ps < fuel)%nat.
Proof.
  induction fuel as [|fuel IH]; intros p results items w w' H;
    [discriminate H|].
  cbn [paginate_loop] in H. fold (has_next p) in H.
  destruct (has_next p) eqn:Hnext.
  - destruct (fetch_next int_of_str time_sleep api p w)
      as [[[[p1|]|ex] w1]|] eqn:Hfetch; try discriminate H.
    destruct (collect_items p1 results) as [results'|ex];
      [|discriminate H].
    apply IH in H. destruct H as (ps & Hps & Hlen).
    exists (p1 :: ps). split; [|simpl; lia].
    eapply next_pages_more; eassumption.
  - inversion H; subst. exists []. split; [|simpl; lia].
    now apply next_pages_end.
Qed.

(** X4: when [paginate] returns a Result Set, its initial call, made
    with the caller's keyword arguments and the limit, was answered with
    a page [p], the pages [ps] were fetched after it, and the client was
    called at least once and at most three times per page: first the
    list method itself, then [next]. *)
Theorem paginate_calls_per_page
        (int_of_str : string -> option Z)
        (time_sleep : number -> option exn) (C : Type)
        (api : string -> list value -> dict -> C -> outcome dict * C)
        (fuel : nat) (method : string) (args : list value) (kwargs : dict)
        (w w' : world C) (items : list value) :
  paginate int_of_str time_sleep api fuel method args kwargs w
  = Some (Ok items, w') ->
  exists (p : dict) (ps : list dict) (w1 : world C) (n : nat)
         (reqs : list request),
    retry_on_api_error int_of_str time_sleep
                       (spotify_call api method args (initial_kwargs kwargs))
                       API_RETRY_ATTEMPTS (NInt API_RETRY_DELAY)
                       default_backoff_factor None w
    = Some (Returned (Some p), w1)
    /\ next_pages int_of_str time_sleep api w1 p ps w'
    /\ snd (fst w')
       = snd (fst w)
             ++ repeat (mkRequest method args (initial_kwargs kwargs)) n
             ++ reqs
    /\ (1 <= n <= 3)%nat
    /\ (List.length ps <= List.length reqs <= 3 * List.length ps)%nat
    /\ Forall (fun q => req_method q = "next") reqs.
Proof.
  unfold paginate. rewrite with_default_limit_initial. intros H.
  destruct (retry_on_api_error int_of_str time_sleep
              (spotify_call api method args (initial_kwargs kwargs))
              API_RETRY_ATTEMPTS (NInt API_RETRY_DELAY)
              default_backoff_factor None w)
    as [[[[p|]|ex] w1]|] eqn:Hfirst; try discriminate H.
  destruct (collect_items p []) as [results|ex]; [|discriminate H].
  apply paginate_loop_returns in H. destruct H as (ps & Hpages & _).
  destruct (retried_call_log int_of_str time_sleep C api _ _ _ _ _ _ Hfirst)
    as (n & Hn & Hlog1).
  destruct (next_pages_call_log int_of_str time_sleep C api _ _ _ _ Hpages)
    as (reqs & Hlog & Hlen & Hall).
  exists p, ps, w1, n, reqs.
  split; [reflexivity|]. split; [exact Hpages|].
  rewrite Hlog, Hlog1, <- app_assoc.
  repeat split; try lia; exact Hall.
Qed.

Lemma paginate_calls_per_page_witness :
  let api := scripted_api [Err (ESpotify e429);
                           Ok (page [record "a"; record "b"] next_url);
                           Ok (page [record "c"] VNone)] in
  let playlist_items :=
    mkRequest "playlist_items" []
              [("playlist_id", VStr "p1"); ("limit", VInt 50)] in
  let next := mkRequest "next" [VDict (page [record "a"; record "b"] next_url)]
                        [] in
  paginate decimal_int sample_sleep api 2 "playlist_items" []
           [("playlist_id", VStr "p1")] ((0%nat, []), [])
  = Some (Ok [record "a"; record "b"; record "c"],
          ((3%nat, [playlist_items; playlist_items; next]),
           [Invoke; Sleep (NInt 2); Invoke; Invoke]))
  /\ exists (p : dict) (ps : list dict) (w1 : world nat) (n : nat)
            (reqs : list request),
      retry_on_api_error decimal_int sample_sleep
        (spotify_call api "playlist_items" []
                      (initial_kwargs [("playlist_id", VStr "p1")]))
        API_RETRY_ATTEMPTS (NInt API_RETRY_DELAY) default_backoff_factor
        None ((0%nat, []), [])
      = Some (Returned (Some p), w1)
      /\ next_pages decimal_int sample_sleep api w1 p ps
                    ((3%nat, [playlist_items; playlist_items; next]),
                     [Invoke; Sleep (NInt 2); Invoke; Invoke])
      /\ [playlist_items; playlist_items; next]
         = [] ++ repeat playlist_items n ++ reqs
      /\ (1 <= n <= 3)%nat
      /\ (List.length ps <= List.length reqs <= 3 * List.length ps)%nat
      /\ Forall (fun q => req_method q = "next") reqs.
Proof.
  intros api playlist_items next.
  assert (H : paginate decimal_int sample_sleep api 2 "playlist_items" []
                       [("playlist_id", VStr "p1")] ((0%nat, []), [])
              = Some (Ok [record "a"; record "b"; record "c"],
                      ((3%nat, [playlist_items; playlist_items; next]),
                       [Invoke; Sleep (NInt 2); Invoke; Invoke])))
    by reflexivity.
  split; [exact H|].
  exact (paginate_calls_per_page
           decimal_int sample_sleep nat api 2%nat "playlist_items" []
           [("playlist_id", VStr "p1")] _ _ _ H).
Defined.

(** ** Offset mode: a failure on the way *)

Lemma paginate_loop_interrupted
      (int_of_str : string -> option Z)
        (time_sleep : number -> option exn) (C : Type)
      (api : string -> list value -> dict -> C -> outcome dict * C)
      (w w2 w3 : world C) (p p_last : dict) (ps : list dict) (e : exn) :
  fetched_pages int_of_str time_sleep api w p ps p_last w2 ->
  Forall items_listed ps ->
  has_next p_last = true ->
  fetch_next int_of_str time_sleep api p_last w2 = Some (Raised e, w3) ->
  forall (fuel : nat) (results : list value),
    (List.length ps < fuel)%nat ->
    paginate_loop int_of_str time_sleep api fuel p results w = Some (Err e, w3).
Proof.
  intros Hpages. revert w3 e.
  induction Hpages as [w p|w w1 w' p p1 p_last ps Hnext Hfetch Hrest IH];
    intros w3 e Hall Hlast Hfail fuel results Hfuel.
  - destruct fuel as [|fuel]; [inversion Hfuel|].
    cbn [paginate_loop]. fold (has_next p). now rewrite Hlast, Hfail.
  - destruct fuel as [|fuel]; [inversion Hfuel|].
    inversion Hall as [|? ? Hp1 Hps]; subst.
    cbn [paginate_loop]. fold (has_next p). rewrite Hnext, Hfetch.
    rewrite (@collect_items_listed p1 results Hp1).
    apply (IH w3 e Hps Hlast Hfail). simpl in Hfuel. lia.
Qed.

(** X5: when a page fetch fails for good (a fatal error, or the third
    transient one in a row), [paginate] raises that error whatever was
    fetched before: the items of the pages already received are not
    returned. *)
Theorem paginate_returns_no_partial_result
        (int_of_str : string -> option Z)
        (time_sleep : number -> option exn) (C : Type)
        (api : string -> list value -> dict -> C -> outcome dict * C)
        (method : string) (args : list value) (kwargs : dict)
        (w w1 w2 w3 : world C) (p p_last : dict) (ps : list dict) (e : exn) :
  retry_on_api_error int_of_str time_sleep
                     (spotify_call api method args (with_default_limit kwargs))
                     API_RETRY_ATTEMPTS (NInt API_RETRY_DELAY)
                     default_backoff_factor None w
  = Some (Returned (Some p), w1) ->
  fetched_pages int_of_str time_sleep api w1 p ps p_last w2 ->
  Forall items_listed (p :: ps) ->
  has_next p_last = true ->
  fetch_next int_of_str time_sleep api p_last w2 = Some (Raised e, w3) ->
  forall fuel,
    (List.length ps < fuel)%nat ->
    paginate int_of_str time_sleep api fuel method args kwargs w = Some (Err e, w3).
Proof.
  intros Hfirst Hpages Hall Hlast Hfail fuel Hfuel.
  inversion Hall as [|? ? Hp Hps]; subst.
  unfold paginate. rewrite Hfirst, (@collect_items_listed p [] Hp).
  now apply (paginate_loop_interrupted int_of_str time_sleep C api w1 w2 w3 p p_last ps e).
Qed.

Lemma paginate_returns_no_partial_result_witness :
  let first := page [record "a"; record "b"] next_url in
  let api := scripted_api [Ok first; Err (ESpotify e404)] in
  let saved_tracks := mkRequest "current_user_saved_tracks" []
                                [("limit", VInt 50)] in
  retry_on_api_error decimal_int sample_sleep
    (spotify_call api "current_user_saved_tracks" [] (with_default_limit []))
    API_RETRY_ATTEMPTS (NInt API_RETRY_DELAY)
                     default_backoff_factor None ((0%nat, []), [])
  = Some (Returned (Some first), ((1%nat, [saved_tracks]), [Invoke]))
  /\ fetched_pages decimal_int sample_sleep api ((1%nat, [saved_tracks]), [Invoke])
                   first [] first ((1%nat, [saved_tracks]), [Invoke])
  /\ Forall items_listed [first]
  /\ has_next first = true
  /\ fetch_next decimal_int sample_sleep api first ((1%nat, [saved_tracks]), [Invoke])
     = Some (Raised (ESpotify e404),
             ((2%nat, [saved_tracks; mkRequest "next" [VDict first] []]),
              [Invoke; Invoke]))
  /\ paginate decimal_int sample_sleep api 1 "current_user_saved_tracks" [] []
              ((0%nat, []), [])
     = Some (Err (ESpotify e404),
             ((2%nat, [saved_tracks; mkRequest "next" [VDict first] []]),
              [Invoke; Invoke])).
Proof.
  intros first api saved_tracks.
  assert (H1 : retry_on_api_error decimal_int sample_sleep
                 (spotify_call api "current_user_saved_tracks" []
                               (with_default_limit []))
                 API_RETRY_ATTEMPTS (NInt API_RETRY_DELAY)
                     default_backoff_factor None ((0%nat, []), [])
               = Some (Returned (Some first),
                       ((1%nat, [saved_tracks]), [Invoke])))
    by reflexivity.
  pose proof (fetched_pages_none decimal_int sample_sleep api
                ((1%nat, [saved_tracks]), [Invoke]) first) as H2.
  assert (H3 : Forall items_listed [first])
    by (repeat constructor; apply page_items_listed).
  assert (H4 : has_next first = true) by reflexivity.
  assert (H5 : fetch_next decimal_int sample_sleep api first
                 ((1%nat, [saved_tracks]), [Invoke])
               = Some (Raised (ESpotify e404),
                       ((2%nat,
                         [saved_tracks; mkRequest "next" [VDict first] []]),
                        [Invoke; Invoke])))
    by reflexivity.
  split; [exact H1|]. split; [exact H2|]. split; [exact H3|].
  split; [exact H4|]. split; [exact H5|].
  exact (paginate_returns_no_partial_result
           decimal_int sample_sleep nat api "current_user_saved_tracks" [] []
           _ _ _ _ _ _ _ _ H1 H2 H3 H4 H5 1%nat (Nat.lt_0_succ 0)).
Defined.

(** ** Cursor mode: an item without identifier *)

(** X6: when a page signals more pages and its last item is a record
    without an [id], the walk cannot build its cursor: it raises
    [KeyError] right after that call, and the artists collected so far
    are not returned. *)
Theorem followed_artists_last_item_without_id
        (C : Type)
        (api : string -> list value -> dict -> C -> outcome dict * C)
        (w w' : client C) (p : dict) (items : list value) (d : dict)
        (artists : list value) (after : value) (fuel : nat) :
  spotify_call api "current_user_followed_artists" []
               [("limit", VInt 50); ("after", after)] w = (Ok p, w') ->
  artists_listed p ->
  artists_more p = true ->
  artists_items p = items ++ [VDict d] ->
  dict_lookup "id" d = None ->
  followed_loop api (S fuel) artists after w = Some (Err KeyError, w').
Proof.
  intros Hcall (a & l & Ha & Hl) Hmore Hitems Hid.
  cbn [followed_loop]. rewrite Hcall.
  unfold artists_items, artists_more in *. 
  assert (Hpage : followed_page p artists = Err KeyError).
  { unfold followed_page. fold (artists_of p). rewrite Ha in *.
    cbn [py_get bind]. rewrite Hl in *. subst l.
    cbn [list_extend bind]. rewrite Hmore. cbn [negb].
    assert (Hne : truthy (VList (items ++ [VDict d])) = true)
      by (destruct items; reflexivity).
    rewrite Hne. cbn [py_last]. rewrite rev_app_distr. cbn [rev app bind].
    cbn [py_getitem]. now rewrite Hid. }
  now rewrite Hpage.
Qed.

Lemma followed_artists_last_item_without_id_witness :
  let p := artists_page [record "x"; VDict [("name", VStr "y")]] next_url in
  let api := scripted_api [Ok p] in
  spotify_call api "current_user_followed_artists" []
               [("limit", VInt 50); ("after", VNone)] (0%nat, [])
  = (Ok p, (1%nat, [followed_request VNone]))
  /\ artists_listed p
  /\ artists_more p = true
  /\ artists_items p = [record "x"] ++ [VDict [("name", VStr "y")]]
  /\ dict_lookup "id" [("name", VStr "y")] = None
  /\ get_followed_artists api 1 (0%nat, [])
     = Some (Err KeyError, (1%nat, [followed_request VNone])).
Proof.
  intros p api.
  assert (H1 : spotify_call api "current_user_followed_artists" []
                 [("limit", VInt 50); ("after", VNone)] (0%nat, [])
               = (Ok p, (1%nat, [followed_request VNone]))) by reflexivity.
  pose proof (artists_page_listed [record "x"; VDict [("name", VStr "y")]]
                                  next_url) as H2.
  split; [exact H1|]. split; [exact H2|]. split; [reflexivity|].
  split; [reflexivity|]. split; [reflexivity|].
  exact (followed_artists_last_item_without_id
           nat api (0%nat, []) _ p [record "x"] [("name", VStr "y")]
           [] VNone 0%nat H1 H2 eq_refl eq_refl eq_refl).
Defined.

(** ** The merger: the metadata of the merged record *)

Lemma dict_lookup_set_other {V : Type} (k k' : string) (v : V)
      (d : list (string * V)) :
  k <> k' -> dict_lookup k (dict_set k' v d) = dict_lookup k d.
Proof.
  intros Hne. induction d as [|[k0 v0] d IH]; simpl.
  - destruct (String.eqb_spec k k'); [contradiction|reflexivity].
  - destruct (String.eqb_spec k' k0) as [->|Hk]; simpl.
    + destruct (String.eqb_spec k k0); [contradiction|reflexivity].
    + destruct (String.eqb k k0); [reflexivity|exact IH].
Qed.

(** X7: merging two Export Records gives an Export Record again.  Its
    metadata is the existing record's: every field but [update_date] and
    [previous_export_date] is as it was there, so [export_date] and
    [export_type] are the existing ones and those of the new record are
    dropped; [update_date] is the new record's [export_date], and
    [previous_export_date] is the existing record's [export_date], which
    makes it equal to the merged record's own [export_date]. *)
Theorem merge_export_records_metadata
        (now : string) (existing new merged : dict) :
  export_record existing ->
  export_record new ->
  merge_json_data now existing new = Ok merged ->
  export_record merged
  /\ exists md md_old md_new,
      dict_lookup "metadata" merged = Some (VDict md)
      /\ dict_lookup "metadata" existing = Some (VDict md_old)
      /\ dict_lookup "metadata" new = Some (VDict md_new)
      /\ (forall k, k <> "update_date" -> k <> "previous_export_date" ->
                    dict_lookup k md = dict_lookup k md_old)
      /\ dict_lookup "update_date" md = dict_lookup "export_date" md_new
      /\ dict_lookup "previous_export_date" md
         = dict_lookup "export_date" md_old
      /\ dict_lookup "previous_export_date" md = dict_lookup "export_date" md.
Proof.
  intros Hold Hnew.
  destruct (merge_metadata_export_records now Hold Hnew)
    as (mo & mn & Hmo & Hmn & Hmeta).
  unfold merge_json_data. rewrite Hmeta. cbn [bind].
  destruct (merge_data existing new) as [data|ex]; cbn [bind]; [|discriminate].
  intros H. inversion H; subst merged. clear H.
  destruct Hold as (mo' & Hmo' & Hdate_o & Htype_o & _).
  rewrite Hmo in Hmo'. inversion Hmo'; subst mo'. clear Hmo'.
  destruct Hnew as (mn' & Hmn' & Hdate_n & _ & _).
  rewrite Hmn in Hmn'. inversion Hmn'; subst mn'. clear Hmn'.
  set (md := dict_set "previous_export_date"
                      (dict_get "export_date" VNone mo)
                      (dict_set "update_date"
                                (dict_get "export_date" VNone mn) mo)).
  assert (Hkeep : forall k, k <> "update_date" -> k <> "previous_export_date" ->
                            dict_lookup k md = dict_lookup k mo).
  { intros k H1 H2. unfold md.
    rewrite dict_lookup_set_other by exact H2.
    now rewrite dict_lookup_set_other by exact H1. }
  assert (Hupd : dict_lookup "update_date" md = dict_lookup "export_date" mn).
  { unfold md. rewrite dict_lookup_set_other by discriminate.
    rewrite dict_lookup_set. unfold dict_get.
    rewrite dict_mem_lookup in Hdate_n.
    destruct (dict_lookup "export_date" mn); [reflexivity|discriminate]. }
  assert (Hprev : dict_lookup "previous_export_date" md
                  = dict_lookup "export_date" mo).
  { unfold md. rewrite dict_lookup_set. unfold dict_get.
    rewrite dict_mem_lookup in Hdate_o.
    destruct (dict_lookup "export_date" mo); [reflexivity|discriminate]. }
  split.
  - exists md. split; [reflexivity|].
    rewrite !dict_mem_lookup, !Hkeep by discriminate.
    rewrite <- !dict_mem_lookup.
    split; [exact Hdate_o|]. split; [exact Htype_o|reflexivity].
  - exists md, mo, mn. split; [reflexivity|]. split; [exact Hmo|].
    split; [exact Hmn|]. split; [exact Hkeep|]. split; [exact Hupd|].
    split; [exact Hprev|].
    rewrite Hprev. symmetry. apply Hkeep; discriminate.
Qed.

Lemma merge_export_records_metadata_witness :
  let existing := sample_record "2024-01-01" (VList [entry 1 "a"]) in
  let new := sample_record "2024-02-01" (VList [entry 1 "b"; entry 2 "c"]) in
  let merged :=
    [("metadata",
      VDict [("export_date", VStr "2024-01-01");
             ("export_type", VStr "LibraryExporter");
             ("update_date", VStr "2024-02-01");
             ("previous_export_date", VStr "2024-01-01")]);
     ("data", VList [entry 1 "a"; entry 2 "c"])] in
  export_record existing
  /\ export_record new
  /\ merge_json_data "2024-03-01" existing new = Ok merged
  /\ export_record merged.
Proof.
  intros existing new merged.
  pose proof (sample_record_export_record "2024-01-01" (VList [entry 1 "a"]))
    as H1.
  pose proof (sample_record_export_record
                "2024-02-01" (VList [entry 1 "b"; entry 2 "c"])) as H2.
  assert (H3 : merge_json_data "2024-03-01" existing new = Ok merged)
    by reflexivity.
  split; [exact H1|]. split; [exact H2|]. split; [exact H3|].
  exact (proj1 (merge_export_records_metadata
                  "2024-03-01" existing new merged H1 H2 H3)).
Defined.

(** ** The merger: what becomes of the items *)





Lemma subsequence_refl {A : Type} (l : list A) : subsequence l l.
Proof.
  induction l; constructor; assumption.
Qed.

(** The loop over the new items only appends, and what it appends are
    new items in their order. *)
Lemma append_new_extends (f : string) (ids : list value)
      (new_items : list value) :
  forall merged final,
    append_new f ids new_items merged = Ok final ->
    exists kept, final = merged ++ kept /\ subsequence kept new_items.
Proof.
  induction new_items as [|item rest IH]; intros merged final.
  - cbn [append_new]. intros H. inversion H; subst final.
    exists []. split; [now rewrite app_nil_r|constructor].
  - cbn [append_new].
    assert (Htake : append_new f ids rest (merged ++ [item]) = Ok final ->
                    exists kept, final = merged ++ kept
                                 /\ subsequence kept (item :: rest)).
    { intros H. destruct (IH _ _ H) as (kept & -> & Hsub).
      exists (item :: kept). rewrite <- app_assoc.
      split; [reflexivity|now constructor]. }
    assert (Hskip : append_new f ids rest merged = Ok final ->
                    exists kept, final = merged ++ kept
                                 /\ subsequence kept (item :: rest)).
    { intros H. destruct (IH _ _ H) as (kept & -> & Hsub).
      exists kept. split; [reflexivity|now constructor]. }
    destruct (py_contains f item) as [present|ex]; cbn [bind];
      [|discriminate].
    destruct present; cbn [negb]; [|exact Htake].
    destruct (py_getitem item f) as [v|ex]; cbn [bind]; [|discriminate].
    destruct (hashable v); [|discriminate].
    destruct (negb (set_mem v ids)); [exact Htake|exact Hskip].
Qed.

(** X9: whenever two records with list-valued data merge without an
    error, the merged data begin with the existing list, item for item,
    and go on with items of the new list in the order they have there:
    no existing item is dropped, moved or replaced, and nothing is
    invented. *)
Theorem merge_extends_existing_items
        (now : string) (existing new merged : dict)
        (existing_items new_items : list value) :
  dict_lookup "data" existing = Some (VList existing_items) ->
  dict_lookup "data" new = Some (VList new_items) ->
  merge_json_data now existing new = Ok merged ->
  exists kept,
    dict_lookup "data" merged = Some (VList (existing_items ++ kept))
    /\ subsequence kept new_items.
Proof.
  intros Hdo Hdn. unfold merge_json_data.
  destruct (merge_metadata now existing new) as [md|ex]; cbn [bind];
    [|discriminate].
  unfold merge_data.
  rewrite (dict_mem_of_lookup _ _ Hdo), (dict_mem_of_lookup _ _ Hdn).
  cbn [andb]. unfold dict_get. rewrite Hdo, Hdn.
  destruct (_find_id_field (VList existing_items)) as [f|].
  - destruct (collect_ids f existing_items) as [ids|ex]; cbn [bind];
      [|discriminate].
    destruct (append_new f ids new_items existing_items) as [final|ex] eqn:Happ;
      cbn [bind]; [|discriminate].
    intros H. inversion H; subst merged.
    destruct (append_new_extends _ _ _ _ _ Happ) as (kept & -> & Hsub).
    exists kept. split; [reflexivity|exact Hsub].
  - cbn [bind]. intros H. inversion H; subst merged.
    exists new_items. split; [reflexivity|apply subsequence_refl].
Qed.

Lemma merge_extends_existing_items_witness :
  let existing := sample_record "2024-01-01" (VList [entry 1 "a"]) in
  let new := sample_record "2024-02-01" (VList [entry 1 "b"; entry 2 "c"]) in
  let merged :=
    [("metadata",
      VDict [("export_date", VStr "2024-01-01");
             ("export_type", VStr "LibraryExporter");
             ("update_date", VStr "2024-02-01");
             ("previous_export_date", VStr "2024-01-01")]);
     ("data", VList [entry 1 "a"; entry 2 "c"])] in
  dict_lookup "data" existing = Some (VList [entry 1 "a"])
  /\ dict_lookup "data" new = Some (VList [entry 1 "b"; entry 2 "c"])
  /\ merge_json_data "2024-03-01" existing new = Ok merged
  /\ exists kept,
      dict_lookup "data" merged = Some (VList ([entry 1 "a"] ++ kept))
      /\ subsequence kept [entry 1 "b"; entry 2 "c"].
Proof.
  intros existing new merged.
  split; [reflexivity|]. split; [reflexivity|]. split; [reflexivity|].
  exact (merge_extends_existing_items
           "2024-03-01" existing new merged
           [entry 1 "a"] [entry 1 "b"; entry 2 "c"] eq_refl eq_refl eq_refl).
Defined.

(** ** The merger: the choice of the identifier field *)

Lemma find_id_in_items_none_inv (items : list value) :
  find_id_in_items items = None -> no_identifier items.
Proof.
  induction items as [|item items IH]; intros Hfind d g Hin Hg;
    [contradiction|].
  cbn [find_id_in_items] in Hfind.
  destruct Hin as [->|Hin].
  - destruct (find (fun field => dict_mem field d) id_fields) eqn:Hd;
      [discriminate|].
    apply (find_none _ _ Hd g Hg).
  - apply (IH) with (d := d) (g := g); [|exact Hin|exact Hg].
    destruct item; try exact Hfind.
    destruct (find (fun field => dict_mem field d0) id_fields);
      [discriminate|exact Hfind].
Qed.

(** X10: what [_find_id_field] answers on a list.  It finds nothing
    exactly when no item is a record with an [id], [uri] or [href]
    field; otherwise it answers with the first of [id], [uri], [href]
    that the first such record has, whatever the later items hold. *)
Theorem find_id_field_characterised (items : list value) :
  (_find_id_field (VList items) = None <-> no_identifier items)
  /\ (forall f,
         _find_id_field (VList items) = Some f <-> first_identifier f items).
Proof.
  rewrite find_id_field_items. split.
  - split; [apply find_id_in_items_none_inv|apply find_id_in_items_none].
  - intros f. split;
      [apply find_id_in_items_first|apply find_id_in_items_of_first].
Qed.

(** ** The merger: what can go wrong *)

(** X11: a new record without a [data] key empties the data: the merged
    record holds an empty mapping, whatever the existing record had. *)
Theorem merge_new_record_without_data
        (now : string) (existing new merged : dict) :
  dict_mem "data" new = false ->
  merge_json_data now existing new = Ok merged ->
  dict_lookup "data" merged = Some (VDict []).
Proof.
  intros Hno. unfold merge_json_data.
  destruct (merge_metadata now existing new) as [md|ex]; cbn [bind];
    [|discriminate].
  unfold merge_data. rewrite Hno, andb_false_r.
  unfold dict_get. rewrite dict_mem_lookup in Hno.
  destruct (dict_lookup "data" new); [discriminate|].
  cbn [bind]. intros H. inversion H. reflexivity.
Qed.

Lemma merge_new_record_without_data_witness :
  let existing :=
    sample_record "2024-01-01" (VList [entry 1 "a"; entry 2 "c"]) in
  let new := [("metadata", sample_metadata "2024-02-01")] in
  let merged :=
    [("metadata",
      VDict [("export_date", VStr "2024-01-01");
             ("export_type", VStr "LibraryExporter");
             ("update_date", VStr "2024-02-01");
             ("previous_export_date", VStr "2024-01-01")]);
     ("data", VDict [])] in
  dict_mem "data" new = false
  /\ merge_json_data "2024-03-01" existing new = Ok merged
  /\ dict_lookup "data" merged = Some (VDict []).
Proof.
  intros existing new merged.
  split; [reflexivity|]. split; [reflexivity|].
  exact (merge_new_record_without_data
           "2024-03-01" existing new merged eq_refl eq_refl).
Defined.

Lemma collect_ids_unhashable (f : string) (items : list value) :
  Forall is_record items ->
  Exists (unhashable_identifier f) items ->
  collect_ids f items = Err TypeError.
Proof.
  induction 1 as [|item items (d & ->) _ IH]; intros Hex.
  - inversion Hex.
  - cbn [collect_ids py_contains bind]. rewrite dict_mem_lookup.
    destruct (dict_lookup f d) as [v|] eqn:Hv.
    + cbn [py_get bind]. unfold dict_get. rewrite Hv.
      destruct (hashable v) eqn:Hh; [|reflexivity].
      rewrite IH; [reflexivity|].
      inversion Hex as [x l (v' & Hid & Hh')|x l Hrest]; subst; [|exact Hrest].
      cbn [identifier] in Hid. rewrite Hv in Hid. inversion Hid; subst v'.
      rewrite Hh in Hh'. discriminate.
    + apply IH.
      inversion Hex as [x l (v' & Hid & Hh')|x l Hrest]; subst; [|exact Hrest].
      cbn [identifier] in Hid. rewrite Hv in Hid. discriminate.
Qed.

(** X12: when the existing items are records and one of them holds a
    list or a dict in the identifier field, the merge of two Export
    Records with list-valued data raises [TypeError] (the identifiers go
    into a set), whatever the new items are. *)
Theorem merge_unhashable_identifier
        (now : string) (existing new : dict)
        (existing_items new_items : list value) (f : string) :
  export_record existing ->
  export_record new ->
  dict_lookup "data" existing = Some (VList existing_items) ->
  dict_lookup "data" new = Some (VList new_items) ->
  _find_id_field (VList existing_items) = Some f ->
  Forall is_record existing_items ->
  Exists (unhashable_identifier f) existing_items ->
  merge_json_data now existing new = Err TypeError.
Proof.
  intros Hold Hnew Hdo Hdn Hfind Hrec Hbad.
  destruct (merge_metadata_export_records now Hold Hnew)
    as (mo & mn & _ & _ & Hmeta).
  unfold merge_json_data. rewrite Hmeta. cbn [bind].
  unfold merge_data.
  rewrite (export_record_has_data Hold), (export_record_has_data Hnew).
  cbn [andb]. unfold dict_get. rewrite Hdo, Hdn, Hfind.
  now rewrite (collect_ids_unhashable f existing_items Hrec Hbad).
Qed.

Lemma merge_unhashable_identifier_witness :
  let items := [entry 1 "a"; VDict [("id", VList [VInt 2])]] in
  let existing := sample_record "2024-01-01" (VList items) in
  let new := sample_record "2024-02-01" (VList []) in
  export_record existing
  /\ export_record new
  /\ dict_lookup "data" existing = Some (VList items)
  /\ dict_lookup "data" new = Some (VList [])
  /\ _find_id_field (VList items) = Some "id"
  /\ Forall is_record items
  /\ Exists (unhashable_identifier "id") items
  /\ merge_json_data "2024-03-01" existing new = Err TypeError.
Proof.
  intros items existing new.
  pose proof (sample_record_export_record "2024-01-01" (VList items)) as H1.
  pose proof (sample_record_export_record "2024-02-01" (VList [])) as H2.
  assert (H6 : Forall is_record items)
    by (repeat constructor; eexists; reflexivity).
  assert (H7 : Exists (unhashable_identifier "id") items).
  { apply Exists_cons_tl. apply Exists_cons_hd.
    exists (VList [VInt 2]). split; reflexivity. }
  split; [exact H1|]. split; [exact H2|].
  split; [reflexivity|]. split; [reflexivity|]. split; [reflexivity|].
  split; [exact H6|]. split; [exact H7|].
  exact (merge_unhashable_identifier
           "2024-03-01" existing new items [] "id"
           H1 H2 eq_refl eq_refl eq_refl H6 H7).
Defined.

(** ** The merger in the store: what the result shares with its inputs *)

Lemma subsequence_nil_l {A : Type} (l : list A) : subsequence [] l.
Proof.
  induction l; constructor; assumption.
Qed.

Lemma store_append_new_extends (f : string) (ids : list Store.sval)
      (new_items : list Store.sval) (hb : Store.store) :
  forall (cur : list Store.sval) (r : outcome unit) (h' : Store.store),
    Store.append_new f ids new_items (List.length hb)
                     (hb ++ [Store.OList cur]) = (r, h') ->
    exists kept,
      h' = hb ++ [Store.OList (cur ++ kept)] /\ subsequence kept new_items.
Proof.
  induction new_items as [|item rest IH]; intros cur r h'.
  - cbn [Store.append_new]. unfold Store.ret. intros H. inversion H.
    exists []. split; [now rewrite app_nil_r|constructor].
  - cbn [Store.append_new].
    assert (Hstop : forall (ex : exn),
               (Err ex : outcome unit, hb ++ [Store.OList cur]) = (r, h') ->
               exists kept,
                 h' = hb ++ [Store.OList (cur ++ kept)]
                 /\ subsequence kept (item :: rest)).
    { intros ex H. inversion H. exists [].
      split; [now rewrite app_nil_r|apply subsequence_nil_l]. }
    assert (Htake :
              Store.mbind (Store.list_append (List.length hb) item)
                          (fun _ => Store.append_new f ids rest (List.length hb))
                          (hb ++ [Store.OList cur]) = (r, h') ->
              exists kept,
                h' = hb ++ [Store.OList (cur ++ kept)]
                /\ subsequence kept (item :: rest)).
    { unfold Store.mbind. rewrite store_list_append_new. intros H.
      destruct (IH _ _ _ H) as (kept & -> & Hsub).
      exists (item :: kept). rewrite <- app_assoc.
      split; [reflexivity|now constructor]. }
    assert (Hskip :
              Store.append_new f ids rest (List.length hb)
                               (hb ++ [Store.OList cur]) = (r, h') ->
              exists kept,
                h' = hb ++ [Store.OList (cur ++ kept)]
                /\ subsequence kept (item :: rest)).
    { intros H. destruct (IH _ _ _ H) as (kept & -> & Hsub).
      exists kept. split; [reflexivity|now constructor]. }
    unfold Store.mbind at 1. unfold Store.reading at 1.
    destruct (Store.contains f item (hb ++ [Store.OList cur]))
      as [present|ex]; [|apply Hstop].
    destruct present; cbn [negb]; [|exact Htake].
    unfold Store.mbind at 1. unfold Store.reading at 1.
    destruct (Store.getitem item f (hb ++ [Store.OList cur])) as [v|ex];
      [|apply Hstop].
    destruct (Store.s_hashable v); [|apply Hstop].
    destruct (negb (existsb (Store.s_eqb v) ids)); [exact Htake|exact Hskip].
Qed.

(** The metadata are merged in objects of their own. *)
Lemma store_merge_metadata_allocates (now : string)
      (Es Ns : list (string * Store.sval)) (h h1 : Store.store)
      (r : outcome Store.sval) :
  Store.merge_metadata now Es Ns h = (r, h1) -> exists ext, h1 = h ++ ext.
Proof.
  unfold Store.merge_metadata.
  destruct (dict_mem "metadata" Es && dict_mem "metadata" Ns).
  - unfold Store.mbind at 1. unfold Store.reading at 1.
    destruct (Store.as_dict h (dict_get "metadata" Store.SNone Es)) as [d|].
    2:{ intros H. inversion H. exists []. now rewrite app_nil_r. }
    unfold Store.mbind at 1. unfold Store.new_object at 1.
    unfold Store.mbind at 1. unfold Store.reading at 1.
    destruct (Store.get (dict_get "metadata" Store.SNone Ns) "export_date"
                        (Store.SStr now) (h ++ [Store.ODict d])) as [u|a].
    2:{ intros H. inversion H. eexists. reflexivity. }
    unfold Store.mbind at 1. rewrite store_dict_assign_new.
    unfold Store.mbind at 1. unfold Store.reading at 1.
    destruct (Store.get (dict_get "metadata" Store.SNone Es) "export_date"
                        Store.SNone _) as [p|a].
    2:{ intros H. inversion H. eexists. reflexivity. }
    unfold Store.mbind at 1. rewrite store_dict_assign_new.
    unfold Store.ret. intros H. inversion H. eexists. reflexivity.
  - unfold Store.mbind, Store.new_object, Store.ret.
    intros H. inversion H. eexists. reflexivity.
Qed.

Lemma dict_get_of_lookup {V : Type} (k : string) (default v : V)
      (d : list (string * V)) :
  dict_lookup k d = Some v -> dict_get k default d = v.
Proof.
  intros H. unfold dict_get. now rewrite H.
Qed.

(** X13: the merge of two records whose data are lists, run in the
    store.  When it returns, the store has only grown; the data of the
    merged record are a list object that was not in the store before,
    so appending to the merged data later touches neither input; and the
    elements of that list are the very slots of the existing list,
    followed by slots of the new list in their order: the items are
    shared with the inputs, not copied. *)
Theorem store_merge_shares_items
        (now : string) (h h' : Store.store) (e n l : nat)
        (Es Ns : list (string * Store.sval)) (de dn : nat)
        (existing_items new_items : list Store.sval) :
  Store.load e h = Some (Store.ODict Es) ->
  Store.load n h = Some (Store.ODict Ns) ->
  dict_lookup "data" Es = Some (Store.SRef de) ->
  dict_lookup "data" Ns = Some (Store.SRef dn) ->
  Store.load de h = Some (Store.OList existing_items) ->
  Store.load dn h = Some (Store.OList new_items) ->
  Store.merge_json_data now e n h = (Ok l, h') ->
  exists ext md m kept,
    h' = h ++ ext
    /\ Store.load l h' = Some (Store.ODict [("metadata", md);
                                            ("data", Store.SRef m)])
    /\ Store.load m h = None
    /\ Store.load m h' = Some (Store.OList (existing_items ++ kept))
    /\ subsequence kept new_items.
Proof.
  intros He Hn Hdo Hdn Hlo Hln.
  unfold Store.merge_json_data.
  unfold Store.mbind at 1. unfold Store.reading at 1.
  cbn [Store.as_dict]. rewrite He.
  unfold Store.mbind at 1. unfold Store.reading at 1.
  cbn [Store.as_dict]. rewrite Hn.
  unfold Store.mbind at 1.
  destruct (Store.merge_metadata now Es Ns h) as [r1 h1] eqn:Hmeta.
  destruct (store_merge_metadata_allocates _ _ _ _ _ _ Hmeta) as (ext1 & ->).
  destruct r1 as [md|a]; [|discriminate].
  unfold Store.mbind at 1.
  assert (Hfresh : Store.load (List.length (h ++ ext1)) h = None).
  { apply nth_error_None. rewrite length_app. lia. }
  unfold Store.merge_data.
  rewrite (dict_mem_of_lookup _ _ Hdo), (dict_mem_of_lookup _ _ Hdn).
  cbn [andb].
  rewrite (dict_get_of_lookup _ Store.SNone _ _ Hdo),
    (dict_get_of_lookup _ Store.SNone _ _ Hdn).
  cbn [Store.as_list].
  rewrite (store_load_app _ _ ext1 _ Hlo), (store_load_app _ _ ext1 _ Hln).
  destruct (Store._find_id_field (h ++ ext1) (Store.SRef de)) as [f|].
  - unfold Store.mbind at 1. unfold Store.reading at 1.
    destruct (Store.collect_ids f existing_items (h ++ ext1)) as [ids|a];
      [|discriminate].
    unfold Store.mbind at 1. unfold Store.new_object at 1.
    unfold Store.mbind at 1.
    destruct (Store.append_new f ids new_items (List.length (h ++ ext1))
                ((h ++ ext1) ++ [Store.OList existing_items]))
      as [r2 h2] eqn:Happ.
    destruct (store_append_new_extends _ _ _ _ _ _ _ Happ)
      as (kept & -> & Hsub).
    destruct r2 as [[]|a]; [|discriminate].
    unfold Store.ret, Store.new_object. intros H. inversion H; subst l h'.
    exists (ext1 ++ [Store.OList (existing_items ++ kept)]
                 ++ [Store.ODict [("metadata", md);
                                  ("data", Store.SRef (List.length (h ++ ext1)))]]),
      md, (List.length (h ++ ext1)), kept.
    split; [now rewrite !app_assoc|].
    split; [apply store_load_new|].
    split; [exact Hfresh|].
    split; [|exact Hsub].
    apply store_load_app. apply store_load_new.
  - unfold Store.mbind, Store.new_object, Store.ret.
    intros H. inversion H; subst l h'.
    exists (ext1 ++ [Store.OList (existing_items ++ new_items)]
                 ++ [Store.ODict [("metadata", md);
                                  ("data", Store.SRef (List.length (h ++ ext1)))]]),
      md, (List.length (h ++ ext1)), new_items.
    split; [now rewrite !app_assoc|].
    split; [apply store_load_new|].
    split; [exact Hfresh|].
    split; [|apply subsequence_refl].
    apply store_load_app. apply store_load_new.
Qed.

Lemma store_merge_shares_items_witness :
  let h' :=
    sample_store
      ++ [Store.ODict [("export_date", Store.SStr "2024-01-01");
                       ("export_type", Store.SStr "LibraryExporter");
                       ("update_date", Store.SStr "2024-02-01");
                       ("previous_export_date", Store.SStr "2024-01-01")];
          Store.OList [Store.SRef 1; Store.SRef 6];
          Store.ODict [("metadata", Store.SRef 9); ("data", Store.SRef 10)]] in
  Store.load 3 sample_store
  = Some (Store.ODict [("metadata", Store.SRef 0); ("data", Store.SRef 2)])
  /\ Store.load 8 sample_store
     = Some (Store.ODict [("metadata", Store.SRef 4); ("data", Store.SRef 7)])
  /\ Store.load 2 sample_store = Some (Store.OList [Store.SRef 1])
  /\ Store.load 7 sample_store
     = Some (Store.OList [Store.SRef 5; Store.SRef 6])
  /\ Store.merge_json_data "2024-03-01T10:00:00" 3 8 sample_store
     = (Ok 11%nat, h')
  /\ exists ext md m kept,
      h' = sample_store ++ ext
      /\ Store.load 11 h' = Some (Store.ODict [("metadata", md);
                                               ("data", Store.SRef m)])
      /\ Store.load m sample_store = None
      /\ Store.load m h' = Some (Store.OList ([Store.SRef 1] ++ kept))
      /\ subsequence kept [Store.SRef 5; Store.SRef 6].
Proof.
  intros h'.
  split; [reflexivity|]. split; [reflexivity|]. split; [reflexivity|].
  split; [reflexivity|]. split; [reflexivity|].
  exact (store_merge_shares_items
           "2024-03-01T10:00:00" sample_store h' 3 8 11
           [("metadata", Store.SRef 0); ("data", Store.SRef 2)]
           [("metadata", Store.SRef 4); ("data", Store.SRef 7)]
           2 7 [Store.SRef 1] [Store.SRef 5; Store.SRef 6]
           eq_refl eq_refl eq_refl eq_refl eq_refl eq_refl eq_refl).
Defined.

Lemma holds_no_list_app (h ext : Store.store) (v : Store.sval) :
  holds_no_list h v -> Store.as_list (h ++ ext) v = None.
Proof.
  destruct v; try reflexivity.
  intros (d & Hd). cbn [Store.as_list].
  now rewrite (store_load_app _ _ ext _ Hd).
Qed.

(** X14: the merge of two records of which one holds data that are no
    list (a scalar or a dict), run in the store.  When it returns, the
    [data] slot of the merged record is the [data] slot of the new
    record: where that is a reference, the merged record and the new
    record share one data object, and a later change of the one shows in
    the other. *)
Theorem store_merge_shares_new_data
        (now : string) (h h' : Store.store) (e n l : nat)
        (Es Ns : list (string * Store.sval)) (old_data new_data : Store.sval) :
  Store.load e h = Some (Store.ODict Es) ->
  Store.load n h = Some (Store.ODict Ns) ->
  dict_lookup "data" Es = Some old_data ->
  dict_lookup "data" Ns = Some new_data ->
  holds_no_list h old_data \/ holds_no_list h new_data ->
  Store.merge_json_data now e n h = (Ok l, h') ->
  exists ext md,
    h' = h ++ ext
    /\ Store.load l h' = Some (Store.ODict [("metadata", md);
                                            ("data", new_data)]).
Proof.
  intros He Hn Hdo Hdn Hno.
  unfold Store.merge_json_data.
  unfold Store.mbind at 1. unfold Store.reading at 1.
  cbn [Store.as_dict]. rewrite He.
  unfold Store.mbind at 1. unfold Store.reading at 1.
  cbn [Store.as_dict]. rewrite Hn.
  unfold Store.mbind at 1.
  destruct (Store.merge_metadata now Es Ns h) as [r1 h1] eqn:Hmeta.
  destruct (store_merge_metadata_allocates _ _ _ _ _ _ Hmeta) as (ext1 & ->).
  destruct r1 as [md|a]; [|discriminate].
  unfold Store.mbind at 1.
  assert (Hdata : Store.merge_data Es Ns (h ++ ext1)
                  = (Ok new_data, h ++ ext1)).
  { unfold Store.merge_data.
    rewrite (dict_mem_of_lookup _ _ Hdo), (dict_mem_of_lookup _ _ Hdn).
    cbn [andb].
    rewrite (dict_get_of_lookup _ Store.SNone _ _ Hdo),
      (dict_get_of_lookup _ Store.SNone _ _ Hdn).
    destruct Hno as [Hno|Hno]; rewrite (holds_no_list_app _ ext1 _ Hno).
    - reflexivity.
    - destruct (Store.as_list (h ++ ext1) old_data); reflexivity. }
  rewrite Hdata. unfold Store.new_object.
  intros H. inversion H; subst l h'.
  exists (ext1 ++ [Store.ODict [("metadata", md); ("data", new_data)]]), md.
  split; [now rewrite app_assoc|apply store_load_new].
Qed.

Lemma store_merge_shares_new_data_witness :
  let h' :=
    profile_store
      ++ [Store.ODict [("export_date", Store.SStr "2024-01-01");
                       ("export_type", Store.SStr "ProfileExporter");
                       ("update_date", Store.SStr "2024-02-01");
                       ("previous_export_date", Store.SStr "2024-01-01")];
          Store.ODict [("metadata", Store.SRef 6); ("data", Store.SRef 4)]] in
  Store.load 2 profile_store
  = Some (Store.ODict [("metadata", Store.SRef 0); ("data", Store.SRef 1)])
  /\ Store.load 5 profile_store
     = Some (Store.ODict [("metadata", Store.SRef 3); ("data", Store.SRef 4)])
  /\ holds_no_list profile_store (Store.SRef 1)
  /\ Store.merge_json_data "2024-03-01T10:00:00" 2 5 profile_store
     = (Ok 7%nat, h')
  /\ exists ext md,
      h' = profile_store ++ ext
      /\ Store.load 7 h' = Some (Store.ODict [("metadata", md);
                                              ("data", Store.SRef 4)]).
Proof.
  intros h'.
  assert (H3 : holds_no_list profile_store (Store.SRef 1))
    by (eexists; reflexivity).
  split; [reflexivity|]. split; [reflexivity|]. split; [exact H3|].
  split; [reflexivity|].
  exact (store_merge_shares_new_data
           "2024-03-01T10:00:00" profile_store h' 2 5 7
           [("metadata", Store.SRef 0); ("data", Store.SRef 1)]
           [("metadata", Store.SRef 3); ("data", Store.SRef 4)]
           (Store.SRef 1) (Store.SRef 4)
           eq_refl eq_refl eq_refl eq_refl (or_introl H3) eq_refl).
Defined.

(** ** The decorator *)

(** Around a single call of the client the decorator is the executor
    itself. *)
Lemma retry_loop_around_client_call
      (int_of_str : string -> option Z)
      (time_sleep : number -> option exn) (C : Type)
      (api : string -> list value -> dict -> C -> outcome dict * C)
      (method : string) (args : list value) (kwargs : dict)
      (max_retries : Z) (bf : number) (statuses : list Z) (fuel : nat) :
  forall (attempt : Z) (cur : number) (w : world C),
    retry_loop_around int_of_str time_sleep
                      (client_call api method args kwargs)
                      max_retries bf statuses fuel attempt cur w
    = retry_loop int_of_str time_sleep (spotify_call api method args kwargs)
                 max_retries bf statuses fuel attempt cur (fst w) (snd w).
Proof.
  induction fuel as [|fuel IH]; intros attempt cur w; [reflexivity|].
  cbn [retry_loop_around retry_loop].
  destruct (attempt <? max_retries); [|now destruct w].
  unfold client_call.
  destruct (spotify_call api method args kwargs (fst w)) as [r c].
  destruct r as [v|[e|name]]; try reflexivity.
  destruct (status_in (http_status e) statuses); [|reflexivity].
  destruct (attempt + 1 >=? max_retries); [reflexivity|].
  destruct (wait_and_back_off int_of_str time_sleep bf e cur)
    as [slept [next|ex]]; [|reflexivity].
  rewrite IH. reflexivity.
Qed.

(** [get_user_profile] is the executor around [current_user], three
    attempts from a delay of two seconds. *)
Lemma get_user_profile_executor
      (int_of_str : string -> option Z)
      (time_sleep : number -> option exn) (C : Type)
      (api : string -> list value -> dict -> C -> outcome dict * C)
      (w : world C) :
  get_user_profile int_of_str time_sleep api w
  = retry_on_api_error int_of_str time_sleep
                       (spotify_call api "current_user" [] [])
                       3 (NInt 2) default_backoff_factor None w.
Proof.
  unfold get_user_profile, rate_limit_decorator, retry_on_api_error.
  apply retry_loop_around_client_call.
Qed.

(** The two waits of a run of three attempts, taken apart. *)
Lemma two_waits (int_of_str : string -> option Z)
      (time_sleep : number -> option exn) (bf cur cur' d d' : number)
      (e : SpotifyException) :
  waits int_of_str time_sleep bf cur [e; e] [d; d'] cur' ->
  exists next,
    wait_and_back_off int_of_str time_sleep bf e cur = ([Sleep d], Ok next)
    /\ wait_and_back_off int_of_str time_sleep bf e next
       = ([Sleep d'], Ok cur').
Proof.
  intros Hw.
  inversion Hw as [|? next ? ? ? ? ? Hd Hs Hm Hw']; subst.
  inversion Hw' as [|? next' ? ? ? ? ? Hd' Hs' Hm' Hw'']; subst.
  inversion Hw''; subst.
  exists next. split; now apply wait_goes_well.
Qed.

Section Amplification.

Variable int_of_str : string -> option Z.
Variable time_sleep : number -> option exn.
Variable C : Type.
Variable api : string -> list value -> dict -> C -> outcome dict * C.
Variable e : SpotifyException.
Variable method : string.
Variable args : list value.
Variable kwargs : dict.
Variable d2 d4 last_delay : number.

Hypothesis e_retryable : retryable None e = true.
Hypothesis out_of_order :
  forall c, fst (api method args kwargs c) = Err (ESpotify e).
Hypothesis waits_well :
  waits int_of_str time_sleep default_backoff_factor (NInt 2) [e; e]
        [d2; d4] last_delay.

Let req := mkRequest method args kwargs.

(** Three attempts of the executor against a call that keeps failing. *)
Lemma executor_gives_up (w : world C) :
  exists c',
    retry_on_api_error int_of_str time_sleep
                       (spotify_call api method args kwargs)
                       API_RETRY_ATTEMPTS (NInt API_RETRY_DELAY)
                       default_backoff_factor None w
    = Some (Raised (ESpotify e),
            ((c', snd (fst w) ++ [req; req; req]),
             snd w ++ [Invoke; Sleep d2; Invoke; Sleep d4; Invoke])).
Proof.
  destruct w as [[c log] tr].
  unfold retry_on_api_error, API_RETRY_ATTEMPTS, API_RETRY_DELAY.
  cbn [fst snd]. change (S (Z.to_nat 3)) with 4%nat.
  unfold retryable, statuses_of in e_retryable.
  destruct (two_waits _ _ _ _ _ _ _ _ waits_well) as (next & W1 & W2).
  assert (Hcall : forall c0 l0,
             exists c1,
               spotify_call api method args kwargs (c0, l0)
               = (Err (ESpotify e), (c1, l0 ++ [req]))).
  { intros c0 l0. unfold spotify_call. cbn [fst snd].
    pose proof (out_of_order c0) as H.
    destruct (api method args kwargs c0) as [r c1]. cbn [fst] in H. subst r.
    exists c1. reflexivity. }
  destruct (Hcall c log) as (c1 & H1).
  destruct (Hcall c1 (log ++ [req])) as (c2 & H2).
  destruct (Hcall c2 ((log ++ [req]) ++ [req])) as (c3 & H3).
  exists c3.
  cbn [retry_loop]. change (0 <? 3) with true. cbv iota.
  rewrite H1, e_retryable. change (0 + 1 >=? 3) with false. cbv iota.
  rewrite W1.
  change (0 + 1 <? 3) with true. cbv iota.
  rewrite H2, e_retryable. change (0 + 1 + 1 >=? 3) with false. cbv iota.
  rewrite W2.
  change (0 + 1 + 1 <? 3) with true. cbv iota.
  rewrite H3, e_retryable. change (0 + 1 + 1 + 1 >=? 3) with true. cbv iota.
  rewrite <- !app_assoc. reflexivity.
Qed.

End Amplification.

Lemma paginate_gives_up
      (int_of_str : string -> option Z)
      (time_sleep : number -> option exn) (C : Type)
      (api : string -> list value -> dict -> C -> outcome dict * C)
      (e : SpotifyException) (playlist_id : value)
      (d2 d4 last_delay : number) :
  retryable None e = true ->
  (forall c,
      fst (api "playlist_items" []
               [("playlist_id", playlist_id); ("limit", VInt 50)] c)
      = Err (ESpotify e)) ->
  waits int_of_str time_sleep default_backoff_factor (NInt 2) [e; e]
        [d2; d4] last_delay ->
  forall (fuel : nat) (w : world C),
  exists c',
    paginate int_of_str time_sleep api fuel "playlist_items" []
             [("playlist_id", playlist_id)] w
    = Some (Err (ESpotify e),
            ((c', snd (fst w) ++ repeat (playlist_request playlist_id) 3),
             snd w ++ [Invoke; Sleep d2; Invoke; Sleep d4; Invoke])).
Proof.
  intros He Hapi Hw fuel w.
  destruct (executor_gives_up int_of_str time_sleep C api e "playlist_items"
              [] [("playlist_id", playlist_id); ("limit", VInt 50)]
              d2 d4 last_delay He Hapi Hw w)
    as (c' & Hrun).
  exists c'. unfold paginate.
  change (with_default_limit [("playlist_id", playlist_id)])
    with [("playlist_id", playlist_id); ("limit", VInt 50)].
  rewrite Hrun. reflexivity.
Qed.

(** X15: a retry inside a retry.  [get_playlist_tracks] puts the
    executor around the paginator, which puts the executor around every
    call.  Against a service that answers every request for the
    playlist's items with the same retryable error, and when the two
    waits of a run of three attempts go well ([time.sleep] returns on
    the delays [d2] and [d4] computed after that error, which it does
    not on a negative hint), the method gives up with that error only
    after nine requests, three by each of the three attempts of the
    decorator, and eight waits: two inside every attempt and one after
    each of the first two attempts. *)
Theorem playlist_tracks_retried_ninefold
        (int_of_str : string -> option Z)
        (time_sleep : number -> option exn) (C : Type)
        (api : string -> list value -> dict -> C -> outcome dict * C)
        (e : SpotifyException) (playlist_id : value)
        (d2 d4 last_delay : number)
        (fuel : nat) (w : world C) :
  retryable None e = true ->
  (forall c,
      fst (api "playlist_items" []
               [("playlist_id", playlist_id); ("limit", VInt 50)] c)
      = Err (ESpotify e)) ->
  waits int_of_str time_sleep default_backoff_factor (NInt 2) [e; e]
        [d2; d4] last_delay ->
  exists w',
    get_playlist_tracks int_of_str time_sleep api fuel playlist_id w
    = Some (Raised (ESpotify e), w')
    /\ snd (fst w') = snd (fst w) ++ repeat (playlist_request playlist_id) 9
    /\ sleeps (snd w')
       = sleeps (snd w) ++ [d2; d4; d2; d2; d4; d4; d2; d4].
Proof.
  intros He Hapi Hw.
  pose proof (paginate_gives_up int_of_str time_sleep C api e playlist_id
                d2 d4 last_delay He Hapi Hw fuel) as Hinner.
  destruct (two_waits _ _ _ _ _ _ _ _ Hw) as (next & W1 & W2).
  unfold get_playlist_tracks, rate_limit_decorator.
  change (S (Z.to_nat 3)) with 4%nat.
  unfold retryable, statuses_of in He.
  set (func := paginate int_of_str time_sleep api fuel "playlist_items" []
                        [("playlist_id", playlist_id)]) in *.
  destruct (Hinner w) as (c1 & H1).
  cbn [retry_loop_around]. change (0 <? 3) with true. cbv iota.
  rewrite H1, He. change (0 + 1 >=? 3) with false. cbv iota.
  rewrite W1.
  change (0 + 1 <? 3) with true. cbv iota. cbn [fst snd].
  match goal with
  | |- context [func ?w1] => destruct (Hinner w1) as (c2 & H2)
  end.
  rewrite H2, He. change (0 + 1 + 1 >=? 3) with false. cbv iota.
  rewrite W2.
  change (0 + 1 + 1 <? 3) with true. cbv iota. cbn [fst snd].
  match goal with
  | |- context [func ?w2] => destruct (Hinner w2) as (c3 & H3)
  end.
  rewrite H3, He. change (0 + 1 + 1 + 1 >=? 3) with true. cbv iota.
  eexists. split; [reflexivity|]. cbn [fst snd]. split.
  - rewrite <- !app_assoc. reflexivity.
  - rewrite !sleeps_app. rewrite <- !app_assoc. reflexivity.
Qed.

Lemma playlist_tracks_retried_ninefold_witness :
  retryable None e429 = true
  /\ (forall c,
         fst (failing_api e429 "playlist_items" []
                [("playlist_id", VStr "p1"); ("limit", VInt 50)] c)
         = Err (ESpotify e429))
  /\ waits decimal_int sample_sleep default_backoff_factor (NInt 2)
           [e429; e429] [NInt 2; NInt 4] (NFloat (S754_finite false 4503599627370496 (-49)))
  /\ exists w',
      get_playlist_tracks decimal_int sample_sleep (failing_api e429) 0
                          (VStr "p1") ((0%nat, []), [])
      = Some (Raised (ESpotify e429), w')
      /\ snd (fst w') = [] ++ repeat (playlist_request (VStr "p1")) 9
      /\ sleeps (snd w')
         = [] ++ [NInt 2; NInt 4; NInt 2; NInt 2; NInt 4; NInt 4;
                  NInt 2; NInt 4].
Proof.
  assert (H1 : retryable None e429 = true) by reflexivity.
  assert (H2 : forall c : nat,
             fst (failing_api e429 "playlist_items" []
                    [("playlist_id", VStr "p1"); ("limit", VInt 50)] c)
             = Err (ESpotify e429)) by (intros c; reflexivity).
  assert (H3 : waits decimal_int sample_sleep default_backoff_factor (NInt 2)
                     [e429; e429] [NInt 2; NInt 4]
                     (NFloat (S754_finite false 4503599627370496 (-49)))).
  { eapply waits_more; [reflexivity|reflexivity|reflexivity|].
    eapply waits_more; [reflexivity|reflexivity|reflexivity|].
    apply waits_none. }
  split; [exact H1|]. split; [exact H2|]. split; [exact H3|].
  exact (playlist_tracks_retried_ninefold
           decimal_int sample_sleep nat (failing_api e429) e429 (VStr "p1")
           (NInt 2) (NInt 4) _ 0%nat ((0%nat, []), []) H1 H2 H3).
Defined.

(** The same run in figures: nine requests and twenty-four seconds of
    waiting before the error of a rate-limited service shows. *)
Example playlist_tracks_sample_run :
  get_playlist_tracks decimal_int sample_sleep (failing_api e429) 0
                      (VStr "p1") ((0%nat, []), [])
  = Some (Raised (ESpotify e429),
          ((9%nat, repeat (playlist_request (VStr "p1")) 9),
           [Invoke; Sleep (NInt 2); Invoke; Sleep (NInt 4); Invoke;
            Sleep (NInt 2);
            Invoke; Sleep (NInt 2); Invoke; Sleep (NInt 4); Invoke;
            Sleep (NInt 4);
            Invoke; Sleep (NInt 2); Invoke; Sleep (NInt 4); Invoke])).
Proof. vm_compute. reflexivity. Qed.

(** With a negative hint the first wait raises: one request, no sleep,
    and the [ValueError] of [time.sleep] leaves the method. *)
Example playlist_tracks_negative_hint :
  get_playlist_tracks decimal_int sample_sleep
                      (failing_api (e429_after "-5")) 0 (VStr "p1")
                      ((0%nat, []), [])
  = Some (Raised ValueError,
          ((1%nat, [playlist_request (VStr "p1")]), [Invoke])).
Proof. vm_compute. reflexivity. Qed.

(** ** The rows of a CSV export *)

Lemma dict_update_lookup (k : string) (entries : dict) :
  unique_keys entries ->
  forall d,
    dict_lookup k (dict_update d entries)
    = match dict_lookup k entries with
      | Some x => Some x
      | None => dict_lookup k d
      end.
Proof.
  unfold unique_keys, dict_update.
  induction entries as [|[k0 v0] entries IH]; intros Hu d; [reflexivity|].
  cbn [map fst] in Hu. inversion Hu as [|? ? Hnotin Hu']; subst.
  cbn [fold_left fst snd dict_lookup]. rewrite (IH Hu').
  destruct (String.eqb_spec k k0) as [->|Hne].
  - assert (Hnone : dict_lookup k0 entries = None).
    { clear - Hnotin. induction entries as [|[k1 v1] entries IH];
        [reflexivity|].
      cbn [dict_lookup]. cbn [map fst] in Hnotin.
      destruct (String.eqb_spec k0 k1) as [->|_].
      - exfalso. apply Hnotin. now left.
      - apply IH. intros H. apply Hnotin. now right. }
    rewrite Hnone. apply dict_lookup_set.
  - destruct (dict_lookup k entries); [reflexivity|].
    now apply dict_lookup_set_other.
Qed.

Lemma dict_set_head (k k0 : string) (v v0 : value) (d : dict) :
  exists x rest, dict_set k v ((k0, v0) :: d) = (k0, x) :: rest.
Proof.
  cbn [dict_set]. destruct (String.eqb_spec k k0) as [->|_];
    eexists; eexists; reflexivity.
Qed.

Lemma dict_update_head (k0 : string) (entries : dict) :
  forall (v0 : value) (d : dict),
  exists x rest, dict_update ((k0, v0) :: d) entries = (k0, x) :: rest.
Proof.
  unfold dict_update.
  induction entries as [|[k v] entries IH]; intros v0 d.
  - eexists; eexists; reflexivity.
  - cbn [fold_left fst snd].
    destruct (dict_set_head k k0 v v0 d) as (x & rest & ->). apply IH.
Qed.

(** X16: a mapping exported as CSV.  A mapping without a list or a
    mapping among its values is one row, the empty mapping included.
    Any other mapping gives one row per entry, in the order of the
    entries, and every row starts with the column [key].  The row of an
    entry whose value is no mapping holds the key and the value; the row
    of an entry whose value is a mapping holds the fields of that
    mapping and, under [key], the key of the entry, unless the mapping
    has a field [key] of its own: then this field is what the column
    holds, and the key of the entry is not in the row. *)
Theorem save_data_csv_rows (d : dict) (filename : string) :
  (forallb (fun kv => negb (is_container (snd kv))) d = true ->
   save_data "csv" (VDict d) filename = save_to_csv (VList [VDict d]) filename)
  /\ (forallb (fun kv => negb (is_container (snd kv))) d = false ->
      exists rows,
        save_data "csv" (VDict d) filename = save_to_csv (VList rows) filename
        /\ List.length rows = List.length d
        /\ forall i k v,
            nth_error d i = Some (k, v) ->
            exists r x rest,
              nth_error rows i = Some (VDict r)
              /\ r = ("key", x) :: rest
              /\ match v with
                 | VDict vd =>
                     unique_keys vd ->
                     dict_lookup "key" r = Some (dict_get "key" (VStr k) vd)
                     /\ forall k', k' <> "key" ->
                                   dict_lookup k' r = dict_lookup k' vd
                 | _ => r = [("key", VStr k); ("value", v)]
                 end).
Proof.
  unfold save_data. change (String.eqb "csv" "csv") with true. cbv iota.
  unfold csv_rows. split; intros Hflat; rewrite Hflat; [reflexivity|].
  eexists. split; [reflexivity|]. split; [apply length_map|].
  intros i k v Hi.
  rewrite nth_error_map, Hi. cbn [option_map fst snd].
  destruct v as [| | | | | |vd];
    try (eexists; eexists; eexists;
         split; [reflexivity|]; split; reflexivity).
  cbn [csv_row].
  destruct (dict_update_head "key" vd (VStr k) []) as (x & rest & Hhead).
  exists (dict_update [("key", VStr k)] vd), x, rest.
  split; [reflexivity|]. split; [exact Hhead|].
  intros Hu. split.
  - rewrite (dict_update_lookup "key" vd Hu). unfold dict_get.
    destruct (dict_lookup "key" vd); reflexivity.
  - intros k' Hk'. rewrite (dict_update_lookup k' vd Hu).
    destruct (dict_lookup k' vd); [reflexivity|].
    cbn [dict_lookup]. destruct (String.eqb_spec k' "key"); [contradiction|].
    reflexivity.
Qed.

(** The top tracks of three time ranges, as a mapping of mappings: the
    second entry has a field [key] of its own, and its row does not name
    the time range. *)
Example save_data_csv_sample :
  save_data "csv"
            (VDict [("short_term", VDict [("count", VInt 3)]);
                    ("long_term", VDict [("key", VStr "C"); ("count", VInt 5)]);
                    ("total", VInt 8)])
            "top_tracks"
  = save_to_csv
      (VList [VDict [("key", VStr "short_term"); ("count", VInt 3)];
              VDict [("key", VStr "C"); ("count", VInt 5)];
              VDict [("key", VStr "total"); ("value", VInt 8)]])
      "top_tracks"
  /\ save_data "csv" (VDict []) "profile"
     = save_to_csv (VList [VDict []]) "profile"
  /\ save_data "xml" (VDict []) "profile" = save_to_json (VDict []) "profile".
Proof. repeat split. Qed.

(** ** The directories of an export *)

Section DirectoriesFacts.

Variable path : Type.
Variable Path : string -> path.
Variable joinpath : path -> string -> path.
Variable F : Type.
Variable mkdir : path -> F -> outcome unit * F.

Lemma ensure_directory_log (directory : path) (w w' : disk path F)
      (r : outcome path) :
  ensure_directory mkdir directory w = (r, w') ->
  snd w' = snd w ++ [directory].
Proof.
  unfold ensure_directory. destruct (mkdir directory (fst w)) as [r0 f].
  intros H. inversion H. reflexivity.
Qed.

Lemma create_entry_sub (parent : option path) (key : string)
      (sub : list (string * structure path)) (w : disk path F) :
  create_entry Path joinpath mkdir parent key (Sub sub) w
  = match ensure_directory mkdir (subdir_of Path joinpath parent key) w with
    | (Err e, w') => (Err e, w')
    | (Ok _, w') =>
        _create_dirs Path joinpath mkdir
                     (Some (subdir_of Path joinpath parent key)) sub w'
    end.
Proof.
  cbn [create_entry].
  destruct (ensure_directory mkdir (subdir_of Path joinpath parent key) w)
    as [[q|e] w1]; [|reflexivity].
  revert w1. induction sub as [|[k v] rest IH]; intros w1; [reflexivity|].
  cbn [_create_dirs].
  destruct (create_entry Path joinpath mkdir
                         (Some (subdir_of Path joinpath parent key))
                         k v w1) as [[[]|e] w2]; [|reflexivity].
  apply IH.
Qed.

Lemma create_dirs_requests (parent : option path)
      (struct : list (string * structure path)) :
  Forall (fun kv => entry_requests Path joinpath mkdir (snd kv)) struct ->
  forall w w',
    _create_dirs Path joinpath mkdir parent struct w = (Ok tt, w') ->
    exists requested,
      snd w' = snd w ++ requested
      /\ (forall k v p, In (k, v) struct -> has_leaf p v -> In p requested)
      /\ (forall k sub,
             In (k, Sub sub) struct ->
             In (subdir_of Path joinpath parent k) requested).
Proof.
  induction 1 as [|[k v] rest Hv _ IH]; intros w w'.
  - cbn [_create_dirs]. intros H. inversion H. exists [].
    split; [now rewrite app_nil_r|]. split; intros; contradiction.
  - cbn [_create_dirs].
    destruct (create_entry Path joinpath mkdir parent k v w)
      as [[[]|e] w1] eqn:Hentry; [|discriminate].
    intros Hrest.
    destruct (Hv parent k w w1 Hentry) as (req1 & Hlog1 & Hleaf1 & Hsub1).
    destruct (IH w1 w' Hrest) as (req2 & Hlog2 & Hleaf2 & Hsub2).
    exists (req1 ++ req2).
    split; [now rewrite Hlog2, Hlog1, app_assoc|]. split.
    + intros k0 v0 p [Heq|Hin] Hp; apply in_or_app.
      * inversion Heq; subst. left. now apply Hleaf1.
      * right. now apply (Hleaf2 k0 v0).
    + intros k0 sub [Heq|Hin]; apply in_or_app.
      * inversion Heq; subst. left. now apply (Hsub1 sub).
      * right. now apply (Hsub2 k0 sub).
Qed.

Lemma create_entry_requests (value : structure path) :
  entry_requests Path joinpath mkdir value.
Proof.
  induction value as [p|entries IH] using structure_values_ind;
    intros parent key w w'.
  - cbn [create_entry].
    destruct (ensure_directory mkdir p w) as [[q|e] w1] eqn:Hmk;
      [|discriminate].
    intros H. inversion H; subst w1.
    exists [p]. split; [exact (ensure_directory_log _ _ _ _ Hmk)|].
    split.
    + intros p0 Hp0. inversion Hp0; subst. now left.
    + intros sub Hsub. discriminate Hsub.
  - rewrite create_entry_sub.
    destruct (ensure_directory mkdir (subdir_of Path joinpath parent key) w)
      as [[q|e] w1] eqn:Hmk; [|discriminate].
    intros Hsubs.
    destruct (create_dirs_requests _ _ IH w1 w' Hsubs)
      as (req & Hlog & Hleaf & _).
    exists (subdir_of Path joinpath parent key :: req).
    split.
    + rewrite Hlog, (ensure_directory_log _ _ _ _ Hmk), <- app_assoc.
      reflexivity.
    + split.
      * intros p Hp. inversion Hp as [|k v entries' Hin Hv]; subst.
        right. now apply (Hleaf k v).
      * intros sub _. now left.
Qed.

End DirectoriesFacts.

(** X17: the directories [create_export_structure] asks for when every
    [mkdir] goes well.  Every path that is a leaf of the structure is
    among them, and so is, for every key of the structure whose value is
    a sub-structure, the path [Path(key)] made of the key alone: a
    directory of that name is created where the key, taken as a path,
    points, which for a plain name is the working directory and not the
    export directory. *)
Theorem create_export_structure_directories
        (path : Type) (Path : string -> path)
        (joinpath : path -> string -> path)
        (F : Type) (mkdir : path -> F -> outcome unit * F)
        (structure : list (string * structure path)) (w w' : disk path F) :
  create_export_structure Path joinpath mkdir structure w = (Ok tt, w') ->
  exists requested,
    snd w' = snd w ++ requested
    /\ (forall key sub, In (key, Sub sub) structure ->
                        In (Path key) requested)
    /\ (forall key value p,
           In (key, value) structure -> has_leaf p value -> In p requested).
Proof.
  unfold create_export_structure. intros Hrun.
  assert (Hall : Forall (fun kv => entry_requests Path joinpath mkdir (snd kv))
                        structure).
  { apply Forall_forall. intros kv _. apply create_entry_requests. }
  destruct (create_dirs_requests path Path joinpath F mkdir None structure
              Hall w w' Hrun) as (req & Hlog & Hleaf & Hsub).
  exists req. split; [exact Hlog|]. split.
  - intros key sub Hin. exact (Hsub key sub Hin).
  - exact Hleaf.
Qed.

Lemma create_export_structure_directories_witness :
  let structure := EXPORT_STRUCTURE names_join ["/"; "app"; "exports"] in
  let w' :=
    (tt,
     [["/"; "app"; "exports"; "profile"];
      ["/"; "app"; "exports"; "playlists"];
      ["library"];
      ["/"; "app"; "exports"; "library"; "tracks"];
      ["/"; "app"; "exports"; "library"; "albums"];
      ["/"; "app"; "exports"; "following"];
      ["history"];
      ["/"; "app"; "exports"; "history"; "recently_played"];
      ["/"; "app"; "exports"; "history"; "top_tracks"];
      ["/"; "app"; "exports"; "history"; "top_artists"]]) in
  create_export_structure names_path names_join easy_mkdir structure (tt, [])
  = (Ok tt, w')
  /\ exists requested,
      snd w' = [] ++ requested
      /\ (forall key sub, In (key, Sub sub) structure ->
                          In (names_path key) requested)
      /\ (forall key value p,
             In (key, value) structure -> has_leaf p value ->
             In p requested).
Proof.
  intros structure w'.
  split; [reflexivity|].
  exact (create_export_structure_directories
           (list string) names_path names_join unit easy_mkdir
           structure (tt, []) w' eq_refl).
Defined.
